(** * FOEDUS transaction commit core: a shallow embedding

    The development follows [foedus/xct/xct_manager_pimpl.cpp] (begin, precommit,
    abort, wait-for-commit), [foedus/snapshot/log_gleaner_impl.cpp] (the
    partitioner registry) and [foedus/storage/hash/hash_metadata.cpp]
    ([set_capacity], with its [double] arithmetic as IEEE 754 binary64).

    One worker thread is modelled together with the part of the shared memory
    it touches.  Pointers are integers (addresses), the pointed-to words live
    in a [Memory] of total functions, and every call of the worker to the MCS
    lock interface or store of a final owner id is recorded in a history, so
    that statements about "how often" and "where" can be made. *)

From Stdlib Require Import ZArith Lia List Bool.
From Stdlib Require Import Floats.SpecFloat.
From stdpp Require Import base tactics option numbers list functions sorting gmap.

Local Open Scope Z_scope.

(** ** Error codes used by the transaction manager *)

Inductive ErrorCode : Set :=
| kErrorCodeOk
| kErrorCodeXctAlreadyRunning
| kErrorCodeXctNoXct
| kErrorCodeXctRaceAbort
| kErrorCodeTimeout.

#[global] Instance ErrorCode_eq_dec : EqDecision ErrorCode.
Proof. solve_decision. Defined.

(** ** Epoch *)

Module Epoch.

(** Modelled from the spec: [foedus/epoch.hpp] is not part of the sources at
    hand.  An epoch is a 32-bit unsigned integer, 0 is the invalid epoch and
    [a.before(b)] holds iff [(b - a) mod 2^32] lies strictly between 0 and
    2^31.  [operator<] is [before], [operator>] is [before] with the
    arguments swapped. *)
Definition kEpochInvalid : Z := 0.
Definition kEpochInitialDurable : Z := 1.
Definition kEpochIntHalf : Z := 2 ^ 31.
Definition kEpochIntOverflow : Z := 2 ^ 32.

Definition is_valid (e : Z) : bool := negb (e =? kEpochInvalid).

Definition before (a b : Z) : bool :=
  let d := (b - a) mod kEpochIntOverflow in
  (0 <? d) && (d <? kEpochIntHalf).

Definition lt (a b : Z) : bool := before a b.
Definition gt (a b : Z) : bool := before b a.

(** Modelled from the spec: [store_max] keeps the later of the receiver and
    the argument; an invalid receiver takes the argument. *)
Definition store_max (self other : Z) : Z :=
  if negb (is_valid self) || before self other then other else self.

End Epoch.

(** ** Transaction ids and owner words *)

(** Modelled from the spec: [foedus/xct/xct_id.hpp] is not part of the sources
    at hand.  The packed word {epoch: 32, ordinal: 24, status: 8} is kept as
    a record of its fields; the key lock is the separate [lock_] member of
    [LockableXctId], as the commit code uses it. *)
Record XctId : Set := mkXctId {
  epoch_ : Z;
  ordinal_ : Z;
  being_written_ : bool;
  deleted_ : bool;
  moved_ : bool
}.

#[global] Instance XctId_eq_dec : EqDecision XctId.
Proof. solve_decision. Defined.

Module XctIdOps.

Definition set (e o : Z) : XctId := mkXctId e o false false false.

Definition get_epoch (x : XctId) : Z := epoch_ x.
Definition get_ordinal (x : XctId) : Z := ordinal_ x.
Definition is_being_written (x : XctId) : bool := being_written_ x.
Definition is_deleted (x : XctId) : bool := deleted_ x.
Definition is_moved (x : XctId) : bool := moved_ x.

Definition set_being_written (x : XctId) : XctId :=
  mkXctId (epoch_ x) (ordinal_ x) true (deleted_ x) (moved_ x).
Definition set_deleted (x : XctId) : XctId :=
  mkXctId (epoch_ x) (ordinal_ x) (being_written_ x) true (moved_ x).
Definition clear_status_bits (x : XctId) : XctId :=
  mkXctId (epoch_ x) (ordinal_ x) false false false.

(** Lexicographic order on (epoch, ordinal). *)
Definition before (a b : XctId) : bool :=
  Epoch.before (epoch_ a) (epoch_ b)
  || ((epoch_ a =? epoch_ b) && (ordinal_ a <? ordinal_ b)).

Definition store_max (self other : XctId) : XctId :=
  if Epoch.is_valid (epoch_ other) && before self other then other else self.

End XctIdOps.

(** [McsLock] is reduced to the block index of its tail waiter; 0 means that
    nobody holds the lock. *)
Record LockableXctId : Set := mkLockableXctId {
  lock_ : Z;
  xct_id_ : XctId
}.

Definition is_keylocked (o : LockableXctId) : bool := negb (lock_ o =? 0).
Definition is_moved (o : LockableXctId) : bool := XctIdOps.is_moved (xct_id_ o).

(** ** Access sets *)

Record XctAccess : Set := mkXctAccess {
  r_storage_id_ : Z;
  r_owner_id_address_ : Z;
  observed_owner_id_ : XctId
}.

Record WriteXctAccess : Set := mkWriteXctAccess {
  storage_id_ : Z;
  owner_id_address_ : Z;
  payload_address_ : Z;
  log_entry_ : Z;
  mcs_block_ : Z
}.

Record LockFreeWriteXctAccess : Set := mkLockFreeWriteXctAccess {
  lf_storage_id_ : Z;
  lf_log_entry_ : Z
}.

Record PointerAccess : Set := mkPointerAccess {
  p_address_ : Z;
  p_observed_ : Z
}.

Record PageVersionAccess : Set := mkPageVersionAccess {
  v_address_ : Z;
  v_observed_ : Z
}.

#[global] Instance WriteXctAccess_eq_dec : EqDecision WriteXctAccess.
Proof. solve_decision. Defined.

Inductive IsolationLevel : Set :=
| kDirtyRead | kSnapshot | kReadCommitted | kSerializable.

(** ** The transaction context of a worker *)

Record Xct : Set := mkXct {
  active_ : bool;
  isolation_level_ : IsolationLevel;
  id_ : XctId;
  in_commit_log_epoch_ : Z;
  mcs_block_current_ : Z;
  read_set_ : list XctAccess;
  write_set_ : list WriteXctAccess;
  lock_free_write_set_ : list LockFreeWriteXctAccess;
  pointer_set_ : list PointerAccess;
  page_version_set_ : list PageVersionAccess
}.

Record ThreadLogBuffer : Set := mkThreadLogBuffer {
  offset_committed_ : Z;
  offset_tail_ : Z;
  last_published_epoch_ : Z
}.

(** The words reachable through the pointers of the access sets. *)
Record Memory : Type := mkMemory {
  owner_ids_ : Z -> LockableXctId;
  dual_pointers_ : Z -> Z;
  page_versions_ : Z -> Z;
  log_headers_ : Z -> XctId
}.

(** What the worker did to key locks and owner words, oldest first. *)
Inductive Event : Set :=
| EvAcquire (address block : Z)
| EvRelease (address block : Z)
| EvFinalize (address : Z) (id : XctId).

#[global] Instance Event_eq_dec : EqDecision Event.
Proof. solve_decision. Defined.

(** A worker ([thread::Thread]) with its transaction and log buffer, the
    engine-wide epochs, the memory, the number of signals sent to the
    epoch-advance thread and the history. *)
Record World : Type := mkWorld {
  current_xct_ : Xct;
  log_buffer_ : ThreadLogBuffer;
  memory_ : Memory;
  current_global_epoch_ : Z;
  durable_global_epoch_ : Z;
  epoch_advance_wakeup_ : nat;
  history_ : list Event
}.

Definition with_xct (x : Xct) (w : World) : World :=
  mkWorld x (log_buffer_ w) (memory_ w) (current_global_epoch_ w)
    (durable_global_epoch_ w) (epoch_advance_wakeup_ w) (history_ w).
Definition with_log_buffer (b : ThreadLogBuffer) (w : World) : World :=
  mkWorld (current_xct_ w) b (memory_ w) (current_global_epoch_ w)
    (durable_global_epoch_ w) (epoch_advance_wakeup_ w) (history_ w).
Definition with_memory (m : Memory) (w : World) : World :=
  mkWorld (current_xct_ w) (log_buffer_ w) m (current_global_epoch_ w)
    (durable_global_epoch_ w) (epoch_advance_wakeup_ w) (history_ w).
Definition with_history (h : list Event) (w : World) : World :=
  mkWorld (current_xct_ w) (log_buffer_ w) (memory_ w) (current_global_epoch_ w)
    (durable_global_epoch_ w) (epoch_advance_wakeup_ w) h.
Definition record_event (e : Event) (w : World) : World :=
  with_history (history_ w ++ [e]) w.

Definition with_write_set (ws : list WriteXctAccess) (x : Xct) : Xct :=
  mkXct (active_ x) (isolation_level_ x) (id_ x) (in_commit_log_epoch_ x)
    (mcs_block_current_ x) (read_set_ x) ws (lock_free_write_set_ x)
    (pointer_set_ x) (page_version_set_ x).
Definition with_read_set (rs : list XctAccess) (x : Xct) : Xct :=
  mkXct (active_ x) (isolation_level_ x) (id_ x) (in_commit_log_epoch_ x)
    (mcs_block_current_ x) rs (write_set_ x) (lock_free_write_set_ x)
    (pointer_set_ x) (page_version_set_ x).
Definition with_id (i : XctId) (x : Xct) : Xct :=
  mkXct (active_ x) (isolation_level_ x) i (in_commit_log_epoch_ x)
    (mcs_block_current_ x) (read_set_ x) (write_set_ x) (lock_free_write_set_ x)
    (pointer_set_ x) (page_version_set_ x).
Definition with_in_commit_log_epoch (e : Z) (x : Xct) : Xct :=
  mkXct (active_ x) (isolation_level_ x) (id_ x) e
    (mcs_block_current_ x) (read_set_ x) (write_set_ x) (lock_free_write_set_ x)
    (pointer_set_ x) (page_version_set_ x).
Definition with_mcs_block_current (b : Z) (x : Xct) : Xct :=
  mkXct (active_ x) (isolation_level_ x) (id_ x) (in_commit_log_epoch_ x)
    b (read_set_ x) (write_set_ x) (lock_free_write_set_ x)
    (pointer_set_ x) (page_version_set_ x).

Definition with_owner (a : Z) (o : LockableXctId) (m : Memory) : Memory :=
  mkMemory (<[a := o]> (owner_ids_ m)) (dual_pointers_ m) (page_versions_ m)
    (log_headers_ m).
Definition with_log_header (a : Z) (x : XctId) (m : Memory) : Memory :=
  mkMemory (owner_ids_ m) (dual_pointers_ m) (page_versions_ m)
    (<[a := x]> (log_headers_ m)).

(** ** [Xct] and [ThreadLogBuffer] members used by the manager *)

(** Modelled from the spec: [foedus/xct/xct.hpp] and
    [foedus/log/thread_log_buffer_impl.hpp] are not part of the sources at
    hand.  [activate] starts with empty access sets and a zero MCS block
    counter, [deactivate] only clears the flag, a transaction is read-only
    when it has nothing to write, [discard_current_xct_log] drops the
    uncommitted tail and [publish_committed_log] commits it. *)
Definition is_active (x : Xct) : bool := active_ x.

Definition activate (level : IsolationLevel) (x : Xct) : Xct :=
  mkXct true level (id_ x) (in_commit_log_epoch_ x) 0 [] [] [] [] [].

Definition deactivate (x : Xct) : Xct :=
  mkXct false (isolation_level_ x) (id_ x) (in_commit_log_epoch_ x)
    (mcs_block_current_ x) (read_set_ x) (write_set_ x) (lock_free_write_set_ x)
    (pointer_set_ x) (page_version_set_ x).

Definition is_read_only (x : Xct) : bool :=
  match write_set_ x, lock_free_write_set_ x with
  | [], [] => true
  | _, _ => false
  end.

Definition discard_current_xct_log (b : ThreadLogBuffer) : ThreadLogBuffer :=
  mkThreadLogBuffer (offset_committed_ b) (offset_committed_ b)
    (last_published_epoch_ b).

Definition publish_committed_log (e : Z) (b : ThreadLogBuffer) : ThreadLogBuffer :=
  mkThreadLogBuffer (offset_tail_ b) (offset_tail_ b) e.

(** ** Epoch queries and wait-for-commit *)

Definition get_current_global_epoch (w : World) : Z := current_global_epoch_ w.
Definition get_current_global_epoch_weak (w : World) : Z := current_global_epoch_ w.
Definition get_durable_global_epoch_weak (w : World) : Z := durable_global_epoch_ w.

Definition wakeup_epoch_advance_thread (w : World) : World :=
  mkWorld (current_xct_ w) (log_buffer_ w) (memory_ w) (current_global_epoch_ w)
    (durable_global_epoch_ w) (S (epoch_advance_wakeup_ w)) (history_ w).

Section WaitForCommit.

(** The log manager is an external collaborator. *)
Variable wait_until_durable : Z -> Z -> World -> ErrorCode * World.

(** The state in which [wait_for_commit] hands over to the log manager. *)
Definition wait_for_commit_signal (commit_epoch : Z) (w : World) : World :=
  if Epoch.lt commit_epoch (get_current_global_epoch w)
  then wakeup_epoch_advance_thread w
  else w.

Definition wait_for_commit (commit_epoch wait_microseconds : Z) (w : World)
  : ErrorCode * World :=
  wait_until_durable commit_epoch wait_microseconds
    (wait_for_commit_signal commit_epoch w).

End WaitForCommit.

(** [w1] is [w] after exactly one more signal to the epoch-advance thread. *)
Definition signalled (w w1 : World) : Prop :=
  epoch_advance_wakeup_ w1 = S (epoch_advance_wakeup_ w).

(** A log manager that only polls: durable already, or timeout. *)
Definition wait_until_durable_poll (commit_epoch wait_microseconds : Z) (w : World)
  : ErrorCode * World :=
  if Epoch.before (durable_global_epoch_ w) commit_epoch
  then (kErrorCodeTimeout, w)
  else (kErrorCodeOk, w).

(** ** begin_xct and abort_xct *)

Definition begin_xct (level : IsolationLevel) (w : World) : ErrorCode * World :=
  if is_active (current_xct_ w)
  then (kErrorCodeXctAlreadyRunning, w)
  else (kErrorCodeOk, with_xct (activate level (current_xct_ w)) w).

Definition abort_xct (w : World) : ErrorCode * World :=
  if negb (is_active (current_xct_ w))
  then (kErrorCodeXctNoXct, w)
  else
    let w1 := with_xct (deactivate (current_xct_ w)) w in
    (kErrorCodeOk, with_log_buffer (discard_current_xct_log (log_buffer_ w1)) w1).

(** ** The MCS key lock, as one worker sees it *)

(** Modelled from the spec: [foedus/thread/thread_pimpl.cpp] is not part of the
    sources at hand.  Block indexes are handed out per worker from a counter
    that [begin_xct] resets; index 0 is reserved for "no lock held".  Waiting
    for another holder is not visible to a single worker: the call returns
    with the lock held by the new block. *)
Definition mcs_acquire_lock (a : Z) (w : World) : Z * World :=
  let block := mcs_block_current_ (current_xct_ w) + 1 in
  let o := owner_ids_ (memory_ w) a in
  let w1 := with_xct (with_mcs_block_current block (current_xct_ w)) w in
  let w2 := with_memory (with_owner a (mkLockableXctId block (xct_id_ o)) (memory_ w1)) w1 in
  (block, record_event (EvAcquire a block) w2).

Definition mcs_release_lock (a block : Z) (w : World) : World :=
  let o := owner_ids_ (memory_ w) a in
  record_event (EvRelease a block)
    (with_memory (with_owner a (mkLockableXctId 0 (xct_id_ o)) (memory_ w)) w).

Definition set_mcs_block (b : Z) (e : WriteXctAccess) : WriteXctAccess :=
  mkWriteXctAccess (storage_id_ e) (owner_id_address_ e) (payload_address_ e)
    (log_entry_ e) b.

Definition relocate (a p : Z) (e : WriteXctAccess) : WriteXctAccess :=
  mkWriteXctAccess (storage_id_ e) a p (log_entry_ e) (mcs_block_ e).

Definition get_write_set (w : World) : list WriteXctAccess :=
  write_set_ (current_xct_ w).
Definition set_write_set (ws : list WriteXctAccess) (w : World) : World :=
  with_xct (with_write_set ws (current_xct_ w)) w.
Definition owner_at (w : World) (a : Z) : LockableXctId := owner_ids_ (memory_ w) a.
Definition store_owner_xct_id (a : Z) (x : XctId) (w : World) : World :=
  with_memory (with_owner a (mkLockableXctId (lock_ (owner_at w a)) x) (memory_ w)) w.

(** [write_set[i].owner_id_address_ == write_set[j].owner_id_address_] for an
    index [j] that may lie outside the array. *)
Definition same_address (e : WriteXctAccess) (o : option WriteXctAccess) : bool :=
  match o with
  | Some e' => owner_id_address_ e =? owner_id_address_ e'
  | None => false
  end.

(** ** precommit_xct_unlock *)

Fixpoint unlock_entries (ws : list WriteXctAccess) (w : World)
  : list WriteXctAccess * World :=
  match ws with
  | [] => ([], w)
  | e :: rest =>
      if negb (mcs_block_ e =? 0) then
        let w1 := mcs_release_lock (owner_id_address_ e) (mcs_block_ e) w in
        let '(rest', w2) := unlock_entries rest w1 in
        (set_mcs_block 0 e :: rest', w2)
      else
        let '(rest', w2) := unlock_entries rest w in
        (e :: rest', w2)
  end.

Definition precommit_xct_unlock (w : World) : World :=
  let '(ws, w1) := unlock_entries (get_write_set w) w in
  set_write_set ws w1.

(** ** Pointer-set and page-version-set verification *)

Definition precommit_xct_verify_pointer_set (w : World) : bool :=
  forallb
    (fun access => dual_pointers_ (memory_ w) (p_address_ access) =? p_observed_ access)
    (pointer_set_ (current_xct_ w)).

Definition precommit_xct_verify_page_version_set (w : World) : bool :=
  forallb
    (fun access => page_versions_ (memory_ w) (v_address_ access) =? v_observed_ access)
    (page_version_set_ (current_xct_ w)).

Section Commit.

(** Storage-specific collaborators reached through [StorageManager] and
    [log::invoke_apply_record].  Tracking a moved record for the write set
    yields the new owner and payload addresses, or fails; for the read set
    it yields the new owner address.  Applying a log entry is seen only
    through what it leaves in the owner's transaction id (a delete sets the
    deleted flag); payloads are outside the model. *)
Variable track_moved_record : Memory -> Z -> WriteXctAccess -> option (Z * Z).
Variable track_moved_record_read : Memory -> Z -> Z -> Z.
Variable invoke_apply_record : Memory -> WriteXctAccess -> XctId.

(** [std::sort(write_set, write_set + write_set_size, WriteXctAccess::compare)].
    Modelled from the spec: [WriteXctAccess::compare] is not part of the
    sources at hand; it orders by ascending owner-id address.  The order
    that [std::sort] gives to entries of equal address is left open: the
    properties assume a sorted permutation and nothing else. *)
Variable std_sort : list WriteXctAccess -> list WriteXctAccess.

(** *** Phase 1: precommit_xct_lock *)

(** The pre-pass over the write set.  A failed tracking leaves the loop at
    once; the entries before it have already been rewritten. *)
Fixpoint track_moved_pass (m : Memory) (ws : list WriteXctAccess)
  : bool * list WriteXctAccess :=
  match ws with
  | [] => (true, [])
  | e :: rest =>
      if is_moved (owner_ids_ m (owner_id_address_ e)) then
        match track_moved_record m (storage_id_ e) e with
        | None => (false, e :: rest)
        | Some (a, p) =>
            let '(ok, rest') := track_moved_pass m rest in
            (ok, relocate a p e :: rest')
        end
      else
        let '(ok, rest') := track_moved_pass m rest in
        (ok, e :: rest')
  end.

(** The locking loop, [todo] iterations starting at index [i].  The result
    is [needs_retry], the world and [max_xct_id]. *)
Fixpoint lock_loop (todo i : nat) (w : World) (max_xct_id : XctId)
  : bool * World * XctId :=
  match todo with
  | O => (false, w, max_xct_id)
  | S todo' =>
      match get_write_set w !! i with
      | None => (false, w, max_xct_id)
      | Some e =>
          if same_address e (get_write_set w !! S i) then
            lock_loop todo' (S i) w max_xct_id
          else
            let '(block, w1) := mcs_acquire_lock (owner_id_address_ e) w in
            let w2 := set_write_set (<[i := set_mcs_block block e]> (get_write_set w1)) w1 in
            if is_moved (owner_at w2 (owner_id_address_ e)) then
              (true, precommit_xct_unlock w2, max_xct_id)
            else
              lock_loop todo' (S i) w2
                (XctIdOps.store_max max_xct_id (xct_id_ (owner_at w2 (owner_id_address_ e))))
      end
  end.

(** [while (true)] is bounded by [fuel]; [None] means the bound was hit. *)
Fixpoint precommit_xct_lock (fuel : nat) (w : World) (max_xct_id : XctId)
  : option (bool * World * XctId) :=
  match fuel with
  | O => None
  | S fuel' =>
      let '(ok, tracked) := track_moved_pass (memory_ w) (get_write_set w) in
      if negb ok then Some (false, set_write_set tracked w, max_xct_id)
      else
        let w1 := set_write_set (std_sort tracked) w in
        let '(needs_retry, w2, max2) :=
          lock_loop (length (get_write_set w1)) 0 w1 max_xct_id in
        if negb needs_retry then Some (true, w2, max2)
        else precommit_xct_lock fuel' w2 max2
  end.

(** *** Phase 2: verification *)

Definition relocate_read (a : Z) (access : XctAccess) : XctAccess :=
  mkXctAccess (r_storage_id_ access) a (observed_owner_id_ access).

Definition track_read (m : Memory) (access : XctAccess) : XctAccess :=
  if is_moved (owner_ids_ m (r_owner_id_address_ access))
  then relocate_read
         (track_moved_record_read m (r_storage_id_ access) (r_owner_id_address_ access))
         access
  else access.

Definition read_unchanged (m : Memory) (access : XctAccess) : bool :=
  bool_decide (observed_owner_id_ access = xct_id_ (owner_ids_ m (r_owner_id_address_ access))).

(** The read-set loop of [precommit_xct_verify_readonly]: verdict, read set
    as left behind, and the highest epoch observed so far. *)
Fixpoint verify_read_set_readonly (m : Memory) (rs : list XctAccess) (commit_epoch : Z)
  : bool * list XctAccess * Z :=
  match rs with
  | [] => (true, [], commit_epoch)
  | access :: rest =>
      let access' := track_read m access in
      if negb (read_unchanged m access') then (false, access' :: rest, commit_epoch)
      else
        let '(ok, rest', ce) :=
          verify_read_set_readonly m rest
            (Epoch.store_max commit_epoch (XctIdOps.get_epoch (observed_owner_id_ access'))) in
        (ok, access' :: rest', ce)
  end.

Definition set_read_set (rs : list XctAccess) (w : World) : World :=
  with_xct (with_read_set rs (current_xct_ w)) w.

Definition precommit_xct_verify_readonly (w : World) (commit_epoch : Z)
  : bool * World * Z :=
  let '(ok, rs, ce) :=
    verify_read_set_readonly (memory_ w) (read_set_ (current_xct_ w)) commit_epoch in
  let w1 := set_read_set rs w in
  if negb ok then (false, w1, ce)
  else
    let ce1 := if negb (Epoch.is_valid ce) then get_durable_global_epoch_weak w1 else ce in
    if negb (precommit_xct_verify_pointer_set w1) then (false, w1, ce1)
    else if negb (precommit_xct_verify_page_version_set w1) then (false, w1, ce1)
    else (true, w1, ce1).

Fixpoint verify_read_set_readwrite (m : Memory) (rs : list XctAccess) (max_xct_id : XctId)
  : bool * list XctAccess * XctId :=
  match rs with
  | [] => (true, [], max_xct_id)
  | access :: rest =>
      let access' := track_read m access in
      if negb (read_unchanged m access') then (false, access' :: rest, max_xct_id)
      else
        let '(ok, rest', mx) :=
          verify_read_set_readwrite m rest
            (XctIdOps.store_max max_xct_id (observed_owner_id_ access')) in
        (ok, access' :: rest', mx)
  end.

Definition precommit_xct_verify_readwrite (w : World) (max_xct_id : XctId)
  : bool * World * XctId :=
  let '(ok, rs, mx) :=
    verify_read_set_readwrite (memory_ w) (read_set_ (current_xct_ w)) max_xct_id in
  let w1 := set_read_set rs w in
  if negb ok then (false, w1, mx)
  else if negb (precommit_xct_verify_pointer_set w1) then (false, w1, mx)
  else if negb (precommit_xct_verify_page_version_set w1) then (false, w1, mx)
  else (true, w1, mx).

(** *** Phase 3: precommit_xct_apply *)

(** The ordinal field of the packed word has 24 bits. *)
Definition kOrdinalBits : Z := 24.

(** Modelled from the spec: [Xct::issue_next_id] is not part of the sources
    at hand.  The new id has the commit epoch, the ordinal
    [max(max_xct_id.ordinal + 1, last_local_ordinal + 1)] and no status bit.
    The ordinal is stored in the 24-bit field of the packed word, which
    keeps the low 24 bits of a value that does not fit.  The epoch is
    handed over by pointer and read again by the caller; the spec names no
    case in which [issue_next_id] changes it, so the second component, the
    epoch found there afterwards, is the one that was passed. *)
Definition issue_next_id (max_xct_id : XctId) (epoch : Z) (x : Xct) : Xct * Z :=
  (with_id
     (XctIdOps.set epoch
        (Z.max (ordinal_ max_xct_id + 1) (ordinal_ (id_ x) + 1) mod 2 ^ kOrdinalBits))
     x,
   epoch).

Definition stamp_log (log_entry : Z) (x : XctId) (w : World) : World :=
  with_memory (with_log_header log_entry x (memory_ w)) w.

(** One iteration of the apply loop on the entry [write] at index [i]. *)
Definition apply_entry (i : nat) (write : WriteXctAccess)
    (new_xct_id new_deleted_xct_id : XctId) (w : World) : World :=
  let ws := get_write_set w in
  let a := owner_id_address_ write in
  let w1 := stamp_log (log_entry_ write) new_xct_id w in
  let w2 :=
    if same_address write (match i with O => None | S j => ws !! j end)
    then w1
    else store_owner_xct_id a (XctIdOps.set_being_written (xct_id_ (owner_at w1 a))) w1 in
  let w3 := store_owner_xct_id a (invoke_apply_record (memory_ w2) write) w2 in
  if same_address write (ws !! S i) then w3
  else
    let final :=
      if XctIdOps.is_deleted (xct_id_ (owner_at w3 a))
      then new_deleted_xct_id else new_xct_id in
    let w4 := record_event (EvFinalize a final) (store_owner_xct_id a final w3) in
    let w5 := mcs_release_lock a (mcs_block_ write) w4 in
    set_write_set (<[i := set_mcs_block 0 write]> (get_write_set w5)) w5.

Fixpoint apply_loop (todo i : nat) (new_xct_id new_deleted_xct_id : XctId) (w : World)
  : World :=
  match todo with
  | O => w
  | S todo' =>
      match get_write_set w !! i with
      | None => w
      | Some write =>
          apply_loop todo' (S i) new_xct_id new_deleted_xct_id
            (apply_entry i write new_xct_id new_deleted_xct_id w)
      end
  end.

Definition apply_lock_free (new_xct_id : XctId) (w : World) : World :=
  fold_left (fun acc write => stamp_log (lf_log_entry_ write) new_xct_id acc)
    (lock_free_write_set_ (current_xct_ w)) w.

(** The id that [precommit_xct_apply] stamps. *)
Definition new_xct_id_of (w : World) (max_xct_id : XctId) (commit_epoch : Z) : XctId :=
  XctIdOps.clear_status_bits
    (id_ (issue_next_id max_xct_id commit_epoch (current_xct_ w)).1).

(** The result is the world and the epoch found in [*commit_epoch] when the
    function returns. *)
Definition precommit_xct_apply (w : World) (max_xct_id : XctId) (commit_epoch : Z)
  : World * Z :=
  let issued := issue_next_id max_xct_id commit_epoch (current_xct_ w) in
  let w1 := with_xct issued.1 w in
  let commit_epoch := issued.2 in
  let new_xct_id := XctIdOps.clear_status_bits (id_ (current_xct_ w1)) in
  let new_deleted_xct_id := XctIdOps.set_deleted new_xct_id in
  let w2 := apply_loop (length (get_write_set w1)) 0 new_xct_id new_deleted_xct_id w1 in
  (apply_lock_free new_xct_id w2, commit_epoch).

(** *** precommit_xct *)

Definition precommit_xct_readonly (w : World) : bool * World * Z :=
  precommit_xct_verify_readonly w Epoch.kEpochInvalid.

(** Modelled from the spec: [Xct::InCommitLogEpochGuard] is not part of the
    sources at hand; it sets [in_commit_log_epoch_] when it is constructed
    and makes it invalid again when the function is left. *)
Definition set_in_commit_log_epoch (e : Z) (w : World) : World :=
  with_xct (with_in_commit_log_epoch e (current_xct_ w)) w.

(** [commit_epoch] is the value found in the caller's variable; it is left
    alone when Phase 1 fails. *)
Definition precommit_xct_readwrite (fuel : nat) (w : World) (commit_epoch : Z)
  : option (bool * World * Z) :=
  match precommit_xct_lock fuel w (XctIdOps.set Epoch.kEpochInitialDurable 1) with
  | None => None
  | Some (false, w1, _) => Some (false, w1, commit_epoch)
  | Some (true, w1, max1) =>
      let w2 := set_in_commit_log_epoch (get_current_global_epoch_weak w1) w1 in
      let ce := get_current_global_epoch_weak w2 in
      let '(verified, w3, max2) := precommit_xct_verify_readwrite w2 max1 in
      let '(w4, ce) :=
        if verified
        then
          let '(w', ce) := precommit_xct_apply w3 max2 ce in
          (with_log_buffer (publish_committed_log ce (log_buffer_ w')) w', ce)
        else (precommit_xct_unlock w3, ce) in
      Some (verified, set_in_commit_log_epoch Epoch.kEpochInvalid w4, ce)
  end.

Definition precommit_xct (fuel : nat) (w : World) (commit_epoch : Z)
  : option (ErrorCode * World * Z) :=
  if negb (is_active (current_xct_ w)) then Some (kErrorCodeXctNoXct, w, commit_epoch)
  else
    let r :=
      if is_read_only (current_xct_ w)
      then Some (precommit_xct_readonly w)
      else precommit_xct_readwrite fuel w commit_epoch in
    match r with
    | None => None
    | Some (success, w1, ce) =>
        let w2 := with_xct (deactivate (current_xct_ w1)) w1 in
        if success then Some (kErrorCodeOk, w2, ce)
        else
          Some (kErrorCodeXctRaceAbort,
                with_log_buffer (discard_current_xct_log (log_buffer_ w2)) w2, ce)
    end.

End Commit.

(** ** Concrete collaborators, used to run the model *)

(** Ascending owner-id address, the order of [WriteXctAccess::compare]. *)
Definition address_le (x y : WriteXctAccess) : Prop :=
  owner_id_address_ x <= owner_id_address_ y.

#[global] Instance address_le_dec : RelDecision address_le.
Proof. intros x y. unfold address_le. apply _. Defined.

Definition sort_by_address (ws : list WriteXctAccess) : list WriteXctAccess :=
  merge_sort address_le ws.

(** A storage whose moved records have gone too far away: tracking always
    fails. *)
Definition track_never (m : Memory) (storage_id : Z) (e : WriteXctAccess)
  : option (Z * Z) := None.
(** A storage that forwards a moved record to the next address. *)
Definition track_next (m : Memory) (storage_id : Z) (e : WriteXctAccess)
  : option (Z * Z) := Some (owner_id_address_ e + 1, payload_address_ e + 1).
Definition track_read_same (m : Memory) (storage_id a : Z) : Z := a.
(** Applying a log leaves the owner's id as it is. *)
Definition apply_keep (m : Memory) (e : WriteXctAccess) : XctId :=
  xct_id_ (owner_ids_ m (owner_id_address_ e)).
(** Applying a delete log sets the deleted flag of the owner's id. *)
Definition apply_delete (m : Memory) (e : WriteXctAccess) : XctId :=
  XctIdOps.set_deleted (xct_id_ (owner_ids_ m (owner_id_address_ e))).

(** ** The partitioner registry of the log gleaner *)

Module Gleaner.

(** [partitioners_] maps a storage id to the address of its partitioner.
    [allocated_] and [next_] stand for the free store: [new] hands out the
    address [next_], which is never null, and [delete] retires one. *)
Record LogGleaner : Type := mkLogGleaner {
  partitioners_ : gmap Z Z;
  allocated_ : gset Z;
  next_ : Z
}.

(** Where a call of [get_or_create_partitioner(storage_id)] stands.  The
    two critical sections under [partitioners_mutex_] are atomic; the
    creation between them is not protected. *)
Inductive Call : Set :=
| AtFirstLookup (storage_id : Z)
| AtCreate (storage_id : Z)
| AtSecondLookup (storage_id partitioner : Z)
| Returned (storage_id partitioner : Z).

#[global] Instance Call_eq_dec : EqDecision Call.
Proof. solve_decision. Defined.

(** Modelled from the spec: [storage::Partitioner::create_partitioner] is
    not part of the sources at hand; its result is the caller's speculative
    partitioner, a newly allocated object, which [new] never places at the
    null address or at the address of an object that is still allocated. *)
Definition create_partitioner (g : LogGleaner) : Z * LogGleaner :=
  (next_ g,
   mkLogGleaner (partitioners_ g) ({[ next_ g ]} ∪ allocated_ g) (next_ g + 1)).

Definition delete_partitioner (p : Z) (g : LogGleaner) : LogGleaner :=
  mkLogGleaner (partitioners_ g) (allocated_ g ∖ {[ p ]}) (next_ g).

Definition insert_partitioner (storage_id p : Z) (g : LogGleaner) : LogGleaner :=
  mkLogGleaner (<[storage_id := p]> (partitioners_ g)) (allocated_ g) (next_ g).

(** One atomic step of one call. *)
Definition step_call (c : Call) (g : LogGleaner) : Call * LogGleaner :=
  match c with
  | AtFirstLookup storage_id =>
      match partitioners_ g !! storage_id with
      | Some p => (Returned storage_id p, g)
      | None => (AtCreate storage_id, g)
      end
  | AtCreate storage_id =>
      let '(p, g1) := create_partitioner g in
      (AtSecondLookup storage_id p, g1)
  | AtSecondLookup storage_id p =>
      match partitioners_ g !! storage_id with
      | Some q => (Returned storage_id q, delete_partitioner p g)
      | None => (Returned storage_id p, insert_partitioner storage_id p g)
      end
  | Returned storage_id p => (Returned storage_id p, g)
  end.

(** The function as one thread runs it without interference. *)
Definition get_or_create_partitioner (storage_id : Z) (g : LogGleaner)
  : Z * LogGleaner :=
  match partitioners_ g !! storage_id with
  | Some p => (p, g)
  | None =>
      let '(p, g1) := create_partitioner g in
      match partitioners_ g1 !! storage_id with
      | Some q => (q, delete_partitioner p g1)
      | None => (p, insert_partitioner storage_id p g1)
      end
  end.

Definition is_returned (c : Call) : bool :=
  match c with Returned _ _ => true | _ => false end.

(** Any pending call may take the next step: all interleavings of the
    concurrent callers. *)
Inductive step : list Call * LogGleaner -> list Call * LogGleaner -> Prop :=
| step_at (calls : list Call) (g : LogGleaner) (i : nat) (c : Call) :
    calls !! i = Some c ->
    is_returned c = false ->
    step (calls, g) (<[i := fst (step_call c g)]> calls, snd (step_call c g)).

Definition fresh (g : LogGleaner) : Prop :=
  partitioners_ g = ∅ /\ 0 < next_ g /\ forall p, p ∈ allocated_ g -> 0 < p < next_ g.

Definition all_starting (calls : list Call) : Prop :=
  Forall (fun c => exists storage_id, c = AtFirstLookup storage_id) calls.

(** What holds in every state the callers can reach. *)
Record registry_inv (calls : list Call) (g : LogGleaner) : Prop := mkRegistryInv {
  inv_next : 0 < next_ g;
  inv_allocated : forall p, p ∈ allocated_ g -> 0 < p < next_ g;
  inv_registered :
    forall storage_id p, partitioners_ g !! storage_id = Some p -> p ∈ allocated_ g;
  inv_returned :
    forall i storage_id p,
      calls !! i = Some (Returned storage_id p) ->
      partitioners_ g !! storage_id = Some p;
  inv_speculative :
    forall i storage_id p,
      calls !! i = Some (AtSecondLookup storage_id p) ->
      p ∈ allocated_ g /\ forall s, partitioners_ g !! s <> Some p;
  inv_distinct :
    forall i j s1 s2 p,
      calls !! i = Some (AtSecondLookup s1 p) ->
      calls !! j = Some (AtSecondLookup s2 p) ->
      i = j
}.

(** The state after the calls have taken their steps in the order given
    by [schedule], a list of caller indexes. *)
Fixpoint run_schedule (schedule : list nat) (st : list Call * LogGleaner)
  : list Call * LogGleaner :=
  match schedule with
  | [] => st
  | i :: rest =>
      match st.1 !! i with
      | Some c =>
          if is_returned c then run_schedule rest st
          else run_schedule rest
                 (<[i := (step_call c st.2).1]> st.1, (step_call c st.2).2)
      | None => run_schedule rest st
      end
  end.

Definition gleaner0 : LogGleaner := mkLogGleaner ∅ ∅ 1.

End Gleaner.

(** ** HashMetadata::set_capacity *)

Module HashMetadata.

(** [for (bits = 0; bits < 64 && ((1ULL << bits) < bin_count); ++bits)] *)
Fixpoint count_bits (todo : nat) (bits bin_count : Z) : Z :=
  match todo with
  | O => bits
  | S todo' =>
      if (bits <? 64) && (Z.shiftl 1 bits <? bin_count)
      then count_bits todo' (bits + 1) bin_count
      else bits
  end.

(** The value stored in [bin_bits_] for a given [bin_count]. *)
Definition bin_bits_of (bin_count : Z) : Z :=
  let bits := count_bits 65 0 bin_count in
  if bits <? 8 then 8 else bits.

(** [double] is IEEE 754 binary64, evaluated without excess precision and
    rounded to nearest, ties to even, as on the x86-64 and AArch64 targets
    of FOEDUS. *)
Definition double_prec : Z := 53.
Definition double_emax : Z := 1024.

(** Conversion of an integer operand to [double]. *)
Definition double_of_integer (n : Z) : spec_float :=
  binary_normalize double_prec double_emax n 0 false.

(** The literal [1], as a [double], and the literal [0.1], the [double]
    nearest to one tenth. *)
Definition double_one : spec_float := S754_finite false 4503599627370496 (-52).
Definition double_tenth : spec_float := S754_finite false 7205759403792794 (-56).

Definition double_div : spec_float -> spec_float -> spec_float :=
  SFdiv double_prec double_emax.

(** Conversion of a [double] to [uint64_t]: the fractional part is dropped.
    [None] stands for the undefined behaviour of C++ when the truncated
    value is not a [uint64_t], which includes the infinities and NaN. *)
Definition uint64_of_double (x : spec_float) : option Z :=
  match x with
  | S754_zero _ => Some 0
  | S754_finite s m e =>
      let truncated := Z.shiftl (Z.pos m) e in
      if s then (if truncated =? 0 then Some 0 else None)
      else if truncated <? 2 ^ 64 then Some truncated else None
  | _ => None
  end.

Section SetCapacity.

(** [kMaxEntriesPerBin] is declared in [foedus/storage/hash/hash_id.hpp],
    which is not part of the sources at hand: an integer constant. *)
Variable kMaxEntriesPerBin : Z.

(** The result is the new value of [bin_bits_]. *)
Definition set_capacity (expected_records : Z) (preferred_fillfactor : spec_float)
  : option Z :=
  let expected_records := if expected_records =? 0 then 1 else expected_records in
  let preferred_fillfactor :=
    if SFleb double_one preferred_fillfactor then double_one else preferred_fillfactor in
  let preferred_fillfactor :=
    if SFltb preferred_fillfactor double_tenth then double_tenth
    else preferred_fillfactor in
  match uint64_of_double
          (double_div
             (double_div (double_of_integer expected_records) preferred_fillfactor)
             (double_of_integer kMaxEntriesPerBin)) with
  | Some bin_count => Some (bin_bits_of bin_count)
  | None => None
  end.

End SetCapacity.

(** One half, a fill factor within the accepted range. *)
Definition double_half : spec_float := S754_finite false 4503599627370496 (-53).

End HashMetadata.

(** ** Sample worlds, used to run the model on concrete inputs *)

Definition no_id : XctId := XctIdOps.set 0 0.

(** Every owner word is unlocked and was last written by (epoch 2, ordinal 1). *)
Definition memory0 : Memory :=
  mkMemory (fun _ => mkLockableXctId 0 (XctIdOps.set 2 1)) (fun _ => 0) (fun _ => 0)
    (fun _ => no_id).

(** The record at address 10 has moved. *)
Definition memory_moved : Memory :=
  mkMemory
    (fun a => if a =? 10 then mkLockableXctId 0 (mkXctId 2 1 false false true)
              else mkLockableXctId 0 (XctIdOps.set 2 1))
    (fun _ => 0) (fun _ => 0) (fun _ => no_id).

(** The record at address 5 was never written (invalid epoch), the one at 6
    was written in epoch 3 and the one at 7 in epoch 2. *)
Definition memory_epochs : Memory :=
  mkMemory
    (fun a => if a =? 5 then mkLockableXctId 0 no_id
              else if a =? 6 then mkLockableXctId 0 (XctIdOps.set 3 1)
              else mkLockableXctId 0 (XctIdOps.set 2 7))
    (fun _ => 0) (fun _ => 0) (fun _ => no_id).

Definition xct_idle : Xct :=
  mkXct false kSerializable no_id 0 0 [] [] [] [] [].

Definition xct_with (rs : list XctAccess) (ws : list WriteXctAccess)
    (ps : list PointerAccess) : Xct :=
  mkXct true kSerializable (XctIdOps.set 2 4) 0 0 rs ws [] ps [].

(** Committed offset 64 and [pending] bytes of uncommitted log. *)
Definition world_of (x : Xct) (m : Memory) (current durable pending : Z) : World :=
  mkWorld x (mkThreadLogBuffer 64 (64 + pending) 0) m current durable 0%nat [].

(** Current global epoch 3, durable epoch 1, no transaction running. *)
Definition world_idle : World := world_of xct_idle memory0 3 1 0.
(** The same with current global epoch 5. *)
Definition world_idle5 : World := world_of xct_idle memory0 5 1 0.

Definition write_to (a log_entry : Z) : WriteXctAccess :=
  mkWriteXctAccess 1 a (a + 100) log_entry 0.

(** A read-write transaction that wrote the records at 20 and 10 twice each
    and the record at 30 once. *)
Definition world_dup : World :=
  world_of
    (xct_with [] [write_to 20 1000; write_to 10 1001; write_to 20 1002;
                  write_to 30 1003; write_to 10 1004] [])
    memory0 3 1 16.

(** A read-write transaction whose only written record has moved. *)
Definition world_moved : World :=
  world_of (xct_with [] [write_to 10 1000] []) memory_moved 3 1 16.

(** The records at 10 and 11 have both moved. *)
Definition memory_moved_twice : Memory :=
  mkMemory
    (fun a => if (a =? 10) || (a =? 11)
              then mkLockableXctId 0 (mkXctId 2 1 false false true)
              else mkLockableXctId 0 (XctIdOps.set 2 1))
    (fun _ => 0) (fun _ => 0) (fun _ => no_id).

(** A read-write transaction whose only written record has moved twice. *)
Definition world_moved_twice : World :=
  world_of (xct_with [] [write_to 10 1000] []) memory_moved_twice 3 1 16.

(** A read-write transaction that read the record at 6 under an id that is
    not the current one. *)
Definition world_stale : World :=
  world_of
    (xct_with [mkXctAccess 1 6 (XctIdOps.set 2 1)] [write_to 20 1000; write_to 20 1001] [])
    memory_epochs 3 1 16.

(** A read-only transaction without reads that followed the pointer at 7
    when its word was 1; the word is 0 now. *)
Definition world_ro_pointer : World :=
  world_of (xct_with [] [] [mkPointerAccess 7 1]) memory0 3 1 0.

(** A read-only transaction that read the never-written record at 5. *)
Definition world_ro_unwritten : World :=
  world_of (xct_with [mkXctAccess 1 5 no_id] [] []) memory_epochs 3 1 0.

(** A read-only transaction that read the records at 6 and 7. *)
Definition world_ro_reads : World :=
  world_of
    (xct_with [mkXctAccess 1 7 (XctIdOps.set 2 7); mkXctAccess 1 6 (XctIdOps.set 3 1)] [] [])
    memory_epochs 4 1 0.

(** The record at 6 was written in the last epoch before the 32-bit epoch
    counter wrapped around, the others in epoch 2, after the wrap. *)
Definition memory_wrapped : Memory :=
  mkMemory
    (fun a => if a =? 6 then mkLockableXctId 0 (XctIdOps.set 4294967295 1)
              else mkLockableXctId 0 (XctIdOps.set 2 7))
    (fun _ => 0) (fun _ => 0) (fun _ => no_id).

(** A read-only transaction that read the records at 6 and 7 around the
    wrap. *)
Definition world_ro_wrapped : World :=
  world_of
    (xct_with [mkXctAccess 1 6 (XctIdOps.set 4294967295 1); mkXctAccess 1 7 (XctIdOps.set 2 7)]
       [] [])
    memory_wrapped 3 1 0.

(** A read-only transaction without any access. *)
Definition world_ro_empty : World := world_of (xct_with [] [] []) memory0 3 1 0.

Definition max_xct_id0 : XctId := XctIdOps.set Epoch.kEpochInitialDurable 1.

(** The outcome of a run, or the world it started from when the bound on
    the retry loop was hit. *)
Definition world_after {A B : Type} (r : option (A * World * B)) (w : World) : World :=
  match r with
  | Some (_, w', _) => w'
  | None => w
  end.

Definition code_and_epoch (r : option (ErrorCode * World * Z)) : option (ErrorCode * Z) :=
  match r with
  | Some (code, _, commit_epoch) => Some (code, commit_epoch)
  | None => None
  end.

(** ** Vocabulary for the statements about the write set *)

Definition locked (e : WriteXctAccess) : bool := negb (mcs_block_ e =? 0).

(** The entry with its [mcs_block_] forgotten. *)
Definition erase_block (e : WriteXctAccess) : WriteXctAccess := set_mcs_block 0 e.

(** The entries that are not followed by an entry of the same address: the
    last entry of every run of equal addresses. *)
Fixpoint run_ends (ws : list WriteXctAccess) : list WriteXctAccess :=
  match ws with
  | [] => []
  | e :: rest =>
      if same_address e (head rest) then run_ends rest else e :: run_ends rest
  end.

(** Exactly the last entry of every run carries a lock. *)
Fixpoint locked_at_run_ends (ws : list WriteXctAccess) : Prop :=
  match ws with
  | [] => True
  | e :: rest =>
      (mcs_block_ e <> 0 <-> same_address e (head rest) = false)
      /\ locked_at_run_ends rest
  end.

(** No later entry of [ws] has the address of the entry at [i]. *)
Definition last_occurrence (ws : list WriteXctAccess) (i : nat) : Prop :=
  exists e, ws !! i = Some e
    /\ forall j e', (i < j)%nat -> ws !! j = Some e' ->
         owner_id_address_ e' <> owner_id_address_ e.

Definition acquire_event (e : WriteXctAccess) : Event :=
  EvAcquire (owner_id_address_ e) (mcs_block_ e).

Definition forget_id (ev : Event) : Event :=
  match ev with
  | EvFinalize a _ => EvFinalize a no_id
  | _ => ev
  end.

(** What Phase 3 does at the last entry of a run, up to the id stored. *)
Definition finalize_release (e : WriteXctAccess) : list Event :=
  [EvFinalize (owner_id_address_ e) no_id;
   EvRelease (owner_id_address_ e) (mcs_block_ e)].

Definition all_unlocked (ws : list WriteXctAccess) : Prop :=
  Forall (fun e => mcs_block_ e = 0) ws.

(** An owner-word store of Phase 3 writes one of the two new ids. *)
Definition finalizes_with (nid ndel : XctId) (ev : Event) : Prop :=
  match ev with
  | EvFinalize _ id => id = nid \/ id = ndel
  | _ => True
  end.

(** The write set is in ascending order of owner-id address. *)
Definition sorted_by_address (ws : list WriteXctAccess) : Prop :=
  StronglySorted Z.le (owner_id_address_ <$> ws).

(** The numerically largest epoch among the observed owner ids of a read
    set; 0, the invalid epoch, for an empty one. *)
Definition max_observed_epoch (rs : list XctAccess) : Z :=
  foldr (fun access acc => Z.max (epoch_ (observed_owner_id_ access)) acc) 0 rs.

(** The observed epochs are 32-bit values that have not wrapped around. *)
Definition epochs_unwrapped (rs : list XctAccess) : Prop :=
  Forall (fun access => 0 <= epoch_ (observed_owner_id_ access) < Epoch.kEpochIntHalf) rs.

(** No owner word of the write set carries the moved bit. *)
Definition none_moved (w : World) : Prop :=
  forall a, a ∈ owner_id_address_ <$> get_write_set w -> is_moved (owner_at w a) = false.

(** How far the epoch [e] lies after [base], going around the 32-bit range. *)
Definition epoch_offset (base e : Z) : Z := (e - base) mod Epoch.kEpochIntOverflow.

(** The observed epochs are valid and lie within half of the epoch range,
    counted from [base]: the range over which the cyclic order is an order. *)
Definition epochs_in_window (base : Z) (rs : list XctAccess) : Prop :=
  Forall
    (fun access =>
       0 < epoch_ (observed_owner_id_ access) < Epoch.kEpochIntOverflow
       /\ epoch_offset base (epoch_ (observed_owner_id_ access)) < Epoch.kEpochIntHalf)
    rs.

(** [e] is an observed epoch of [rs], and every other one is before it. *)
Definition latest_observed_epoch (rs : list XctAccess) (e : Z) : Prop :=
  (exists access, access ∈ rs /\ epoch_ (observed_owner_id_ access) = e)
  /\ forall access, access ∈ rs ->
       epoch_ (observed_owner_id_ access) = e
       \/ Epoch.before (epoch_ (observed_owner_id_ access)) e = true.

(** How often the history acquired the lock at [a] with block [b], minus how
    often it released it. *)
Fixpoint lock_balance (a b : Z) (h : list Event) : Z :=
  match h with
  | [] => 0
  | EvAcquire a' b' :: rest =>
      (if (a =? a') && (b =? b') then 1 else 0) + lock_balance a b rest
  | EvRelease a' b' :: rest =>
      (if (a =? a') && (b =? b') then -1 else 0) + lock_balance a b rest
  | EvFinalize _ _ :: rest => lock_balance a b rest
  end.

(** The entry holds the lock at [a] through block [b]. *)
Definition holds (a b : Z) (e : WriteXctAccess) : bool :=
  locked e && (a =? owner_id_address_ e) && (b =? mcs_block_ e).

(** How many entries of the write set hold the lock at [a] through [b]. *)
Definition held_by (a b : Z) (ws : list WriteXctAccess) : Z :=
  Z.of_nat (length (List.filter (holds a b) ws)).

(** ** Vocabulary for the statements about the memory *)

(** The event is a call to the MCS lock interface, not a store to a record. *)
Definition is_lock_event (ev : Event) : bool :=
  match ev with
  | EvFinalize _ _ => false
  | _ => true
  end.

Definition release_event (e : WriteXctAccess) : Event :=
  EvRelease (owner_id_address_ e) (mcs_block_ e).

(** [m'] holds the records of [m]: at most key-lock words differ. *)
Definition same_records (m m' : Memory) : Prop :=
  (forall a, xct_id_ (owner_ids_ m' a) = xct_id_ (owner_ids_ m a))
  /\ (forall l, log_headers_ m' l = log_headers_ m l)
  /\ (forall p, dual_pointers_ m' p = dual_pointers_ m p)
  /\ (forall p, page_versions_ m' p = page_versions_ m p).

(** [w'] is [w] up to the transaction context, key-lock words and calls to
    the lock interface. *)
Definition only_locks (w w' : World) : Prop :=
  same_records (memory_ w) (memory_ w')
  /\ log_buffer_ w' = log_buffer_ w
  /\ current_global_epoch_ w' = current_global_epoch_ w
  /\ durable_global_epoch_ w' = durable_global_epoch_ w
  /\ epoch_advance_wakeup_ w' = epoch_advance_wakeup_ w
  /\ exists evs, history_ w' = history_ w ++ evs
       /\ Forall (fun ev => is_lock_event ev = true) evs.

(** The record at [a] is key-locked and has not moved.  Every record of
    the write set is key-locked and has not moved: what
    [precommit_xct_lock] and [precommit_xct_readwrite] assert in debug
    builds before they go on. *)
Definition pinned (w : World) (a : Z) : Prop :=
  is_keylocked (owner_at w a) = true /\ is_moved (owner_at w a) = false.

Definition write_set_pinned (w : World) : Prop :=
  forall e, e ∈ get_write_set w -> pinned w (owner_id_address_ e).

(** The entry is a moved record that the storage cannot track. *)
Definition untrackable
    (track_moved_record : Memory -> Z -> WriteXctAccess -> option (Z * Z))
    (m : Memory) (e : WriteXctAccess) : Prop :=
  is_moved (owner_ids_ m (owner_id_address_ e)) = true
  /\ track_moved_record m (storage_id_ e) e = None.

(** The read access as verification looks at it: at the address to which
    its record has moved, if it has. *)
Definition read_is_current
    (track_moved_record_read : Memory -> Z -> Z -> Z)
    (m : Memory) (access : XctAccess) : Prop :=
  observed_owner_id_ access
  = xct_id_ (owner_ids_ m
      (r_owner_id_address_ (track_read track_moved_record_read m access))).

Definition pointer_is_current (m : Memory) (access : PointerAccess) : Prop :=
  dual_pointers_ m (p_address_ access) = p_observed_ access.

Definition page_version_is_current (m : Memory) (access : PageVersionAccess) : Prop :=
  page_versions_ m (v_address_ access) = v_observed_ access.

(** Nothing that the transaction has observed has changed. *)
Definition nothing_changed
    (track_moved_record_read : Memory -> Z -> Z -> Z) (w : World) : Prop :=
  Forall (read_is_current track_moved_record_read (memory_ w)) (read_set_ (current_xct_ w))
  /\ Forall (pointer_is_current (memory_ w)) (pointer_set_ (current_xct_ w))
  /\ Forall (page_version_is_current (memory_ w)) (page_version_set_ (current_xct_ w)).

(** The owner word as Phase 3 leaves it: free, and stamped with one of the
    two new ids. *)
Definition finalized (nid ndel : XctId) (o : LockableXctId) : Prop :=
  lock_ o = 0 /\ (xct_id_ o = nid \/ xct_id_ o = ndel).

(** [w'] has the dual pointers, page versions and epochs of [w]. *)
Definition same_pages_and_epochs (w w' : World) : Prop :=
  (forall p, dual_pointers_ (memory_ w') p = dual_pointers_ (memory_ w) p)
  /\ (forall p, page_versions_ (memory_ w') p = page_versions_ (memory_ w) p)
  /\ current_global_epoch_ w' = current_global_epoch_ w
  /\ durable_global_epoch_ w' = durable_global_epoch_ w
  /\ epoch_advance_wakeup_ w' = epoch_advance_wakeup_ w.

(** ** Vocabulary for the order of lock acquisitions *)

(** The addresses whose key locks the worker holds after the events [h],
    when it held those of [held] before. *)
Fixpoint held_after (held : list Z) (h : list Event) : list Z :=
  match h with
  | [] => held
  | EvAcquire a _ :: rest => held_after (a :: held) rest
  | EvRelease a _ :: rest =>
      held_after (List.filter (fun a' => negb (a' =? a)) held) rest
  | EvFinalize _ _ :: rest => held_after held rest
  end.

(** Every acquisition of [h] is at an address above the address of every
    lock that the worker holds at that time. *)
Fixpoint ascending_acquisitions (held : list Z) (h : list Event) : Prop :=
  match h with
  | [] => True
  | EvAcquire a _ :: rest =>
      Forall (fun a' => a' < a) held /\ ascending_acquisitions (a :: held) rest
  | EvRelease a _ :: rest =>
      ascending_acquisitions (List.filter (fun a' => negb (a' =? a)) held) rest
  | EvFinalize _ _ :: rest => ascending_acquisitions held rest
  end.

(** ** The mappers and reducers of the log gleaner *)

Module GleanerInit.

(** Modelled from the spec: [foedus/snapshot/log_mapper_impl.hpp] and
    [foedus/snapshot/log_reducer_impl.hpp] are not part of the sources at
    hand.  A mapper is what its constructor is given, the logger it reads
    and the NUMA node it runs on; a reducer is its NUMA node. *)
Record LogMapper : Set := mkLogMapper {
  logger_id_ : Z;
  mapper_numa_node_ : Z
}.

Record LogReducer : Set := mkLogReducer {
  reducer_numa_node_ : Z
}.

Record LogGleaner : Set := mkLogGleaner {
  mappers_ : list LogMapper;
  reducers_ : list LogReducer
}.

Section InitializeOnce.

(** [options.thread_.group_count_] as the [thread::ThreadGroupId] that
    [initialize_once] makes of it, [options.log_.loggers_per_node_], and
    the conversion of the [int] [loggers_per_node_ * node + ordinal] to
    [log::LoggerId]: the two types are declared in headers that are not
    part of the sources at hand. *)
Variable numa_nodes : Z.
Variable loggers_per_node : Z.
Variable to_logger_id : Z -> Z.

(** [for (uint16_t ordinal = 0; ordinal < loggers_per_node_; ++ordinal)],
    from the value [ordinal] on; the counter wraps at 2^16.  [None] means
    that the bound [fuel] on the number of iterations was hit. *)
Fixpoint mapper_loop (fuel : nat) (node ordinal : Z) (g : LogGleaner)
  : option LogGleaner :=
  match fuel with
  | O => None
  | S fuel' =>
      if ordinal <? loggers_per_node then
        let logger_id := to_logger_id (loggers_per_node * node + ordinal) in
        mapper_loop fuel' node ((ordinal + 1) mod 2 ^ 16)
          (mkLogGleaner (mappers_ g ++ [mkLogMapper logger_id node]) (reducers_ g))
      else Some g
  end.

(** [for (thread::ThreadGroupId node = 0; node < numa_nodes; ++node)], from
    the value [node] on.  [node] stays below [numa_nodes], a value of its
    own type, so that [++node] does not wrap. *)
Fixpoint node_loop (fuel : nat) (node : Z) (g : LogGleaner) : option LogGleaner :=
  match fuel with
  | O => None
  | S fuel' =>
      if node <? numa_nodes then
        match mapper_loop (S fuel') node 0 g with
        | None => None
        | Some g1 =>
            node_loop fuel' (node + 1)
              (mkLogGleaner (mappers_ g1) (reducers_ g1 ++ [mkLogReducer node]))
        end
      else Some g
  end.

(** The loops of [LogGleaner::initialize_once]; the counters and the
    non-record log buffer that it resets are outside this model. *)
Definition initialize_once (fuel : nat) (g : LogGleaner) : option LogGleaner :=
  node_loop fuel 0 g.

End InitializeOnce.

(** The mapper at index [k] reads logger [k] and runs on node
    [k / loggers_per_node]. *)
Definition indexed_by_logger (loggers_per_node : Z) (to_logger_id : Z -> Z)
    (mappers : list LogMapper) : Prop :=
  forall (k : nat) (m : LogMapper),
    mappers !! k = Some m ->
    logger_id_ m = to_logger_id (Z.of_nat k)
    /\ mapper_numa_node_ m = Z.of_nat k / loggers_per_node.

(** The reducer at index [n] runs on node [n]. *)
Definition indexed_by_node (reducers : list LogReducer) : Prop :=
  forall (n : nat) (r : LogReducer),
    reducers !! n = Some r -> reducer_numa_node_ r = Z.of_nat n.

End GleanerInit.

(** ** The partitioner registry at the end of a gleaner run *)

Module GleanerRegistry.

Import Gleaner.

(** The registered partitioners, as the loop of [uninitialize_once] meets
    them.  The order in which a [std::map] is walked is not modelled: the
    deletions commute. *)
Definition registered (g : LogGleaner) : list Z := (map_to_list (partitioners_ g)).*2.

(** The part of [LogGleaner::uninitialize_once] that works on
    [partitioners_]: every registered partitioner is deleted, then the map
    is cleared. *)
Definition uninitialize_once (g : LogGleaner) : LogGleaner :=
  let g1 := foldr delete_partitioner g (registered g) in
  mkLogGleaner ∅ (allocated_ g1) (next_ g1).

(** The argument of the call. *)
Definition call_storage_id (c : Call) : Z :=
  match c with
  | AtFirstLookup storage_id => storage_id
  | AtCreate storage_id => storage_id
  | AtSecondLookup storage_id _ => storage_id
  | Returned storage_id _ => storage_id
  end.

(** Every call has returned. *)
Definition quiescent (calls : list Call) : Prop :=
  Forall (fun c => is_returned c = true) calls.

(** Where the allocated partitioners are, in every state that the callers
    [calls0] can reach from the gleaner [g0]. *)
Record accounted (g0 : LogGleaner) (calls0 calls : list Call) (g : LogGleaner)
  : Prop := mkAccounted {
  acc_next : next_ g0 <= next_ g;
  acc_old : forall p, p ∈ allocated_ g0 -> p < next_ g0;
  acc_initial : forall p, p ∈ allocated_ g0 -> p ∈ allocated_ g;
  acc_registered :
    forall storage_id p, partitioners_ g !! storage_id = Some p -> next_ g0 <= p;
  acc_speculative :
    forall i storage_id p,
      calls !! i = Some (AtSecondLookup storage_id p) -> next_ g0 <= p;
  acc_injective :
    forall s1 s2 p,
      partitioners_ g !! s1 = Some p -> partitioners_ g !! s2 = Some p -> s1 = s2;
  acc_allocated :
    forall p, p ∈ allocated_ g ->
      p ∈ allocated_ g0
      \/ (exists storage_id, partitioners_ g !! storage_id = Some p)
      \/ (exists i storage_id, calls !! i = Some (AtSecondLookup storage_id p));
  acc_requested :
    forall storage_id p,
      partitioners_ g !! storage_id = Some p ->
      storage_id ∈ call_storage_id <$> calls;
  acc_storage_ids : call_storage_id <$> calls = call_storage_id <$> calls0
}.

End GleanerRegistry.

(** ** The non-record log buffer of the log gleaner *)

Module NonrecordLog.

(** Modelled from the spec: [foedus/log/common_log_types.hpp] is not part of
    the sources at hand.  A log record is seen through what
    [add_nonrecord_log] reads of it: its kind, its length field and the
    bytes that it occupies in memory, header included. *)
Record LogHeader : Set := mkLogHeader {
  kind_ : Z;
  log_length_ : Z;
  image_ : list Z
}.

(** The record occupies [log_length_] bytes. *)
Definition well_formed (header : LogHeader) : Prop :=
  Z.of_nat (length (image_ header)) = log_length_ header.

Record LogGleaner : Set := mkLogGleaner {
  nonrecord_log_buffer_ : list Z;
  nonrecord_log_buffer_pos_ : Z
}.

Section AddNonrecordLog.

(** The enumerators [log::kEngineLogs] and [log::kStorageLogs], declared
    in a header that is not part of the sources at hand. *)
Variable kEngineLogs : Z.
Variable kStorageLogs : Z.

(** [header->get_kind() != log::kEngineLogs || header->get_kind() != log::kStorageLogs] *)
Definition kind_accepted (kind : Z) : bool :=
  negb (kind =? kEngineLogs) || negb (kind =? kStorageLogs).

(** [None] stands for a failed assertion: a debug build stops there, a
    release build would copy past the end of the buffer. *)
Definition add_nonrecord_log (header : LogHeader) (g : LogGleaner) : option LogGleaner :=
  if negb (kind_accepted (kind_ header)) then None
  else
    let begins_at := nonrecord_log_buffer_pos_ g in
    let pos := begins_at + log_length_ header in
    if negb (begins_at + log_length_ header
             <=? Z.of_nat (length (nonrecord_log_buffer_ g)))
    then None
    else
      Some (mkLogGleaner
              (take (Z.to_nat begins_at) (nonrecord_log_buffer_ g)
               ++ take (Z.to_nat (log_length_ header)) (image_ header)
               ++ drop (Z.to_nat (begins_at + log_length_ header))
                    (nonrecord_log_buffer_ g))
              pos).

(** One call after the other, as long as none fails. *)
Fixpoint add_nonrecord_logs (headers : list LogHeader) (g : LogGleaner)
  : option LogGleaner :=
  match headers with
  | [] => Some g
  | header :: rest =>
      match add_nonrecord_log header g with
      | None => None
      | Some g1 => add_nonrecord_logs rest g1
      end
  end.

End AddNonrecordLog.

(** The bytes of the records, end to end. *)
Definition images (headers : list LogHeader) : list Z :=
  concat (image_ <$> headers).

Definition total_length (headers : list LogHeader) : Z :=
  foldr (fun header acc => log_length_ header + acc) 0 headers.

End NonrecordLog.

(** ** Vocabulary for the statements about the life cycle *)

(** The log buffer holds no uncommitted log, as [begin_xct] asserts. *)
Definition log_buffer_clean (w : World) : Prop :=
  offset_tail_ (log_buffer_ w) = offset_committed_ (log_buffer_ w).

(** Between two transactions the log buffer holds no uncommitted log. *)
Definition idle_clean (w : World) : Prop :=
  is_active (current_xct_ w) = false -> log_buffer_clean w.

(** [w'] has the read set, the pointer set and the page-version set of [w]. *)
Definition same_observations (w w' : World) : Prop :=
  read_set_ (current_xct_ w') = read_set_ (current_xct_ w)
  /\ pointer_set_ (current_xct_ w') = pointer_set_ (current_xct_ w)
  /\ page_version_set_ (current_xct_ w') = page_version_set_ (current_xct_ w).

(** No record of the read set carries the moved bit. *)
Definition no_read_moved (w : World) : Prop :=
  Forall
    (fun access => is_moved (owner_ids_ (memory_ w) (r_owner_id_address_ access)) = false)
    (read_set_ (current_xct_ w)).

(** ** Vocabulary for the [double] arithmetic of set_capacity *)

(** [m * 2 ^ e] in units of [2 ^ c], for a [c] below every exponent in
    sight: values are compared at a common scale. *)
Definition scaled (c m e : Z) : Z := m * 2 ^ (e - c).

(** Below the exponent of every [double] and of every quotient of two
    [double]s before it is rounded. *)
Definition double_unit : Z := -2048.

(** The shift record [r] holds the integer part of [n / d], and its two
    sticky bits are clear whenever the quotient is exact. *)
Definition shr_inv (n d : Z) (r : shr_record) : Prop :=
  shr_m r = n / d /\ (n mod d = 0 -> shr_r r = false /\ shr_s r = false).

(** [x] is the value [m_r * 2 ^ e_t] as a floating-point number in
    canonical form, or the infinity when that is beyond the range. *)
Definition rounds_to (prec emax m_r e_t : Z) (x : spec_float) : Prop :=
  (m_r = 0 /\ x = S754_zero false)
  \/ exists (m : positive) (e : Z),
       e_t <= e /\ Z.pos m * 2 ^ (e - e_t) = m_r
       /\ canonical_mantissa prec emax m e = true
       /\ x = if e <=? emax - prec then S754_finite false m e else S754_infinity false.

(** [x] is zero or a positive number of the format, at most
    [M * 2 ^ E]. *)
Definition at_most (prec emax c M E : Z) (x : spec_float) : Prop :=
  match x with
  | S754_zero _ => True
  | S754_finite false m e =>
      bounded prec emax m e = true /\ scaled c (Z.pos m) e <= scaled c M E
  | _ => False
  end.

(** [x] is a positive number of the format, at least [M * 2 ^ E], or the
    positive infinity. *)
Definition at_least (prec emax c M E : Z) (x : spec_float) : Prop :=
  match x with
  | S754_infinity false => True
  | S754_finite false m e =>
      bounded prec emax m e = true /\ scaled c M E <= scaled c (Z.pos m) e
  | _ => False
  end.

(** The fill factor after the two adjustments of [set_capacity]. *)
Definition clamp_fillfactor (preferred_fillfactor : spec_float) : spec_float :=
  let preferred_fillfactor :=
    if SFleb HashMetadata.double_one preferred_fillfactor
    then HashMetadata.double_one else preferred_fillfactor in
  if SFltb preferred_fillfactor HashMetadata.double_tenth
  then HashMetadata.double_tenth else preferred_fillfactor.

(** * Properties *)

(** ** Wait-for-commit *)

Lemma signalled_wakeup (w : World) : signalled w (wakeup_epoch_advance_thread w).
Proof. reflexivity. Qed.

Lemma not_signalled_self (w : World) : ~ signalled w w.
Proof. unfold signalled. lia. Qed.

(** C1, as the code has it: [wait_for_commit] signals the epoch-advance thread
    exactly when [commit_epoch] is before the current global epoch, and in
    every case hands over to [wait_until_durable] with the same arguments and
    returns what that returns. *)
Theorem wait_for_commit_signals_iff_before
    (wait_until_durable : Z -> Z -> World -> ErrorCode * World)
    (commit_epoch wait_microseconds : Z) (w : World) :
  let w1 := wait_for_commit_signal commit_epoch w in
  wait_for_commit wait_until_durable commit_epoch wait_microseconds w
    = wait_until_durable commit_epoch wait_microseconds w1
  /\ (signalled w w1 <-> Epoch.before commit_epoch (get_current_global_epoch w) = true)
  /\ (w1 = wakeup_epoch_advance_thread w \/ w1 = w).
Proof.
  cbn zeta. unfold wait_for_commit, wait_for_commit_signal, Epoch.lt.
  destruct (Epoch.before commit_epoch (get_current_global_epoch w)) eqn:Hb.
  - split; [reflexivity|]. split; [|by left].
    split; [done | intros _; apply signalled_wakeup].
  - split; [reflexivity|]. split; [|by right].
    split; [intros H; by apply not_signalled_self in H | done].
Qed.

(** C1, as the spec has it, fails: with current global epoch 3 a wait for the
    later epoch 5 sends no signal, and with current global epoch 5 a wait for
    the earlier epoch 3 does. *)
Lemma wait_for_commit_greater_epoch_no_signal :
  (Epoch.gt 5 (get_current_global_epoch world_idle) = true
   /\ ~ signalled world_idle (wait_for_commit_signal 5 world_idle)
   /\ snd (wait_for_commit wait_until_durable_poll 5 0 world_idle) = world_idle)
  /\ (Epoch.gt 3 (get_current_global_epoch world_idle5) = false
      /\ signalled world_idle5 (wait_for_commit_signal 3 world_idle5)).
Proof.
  split.
  - split; [reflexivity|]. split; [|reflexivity].
    vm_compute. lia.
  - split; reflexivity.
Qed.

(** ** Abort *)

(** C6: on an inactive context [abort_xct] returns [kErrorCodeXctNoXct] and
    the world is the one it was given; on an active one it returns
    [kErrorCodeOk], the context is inactive, the tail of the log buffer is back
    at the committed offset, and nothing else has changed. *)
Theorem abort_xct_inactive_noop_active_discards (w : World) :
  (is_active (current_xct_ w) = false -> abort_xct w = (kErrorCodeXctNoXct, w))
  /\ (is_active (current_xct_ w) = true ->
      exists w', abort_xct w = (kErrorCodeOk, w')
        /\ is_active (current_xct_ w') = false
        /\ offset_tail_ (log_buffer_ w') = offset_committed_ (log_buffer_ w)
        /\ offset_committed_ (log_buffer_ w') = offset_committed_ (log_buffer_ w)
        /\ current_xct_ w' = deactivate (current_xct_ w)
        /\ log_buffer_ w' = discard_current_xct_log (log_buffer_ w)
        /\ memory_ w' = memory_ w
        /\ history_ w' = history_ w).
Proof.
  unfold abort_xct. split; intros Ha; rewrite Ha; cbn [negb].
  - reflexivity.
  - eexists. split; [reflexivity|]. cbn. repeat split.
Qed.

(** ** The write set under locking and unlocking *)

Lemma same_address_erase (e : WriteXctAccess) (o : option WriteXctAccess) :
  same_address e o = same_address (erase_block e) (erase_block <$> o).
Proof. by destruct o. Qed.

Lemma same_address_set_block (b : Z) (e : WriteXctAccess) (o : option WriteXctAccess) :
  same_address (set_mcs_block b e) o = same_address e o.
Proof. by destruct o. Qed.

Lemma erase_set_block (b : Z) (e : WriteXctAccess) :
  erase_block (set_mcs_block b e) = erase_block e.
Proof. reflexivity. Qed.

Lemma erase_unlocked (e : WriteXctAccess) : mcs_block_ e = 0 -> erase_block e = e.
Proof. destruct e; cbn; intros ->; reflexivity. Qed.

Lemma erase_insert (ws : list WriteXctAccess) (i : nat) (b : Z) (e : WriteXctAccess) :
  ws !! i = Some e ->
  erase_block <$> <[i := set_mcs_block b e]> ws = erase_block <$> ws.
Proof.
  intros Hi. rewrite list_fmap_insert, erase_set_block.
  apply list_insert_id. by rewrite list_lookup_fmap, Hi.
Qed.

Lemma erase_lookup (l1 l2 : list WriteXctAccess) (i : nat) :
  erase_block <$> l1 = erase_block <$> l2 ->
  erase_block <$> (l1 !! i) = erase_block <$> (l2 !! i).
Proof. intros H. by rewrite <- !list_lookup_fmap, H. Qed.

Lemma erase_length (l1 l2 : list WriteXctAccess) :
  erase_block <$> l1 = erase_block <$> l2 -> length l1 = length l2.
Proof. intros H. by rewrite <- (length_fmap erase_block l1), H, length_fmap. Qed.

Lemma head_drop_lookup {A} (l : list A) (i : nat) : head (drop i l) = l !! i.
Proof. by rewrite head_lookup, lookup_drop, Nat.add_0_r. Qed.

Lemma unlock_entries_all_unlocked (ws : list WriteXctAccess) (w : World) :
  all_unlocked (fst (unlock_entries ws w)).
Proof.
  revert w. induction ws as [|e rest IH]; intros w; cbn.
  - constructor.
  - destruct (negb (mcs_block_ e =? 0)) eqn:Hb.
    + specialize (IH (mcs_release_lock (owner_id_address_ e) (mcs_block_ e) w)).
      destruct (unlock_entries rest _) as [rest' w2]. constructor; [reflexivity | exact IH].
    + specialize (IH w). destruct (unlock_entries rest w) as [rest' w2].
      constructor; [|exact IH].
      apply negb_false_iff, Z.eqb_eq in Hb. exact Hb.
Qed.

Lemma unlock_entries_frame (ws : list WriteXctAccess) (w : World) :
  current_xct_ (snd (unlock_entries ws w)) = current_xct_ w
  /\ log_buffer_ (snd (unlock_entries ws w)) = log_buffer_ w.
Proof.
  revert w. induction ws as [|e rest IH]; intros w; cbn; [done|].
  destruct (negb (mcs_block_ e =? 0)).
  - specialize (IH (mcs_release_lock (owner_id_address_ e) (mcs_block_ e) w)).
    destruct (unlock_entries rest _) as [rest' w2]. exact IH.
  - specialize (IH w). destruct (unlock_entries rest w) as [rest' w2]. exact IH.
Qed.

Lemma precommit_xct_unlock_all_unlocked (w : World) :
  all_unlocked (get_write_set (precommit_xct_unlock w)).
Proof.
  unfold precommit_xct_unlock.
  pose proof (unlock_entries_all_unlocked (get_write_set w) w) as H.
  destruct (unlock_entries (get_write_set w) w) as [ws w1]. exact H.
Qed.

Lemma precommit_xct_unlock_log_buffer (w : World) :
  log_buffer_ (precommit_xct_unlock w) = log_buffer_ w.
Proof.
  unfold precommit_xct_unlock.
  pose proof (unlock_entries_frame (get_write_set w) w) as [_ H].
  destruct (unlock_entries (get_write_set w) w) as [ws w1]. exact H.
Qed.

(** Accessors against the world updates. *)
Lemma get_set_write_set (ws : list WriteXctAccess) (w : World) :
  get_write_set (set_write_set ws w) = ws.
Proof. reflexivity. Qed.

Lemma history_set_write_set (ws : list WriteXctAccess) (w : World) :
  history_ (set_write_set ws w) = history_ w.
Proof. reflexivity. Qed.

Lemma block_current_set_write_set (ws : list WriteXctAccess) (w : World) :
  mcs_block_current_ (current_xct_ (set_write_set ws w))
  = mcs_block_current_ (current_xct_ w).
Proof. reflexivity. Qed.

Lemma mcs_acquire_lock_spec (a : Z) (w : World) (block : Z) (w1 : World) :
  mcs_acquire_lock a w = (block, w1) ->
  block = mcs_block_current_ (current_xct_ w) + 1
  /\ get_write_set w1 = get_write_set w
  /\ history_ w1 = history_ w ++ [EvAcquire a block]
  /\ mcs_block_current_ (current_xct_ w1) = block
  /\ log_buffer_ w1 = log_buffer_ w
  /\ (forall a', xct_id_ (owner_at w1 a') = xct_id_ (owner_at w a')).
Proof.
  unfold mcs_acquire_lock. intros [= <- <-]. repeat split.
  intros a'. unfold owner_at. cbn.
  destruct (decide (a = a')) as [->|Hne].
  - by rewrite fn_lookup_insert.
  - by rewrite fn_lookup_insert_ne.
Qed.

#[local] Arguments set_write_set : simpl never.
#[local] Arguments get_write_set : simpl never.
#[local] Arguments mcs_acquire_lock : simpl never.
#[local] Arguments mcs_release_lock : simpl never.
#[local] Arguments precommit_xct_unlock : simpl never.
#[local] Arguments owner_at : simpl never.

(** The locking loop: either it asks for a retry and has released
    everything, or it has locked exactly the run ends from [i] on. *)
Lemma lock_loop_spec (todo : nat) :
  forall (i : nat) (w : World) (mx : XctId) (r : bool) (w' : World) (mx' : XctId),
    lock_loop todo i w mx = (r, w', mx') ->
    (i + todo)%nat = length (get_write_set w) ->
    0 <= mcs_block_current_ (current_xct_ w) ->
    all_unlocked (drop i (get_write_set w)) ->
    if r then all_unlocked (get_write_set w')
    else erase_block <$> get_write_set w' = erase_block <$> get_write_set w
         /\ take i (get_write_set w') = take i (get_write_set w)
         /\ locked_at_run_ends (drop i (get_write_set w'))
         /\ history_ w' = history_ w ++ (acquire_event <$> run_ends (drop i (get_write_set w')))
         /\ 0 <= mcs_block_current_ (current_xct_ w').
Proof.
  induction todo as [|todo IH]; intros i w mx r w' mx' Hrun Hlen Hcur Hzero.
  - cbn in Hrun. injection Hrun as <- <- <-.
    rewrite drop_ge by lia. cbn. by rewrite app_nil_r.
  - cbn [lock_loop] in Hrun.
    destruct (get_write_set w !! i) as [e|] eqn:Hi.
    2:{ apply lookup_ge_None in Hi. lia. }
    assert (He0 : mcs_block_ e = 0).
    { rewrite (drop_S _ _ _ Hi) in Hzero. by inversion Hzero. }
    assert (Hzero' : all_unlocked (drop (S i) (get_write_set w))).
    { rewrite (drop_S _ _ _ Hi) in Hzero. by inversion Hzero. }
    destruct (same_address e (get_write_set w !! S i)) eqn:Hsame.
    + apply IH in Hrun; [|lia|done|done].
      destruct r; [done|].
      destruct Hrun as (Her & Htake & Hruns & Hhist & Hcur').
      assert (Hi' : get_write_set w' !! i = Some e).
      { rewrite <- (lookup_take_lt _ (S i)) by lia. rewrite Htake.
        rewrite lookup_take_lt by lia. done. }
      assert (Hsame' : same_address e (get_write_set w' !! S i) = true).
      { rewrite same_address_erase, (erase_lookup _ _ _ Her), <- same_address_erase. done. }
      split; [done|]. split.
      { apply (f_equal (take i)) in Htake. rewrite !take_take in Htake.
        by replace (i `min` S i)%nat with i in Htake by lia. }
      rewrite (drop_S _ _ _ Hi'). cbn [locked_at_run_ends run_ends].
      rewrite head_drop_lookup, Hsame'. repeat split; try done.
    + destruct (mcs_acquire_lock (owner_id_address_ e) w) as [block w1] eqn:Hacq.
      apply mcs_acquire_lock_spec in Hacq as (Hblock & Hws1 & Hh1 & Hc1 & _ & _).
      rewrite Hws1 in Hrun.
      match type of Hrun with
      | (if is_moved ?o then _ else _) = _ => destruct (is_moved o) eqn:Hmoved
      end.
      * injection Hrun as <- <- <-. apply precommit_xct_unlock_all_unlocked.
      * apply IH in Hrun.
        2:{ rewrite get_set_write_set, length_insert. lia. }
        2:{ rewrite block_current_set_write_set. lia. }
        2:{ rewrite get_set_write_set, drop_insert_lt by lia. done. }
        destruct r; [done|].
        rewrite get_set_write_set, history_set_write_set in Hrun.
        destruct Hrun as (Her & Htake & Hruns & Hhist & Hcur').
        rewrite (erase_insert _ _ _ _ Hi) in Her.
        assert (Hi' : get_write_set w' !! i = Some (set_mcs_block block e)).
        { rewrite <- (lookup_take_lt _ (S i)) by lia. rewrite Htake.
          rewrite lookup_take_lt by lia.
          apply list_lookup_insert_eq. apply lookup_lt_Some in Hi. done. }
        assert (Hsame' : same_address (set_mcs_block block e) (get_write_set w' !! S i) = false).
        { rewrite same_address_set_block, same_address_erase, (erase_lookup _ _ _ Her),
            <- same_address_erase. done. }
        split; [done|]. split.
        { apply (f_equal (take i)) in Htake. rewrite !take_take in Htake.
          replace (i `min` S i)%nat with i in Htake by lia.
          by rewrite take_insert_ge in Htake by lia. }
        rewrite (drop_S _ _ _ Hi'). cbn [locked_at_run_ends run_ends].
        rewrite head_drop_lookup, Hsame'. repeat split; try done.
        { cbn. lia. }
        rewrite Hhist, Hh1. cbn. rewrite <- app_assoc. reflexivity.
Qed.

Lemma precommit_xct_unlock_block_current (w : World) :
  mcs_block_current_ (current_xct_ (precommit_xct_unlock w))
  = mcs_block_current_ (current_xct_ w).
Proof.
  unfold precommit_xct_unlock.
  pose proof (unlock_entries_frame (get_write_set w) w) as [H _].
  destruct (unlock_entries (get_write_set w) w) as [ws w1].
  cbn in H. rewrite block_current_set_write_set. by rewrite H.
Qed.

Lemma lock_loop_block_current (todo : nat) :
  forall (i : nat) (w : World) (mx : XctId) (r : bool) (w' : World) (mx' : XctId),
    lock_loop todo i w mx = (r, w', mx') ->
    mcs_block_current_ (current_xct_ w) <= mcs_block_current_ (current_xct_ w').
Proof.
  induction todo as [|todo IH]; intros i w mx r w' mx' Hrun.
  - cbn in Hrun. injection Hrun as <- <- <-. lia.
  - cbn [lock_loop] in Hrun.
    destruct (get_write_set w !! i) as [e|] eqn:Hi.
    2:{ injection Hrun as <- <- <-. lia. }
    destruct (same_address e (get_write_set w !! S i)); [by eapply IH|].
    destruct (mcs_acquire_lock (owner_id_address_ e) w) as [block w1] eqn:Hacq.
    apply mcs_acquire_lock_spec in Hacq as (Hblock & Hws1 & Hh1 & Hc1 & _ & _).
    match type of Hrun with
    | (if is_moved ?o then _ else _) = _ => destruct (is_moved o)
    end.
    + injection Hrun as <- <- <-.
      rewrite precommit_xct_unlock_block_current, block_current_set_write_set. lia.
    + apply IH in Hrun. rewrite block_current_set_write_set in Hrun. lia.
Qed.

Lemma owner_at_set_write_set (ws : list WriteXctAccess) (w : World) (a : Z) :
  owner_at (set_write_set ws w) a = owner_at w a.
Proof. reflexivity. Qed.

Lemma addresses_insert (ws : list WriteXctAccess) (i : nat) (b : Z) (e : WriteXctAccess) :
  ws !! i = Some e ->
  owner_id_address_ <$> <[i := set_mcs_block b e]> ws = owner_id_address_ <$> ws.
Proof.
  intros Hi. rewrite list_fmap_insert. apply list_insert_id.
  by rewrite list_lookup_fmap, Hi.
Qed.

(** Without a moved bit in sight the locking loop never asks for a retry. *)
Lemma lock_loop_no_retry (todo : nat) :
  forall (i : nat) (w : World) (mx : XctId),
    none_moved w -> fst (fst (lock_loop todo i w mx)) = false.
Proof.
  induction todo as [|todo IH]; intros i w mx Hnm; [done|].
  cbn [lock_loop].
  destruct (get_write_set w !! i) as [e|] eqn:Hi; [|done].
  destruct (same_address e (get_write_set w !! S i)); [by apply IH|].
  destruct (mcs_acquire_lock (owner_id_address_ e) w) as [block w1] eqn:Hacq.
  apply mcs_acquire_lock_spec in Hacq as (_ & Hws1 & _ & _ & _ & Hid).
  assert (Hnm2 : none_moved
            (set_write_set (<[i := set_mcs_block block e]> (get_write_set w1)) w1)).
  { intros a Ha. rewrite get_set_write_set, Hws1, (addresses_insert _ _ _ _ Hi) in Ha.
    rewrite owner_at_set_write_set. unfold is_moved. rewrite Hid. by apply Hnm. }
  rewrite (Hnm2 (owner_id_address_ e)); [by apply IH|].
  rewrite get_set_write_set, Hws1, (addresses_insert _ _ _ _ Hi).
  apply list_elem_of_fmap_2. by eapply list_elem_of_lookup_2.
Qed.

Lemma lock_loop_log_buffer (todo : nat) :
  forall (i : nat) (w : World) (mx : XctId) (r : bool) (w' : World) (mx' : XctId),
    lock_loop todo i w mx = (r, w', mx') ->
    log_buffer_ w' = log_buffer_ w.
Proof.
  induction todo as [|todo IH]; intros i w mx r w' mx' Hrun.
  - cbn in Hrun. by injection Hrun as <- <- <-.
  - cbn [lock_loop] in Hrun.
    destruct (get_write_set w !! i) as [e|] eqn:Hi.
    2:{ by injection Hrun as <- <- <-. }
    destruct (same_address e (get_write_set w !! S i)); [by eapply IH|].
    destruct (mcs_acquire_lock (owner_id_address_ e) w) as [block w1] eqn:Hacq.
    apply mcs_acquire_lock_spec in Hacq as (_ & _ & _ & _ & Hb1 & _).
    match type of Hrun with
    | (if is_moved ?o then _ else _) = _ => destruct (is_moved o)
    end.
    + injection Hrun as <- <- <-. by rewrite precommit_xct_unlock_log_buffer.
    + apply IH in Hrun. by rewrite Hrun.
Qed.

Section Phase1.

Variable track_moved_record : Memory -> Z -> WriteXctAccess -> option (Z * Z).
Variable std_sort : list WriteXctAccess -> list WriteXctAccess.
Hypothesis std_sort_perm : forall l, std_sort l ≡ₚ l.

Lemma track_moved_pass_all_unlocked (m : Memory) (ws : list WriteXctAccess) :
  all_unlocked ws -> all_unlocked (snd (track_moved_pass track_moved_record m ws)).
Proof.
  induction ws as [|e rest IH]; intros Hz; cbn; [done|].
  inversion Hz as [|? ? He Hrest]; subst.
  specialize (IH Hrest).
  destruct (is_moved _).
  - destruct (track_moved_record _ _ _) as [[a p]|]; [|done].
    destruct (track_moved_pass _ _ rest) as [ok rest']. constructor; done.
  - destruct (track_moved_pass _ _ rest) as [ok rest']. constructor; done.
Qed.

Lemma std_sort_all_unlocked (ws : list WriteXctAccess) :
  all_unlocked ws -> all_unlocked (std_sort ws).
Proof. unfold all_unlocked. by rewrite std_sort_perm. Qed.

(** Phase 1 as a whole.  A failure leaves no lock behind; a success leaves
    the write set of the last pass, locked at its run ends, and the
    acquisitions of that pass are the last thing in the history. *)
Lemma precommit_xct_lock_spec (fuel : nat) :
  forall (w : World) (mx : XctId) (ok : bool) (w' : World) (mx' : XctId),
    precommit_xct_lock track_moved_record std_sort fuel w mx = Some (ok, w', mx') ->
    0 <= mcs_block_current_ (current_xct_ w) ->
    all_unlocked (get_write_set w) ->
    if ok
    then (exists tracked,
            erase_block <$> get_write_set w' = erase_block <$> std_sort tracked)
         /\ locked_at_run_ends (get_write_set w')
         /\ (exists h0, history_ w' = h0 ++ (acquire_event <$> run_ends (get_write_set w')))
         /\ 0 <= mcs_block_current_ (current_xct_ w')
    else all_unlocked (get_write_set w').
Proof.
  induction fuel as [|fuel IH]; intros w mx ok w' mx' Hrun Hcur Hzero; [done|].
  cbn [precommit_xct_lock] in Hrun.
  pose proof (track_moved_pass_all_unlocked (memory_ w) _ Hzero) as Htz.
  destruct (track_moved_pass _ _ _) as [tok tracked]. cbn [snd] in Htz.
  destruct tok; cbn [negb] in Hrun.
  2:{ injection Hrun as <- <- <-. by rewrite get_set_write_set. }
  destruct (lock_loop _ 0 _ mx) as [[retry w2] mx2] eqn:Hloop.
  pose proof (lock_loop_block_current _ _ _ _ _ _ _ Hloop) as Hmono.
  apply lock_loop_spec in Hloop; cbn [drop];
    [| done | by rewrite block_current_set_write_set
     | rewrite get_set_write_set; by apply std_sort_all_unlocked].
  rewrite block_current_set_write_set in Hmono.
  destruct retry; cbn [negb] in Hrun.
  - apply IH in Hrun; [done | lia | done].
  - injection Hrun as <- <- <-.
    destruct Hloop as (Her & _ & Hruns & Hhist & Hcur').
    rewrite get_set_write_set in Her.
    split; [by exists tracked|]. split; [done|]. split; [|done].
    eexists. exact Hhist.
Qed.

Lemma precommit_xct_lock_log_buffer (fuel : nat) :
  forall (w : World) (mx : XctId) (ok : bool) (w' : World) (mx' : XctId),
    precommit_xct_lock track_moved_record std_sort fuel w mx = Some (ok, w', mx') ->
    log_buffer_ w' = log_buffer_ w.
Proof.
  induction fuel as [|fuel IH]; intros w mx ok w' mx' Hrun; [done|].
  cbn [precommit_xct_lock] in Hrun.
  destruct (track_moved_pass _ _ _) as [tok tracked].
  destruct tok; cbn [negb] in Hrun.
  2:{ by injection Hrun as <- <- <-. }
  destruct (lock_loop _ 0 _ mx) as [[retry w2] mx2] eqn:Hloop.
  apply lock_loop_log_buffer in Hloop.
  destruct retry; cbn [negb] in Hrun.
  - apply IH in Hrun. by rewrite Hrun, Hloop.
  - injection Hrun as <- <- <-. by rewrite Hloop.
Qed.

Lemma track_moved_pass_none_moved (m : Memory) (ws : list WriteXctAccess) :
  (forall e, e ∈ ws -> is_moved (owner_ids_ m (owner_id_address_ e)) = false) ->
  track_moved_pass track_moved_record m ws = (true, ws).
Proof.
  induction ws as [|e rest IH]; intros Hnm; cbn; [done|].
  rewrite (Hnm e) by left.
  rewrite IH; [done|]. intros e' He'. apply Hnm. by right.
Qed.

(** Phase 1 returns, and succeeds, after a single pass when no owner word
    of the write set has moved. *)
Lemma precommit_xct_lock_returns (fuel : nat) (w : World) (mx : XctId) :
  none_moved w ->
  exists w1 mx1,
    precommit_xct_lock track_moved_record std_sort (S fuel) w mx = Some (true, w1, mx1).
Proof.
  intros Hnm. cbn [precommit_xct_lock].
  rewrite track_moved_pass_none_moved.
  2:{ intros e He. apply (Hnm (owner_id_address_ e)). by apply list_elem_of_fmap_2. }
  cbn [negb].
  pose proof (lock_loop_no_retry (length (get_write_set (set_write_set (std_sort (get_write_set w)) w)))
                0 (set_write_set (std_sort (get_write_set w)) w) mx) as Hno.
  destruct (lock_loop _ 0 _ mx) as [[retry w2] mx2].
  cbn in Hno. rewrite Hno; [by eexists _, _|].
  intros a Ha. rewrite get_set_write_set, std_sort_perm in Ha.
  rewrite owner_at_set_write_set. by apply Hnm.
Qed.

End Phase1.

(** ** Phase 3 *)

(** How the primitive updates show through the projections of the world. *)
Lemma write_set_stamp_log (l : Z) (x : XctId) (w : World) :
  get_write_set (stamp_log l x w) = get_write_set w.
Proof. reflexivity. Qed.
Lemma history_stamp_log (l : Z) (x : XctId) (w : World) :
  history_ (stamp_log l x w) = history_ w.
Proof. reflexivity. Qed.
Lemma log_headers_stamp_log (l : Z) (x : XctId) (w : World) :
  log_headers_ (memory_ (stamp_log l x w)) = <[l := x]> (log_headers_ (memory_ w)).
Proof. reflexivity. Qed.
Lemma xct_stamp_log (l : Z) (x : XctId) (w : World) :
  current_xct_ (stamp_log l x w) = current_xct_ w.
Proof. reflexivity. Qed.
Lemma log_buffer_stamp_log (l : Z) (x : XctId) (w : World) :
  log_buffer_ (stamp_log l x w) = log_buffer_ w.
Proof. reflexivity. Qed.
Lemma write_set_store_owner_xct_id (a : Z) (x : XctId) (w : World) :
  get_write_set (store_owner_xct_id a x w) = get_write_set w.
Proof. reflexivity. Qed.
Lemma history_store_owner_xct_id (a : Z) (x : XctId) (w : World) :
  history_ (store_owner_xct_id a x w) = history_ w.
Proof. reflexivity. Qed.
Lemma log_headers_store_owner_xct_id (a : Z) (x : XctId) (w : World) :
  log_headers_ (memory_ (store_owner_xct_id a x w)) = log_headers_ (memory_ w).
Proof. reflexivity. Qed.
Lemma xct_store_owner_xct_id (a : Z) (x : XctId) (w : World) :
  current_xct_ (store_owner_xct_id a x w) = current_xct_ w.
Proof. reflexivity. Qed.
Lemma log_buffer_store_owner_xct_id (a : Z) (x : XctId) (w : World) :
  log_buffer_ (store_owner_xct_id a x w) = log_buffer_ w.
Proof. reflexivity. Qed.
Lemma write_set_mcs_release_lock (a b : Z) (w : World) :
  get_write_set (mcs_release_lock a b w) = get_write_set w.
Proof. reflexivity. Qed.
Lemma history_mcs_release_lock (a b : Z) (w : World) :
  history_ (mcs_release_lock a b w) = history_ w ++ [EvRelease a b].
Proof. reflexivity. Qed.
Lemma log_headers_mcs_release_lock (a b : Z) (w : World) :
  log_headers_ (memory_ (mcs_release_lock a b w)) = log_headers_ (memory_ w).
Proof. reflexivity. Qed.
Lemma xct_mcs_release_lock (a b : Z) (w : World) :
  current_xct_ (mcs_release_lock a b w) = current_xct_ w.
Proof. reflexivity. Qed.
Lemma log_buffer_mcs_release_lock (a b : Z) (w : World) :
  log_buffer_ (mcs_release_lock a b w) = log_buffer_ w.
Proof. reflexivity. Qed.
Lemma write_set_record_event (ev : Event) (w : World) :
  get_write_set (record_event ev w) = get_write_set w.
Proof. reflexivity. Qed.
Lemma history_record_event (ev : Event) (w : World) :
  history_ (record_event ev w) = history_ w ++ [ev].
Proof. reflexivity. Qed.
Lemma log_headers_record_event (ev : Event) (w : World) :
  log_headers_ (memory_ (record_event ev w)) = log_headers_ (memory_ w).
Proof. reflexivity. Qed.
Lemma xct_record_event (ev : Event) (w : World) :
  current_xct_ (record_event ev w) = current_xct_ w.
Proof. reflexivity. Qed.
Lemma log_buffer_record_event (ev : Event) (w : World) :
  log_buffer_ (record_event ev w) = log_buffer_ w.
Proof. reflexivity. Qed.
Lemma log_headers_set_write_set (ws : list WriteXctAccess) (w : World) :
  log_headers_ (memory_ (set_write_set ws w)) = log_headers_ (memory_ w).
Proof. reflexivity. Qed.
Lemma xct_set_write_set (ws : list WriteXctAccess) (w : World) :
  current_xct_ (set_write_set ws w) = with_write_set ws (current_xct_ w).
Proof. reflexivity. Qed.
Lemma log_buffer_set_write_set (ws : list WriteXctAccess) (w : World) :
  log_buffer_ (set_write_set ws w) = log_buffer_ w.
Proof. reflexivity. Qed.

Create Rewrite HintDb world.
#[local] Hint Rewrite get_set_write_set history_set_write_set write_set_stamp_log history_stamp_log log_headers_stamp_log xct_stamp_log log_buffer_stamp_log write_set_store_owner_xct_id history_store_owner_xct_id log_headers_store_owner_xct_id xct_store_owner_xct_id log_buffer_store_owner_xct_id write_set_mcs_release_lock history_mcs_release_lock log_headers_mcs_release_lock xct_mcs_release_lock log_buffer_mcs_release_lock write_set_record_event history_record_event log_headers_record_event xct_record_event log_buffer_record_event log_headers_set_write_set xct_set_write_set log_buffer_set_write_set : world.

#[local] Arguments stamp_log : simpl never.
#[local] Arguments store_owner_xct_id : simpl never.
#[local] Arguments record_event : simpl never.
#[local] Arguments precommit_xct_apply : simpl never.

Lemma with_write_set_same (x : Xct) : with_write_set (write_set_ x) x = x.
Proof. by destruct x. Qed.

Lemma with_write_set_twice (l1 l2 : list WriteXctAccess) (x : Xct) :
  with_write_set l1 (with_write_set l2 x) = with_write_set l1 x.
Proof. reflexivity. Qed.

Section Phase3.

Variable invoke_apply_record : Memory -> WriteXctAccess -> XctId.

(** One iteration of the apply loop. *)
Lemma apply_entry_spec (i : nat) (write : WriteXctAccess) (nid ndel : XctId) (w : World) :
  let w' := apply_entry invoke_apply_record i write nid ndel w in
  (if same_address write (get_write_set w !! S i)
   then get_write_set w' = get_write_set w /\ history_ w' = history_ w
   else get_write_set w' = <[i := set_mcs_block 0 write]> (get_write_set w)
        /\ exists id, (id = nid \/ id = ndel)
             /\ history_ w' = history_ w
                  ++ [EvFinalize (owner_id_address_ write) id;
                      EvRelease (owner_id_address_ write) (mcs_block_ write)])
  /\ log_headers_ (memory_ w') (log_entry_ write) = nid
  /\ (forall l, log_headers_ (memory_ w') l = nid
                \/ log_headers_ (memory_ w') l = log_headers_ (memory_ w) l)
  /\ current_xct_ w' = with_write_set (get_write_set w') (current_xct_ w)
  /\ log_buffer_ w' = log_buffer_ w.
Proof.
  cbn zeta. unfold apply_entry. cbn zeta.
  assert (Hl : forall l, <[log_entry_ write := nid]> (log_headers_ (memory_ w)) l = nid
                 \/ <[log_entry_ write := nid]> (log_headers_ (memory_ w)) l
                    = log_headers_ (memory_ w) l).
  { intros l. destruct (decide (log_entry_ write = l)) as [->|Hne].
    - left. apply fn_lookup_insert.
    - right. by apply fn_lookup_insert_ne. }
  split; [|split; [|split; [|split]]];
    destruct (same_address write (get_write_set w !! S i));
    destruct (same_address write _);
    try match goal with
      | |- context [if XctIdOps.is_deleted ?x then _ else _] =>
          destruct (XctIdOps.is_deleted x)
      end;
    autorewrite with world;
    rewrite ?with_write_set_twice;
    first
      [ by split
      | split; [done|]; eexists; (split; [|rewrite <- app_assoc; reflexivity]); tauto
      | apply fn_lookup_insert
      | apply Hl
      | unfold get_write_set; by rewrite with_write_set_same
      | reflexivity ].
Qed.

Lemma apply_loop_spec (todo : nat) :
  forall (i : nat) (nid ndel : XctId) (w : World),
    (i + todo)%nat = length (get_write_set w) ->
    let w' := apply_loop invoke_apply_record todo i nid ndel w in
    erase_block <$> get_write_set w' = erase_block <$> get_write_set w
    /\ take i (get_write_set w') = take i (get_write_set w)
    /\ (locked_at_run_ends (drop i (get_write_set w)) ->
        all_unlocked (drop i (get_write_set w')))
    /\ (exists evs,
          history_ w' = history_ w ++ evs
          /\ forget_id <$> evs
              = flat_map finalize_release (run_ends (drop i (get_write_set w)))
          /\ Forall (finalizes_with nid ndel) evs)
    /\ (forall e, e ∈ drop i (get_write_set w) ->
          log_headers_ (memory_ w') (log_entry_ e) = nid)
    /\ (forall l, log_headers_ (memory_ w') l = nid
                  \/ log_headers_ (memory_ w') l = log_headers_ (memory_ w) l)
    /\ current_xct_ w' = with_write_set (get_write_set w') (current_xct_ w)
    /\ log_buffer_ w' = log_buffer_ w.
Proof.
  induction todo as [|todo IH]; intros i nid ndel w Hlen; cbn zeta.
  - cbn [apply_loop]. rewrite drop_ge by lia. cbn.
    repeat split; try done.
    + constructor.
    + exists []. by rewrite app_nil_r.
    + intros e He. by apply elem_of_nil in He.
    + by right.
    + unfold get_write_set. by rewrite with_write_set_same.
  - cbn [apply_loop].
    destruct (get_write_set w !! i) as [write|] eqn:Hi.
    2:{ apply lookup_ge_None in Hi. lia. }
    pose proof (apply_entry_spec i write nid ndel w) as Hstep. cbn zeta in Hstep.
    set (w1 := apply_entry invoke_apply_record i write nid ndel w) in *.
    destruct Hstep as (Hbranch & Hlog & Hlogs & Hxct & Hbuf).
    assert (Hdrop : drop (S i) (get_write_set w1) = drop (S i) (get_write_set w)).
    { destruct (same_address write (get_write_set w !! S i)).
      - by destruct Hbranch as [-> _].
      - destruct Hbranch as [-> _]. by rewrite drop_insert_lt by lia. }
    assert (Her1 : erase_block <$> get_write_set w1 = erase_block <$> get_write_set w).
    { destruct (same_address write (get_write_set w !! S i)).
      - by destruct Hbranch as [-> _].
      - destruct Hbranch as [-> _]. by apply erase_insert. }
    assert (Htake1 : take i (get_write_set w1) = take i (get_write_set w)).
    { destruct (same_address write (get_write_set w !! S i)).
      - by destruct Hbranch as [-> _].
      - destruct Hbranch as [-> _]. by rewrite take_insert_ge by lia. }
    specialize (IH (S i) nid ndel w1).
    cbn zeta in IH.
    destruct IH as (Her & Htake & Hzero & (evs & Hhist & Hshape & Hids) & Hlogged & Hlogs' & Hxct' & Hbuf').
    { rewrite (erase_length _ _ Her1). lia. }
    set (w' := apply_loop invoke_apply_record todo (S i) nid ndel w1) in *.
    split; [by rewrite Her|]. split.
    { apply (f_equal (take i)) in Htake. rewrite !take_take in Htake.
      replace (i `min` S i)%nat with i in Htake by lia. by rewrite Htake. }
    split.
    { intros Hruns.
      rewrite (drop_S _ _ _ Hi) in Hruns. cbn [locked_at_run_ends] in Hruns.
      rewrite head_drop_lookup in Hruns. destruct Hruns as [Hlk Hruns].
      assert (Hi1 : get_write_set w1 !! i = Some (set_mcs_block 0 write)).
      { destruct (same_address write (get_write_set w !! S i)).
        - destruct Hbranch as [-> _]. rewrite Hi. f_equal. symmetry.
          apply erase_unlocked.
          destruct (decide (mcs_block_ write = 0)) as [|Hne]; [done|].
          apply Hlk in Hne. done.
        - destruct Hbranch as [-> _]. apply list_lookup_insert_eq.
          by apply lookup_lt_Some in Hi. }
      assert (Hi' : get_write_set w' !! i = Some (set_mcs_block 0 write)).
      { rewrite <- (lookup_take_lt _ (S i)) by lia. rewrite Htake.
        by rewrite lookup_take_lt by lia. }
      rewrite (drop_S _ _ _ Hi'). constructor; [done|].
      apply Hzero. by rewrite Hdrop. }
    split.
    { rewrite (drop_S _ _ _ Hi). cbn [run_ends]. rewrite head_drop_lookup.
      rewrite Hdrop in Hshape.
      destruct (same_address write (get_write_set w !! S i)).
      - destruct Hbranch as [_ Hh]. exists evs. by rewrite Hhist, Hh.
      - destruct Hbranch as (_ & id & Hid & Hh).
        exists ([EvFinalize (owner_id_address_ write) id;
                 EvRelease (owner_id_address_ write) (mcs_block_ write)] ++ evs).
        split; [by rewrite Hhist, Hh, <- app_assoc|]. split.
        + cbn. by rewrite Hshape.
        + apply Forall_app. split; [|done].
          constructor; [exact Hid|]. constructor; [exact I|constructor]. }
    split.
    { intros e He. rewrite (drop_S _ _ _ Hi) in He.
      apply elem_of_cons in He as [->|He].
      - destruct (Hlogs' (log_entry_ write)) as [->| ->]; done.
      - apply Hlogged. by rewrite Hdrop. }
    split.
    { intros l. destruct (Hlogs' l) as [->| ->]; [by left|]. apply Hlogs. }
    split; [|by rewrite Hbuf'].
    by rewrite Hxct', Hxct, with_write_set_twice.
Qed.

Lemma stamp_all_spec (nid : XctId) (lfs : list LockFreeWriteXctAccess) :
  forall w : World,
    let w' := fold_left (fun acc write => stamp_log (lf_log_entry_ write) nid acc) lfs w in
    current_xct_ w' = current_xct_ w
    /\ history_ w' = history_ w
    /\ log_buffer_ w' = log_buffer_ w
    /\ (forall l, log_headers_ (memory_ w') l = nid
                  \/ log_headers_ (memory_ w') l = log_headers_ (memory_ w) l)
    /\ (forall lf, lf ∈ lfs -> log_headers_ (memory_ w') (lf_log_entry_ lf) = nid).
Proof.
  induction lfs as [|lf rest IH]; intros w; cbn zeta; cbn [fold_left].
  - repeat split; try done; [by right|]. intros lf H. by apply elem_of_nil in H.
  - specialize (IH (stamp_log (lf_log_entry_ lf) nid w)). cbn zeta in IH.
    destruct IH as (Hx & Hh & Hb & Hl & Hs).
    autorewrite with world in *.
    assert (Hone : forall l, <[lf_log_entry_ lf := nid]> (log_headers_ (memory_ w)) l = nid
                    \/ <[lf_log_entry_ lf := nid]> (log_headers_ (memory_ w)) l
                       = log_headers_ (memory_ w) l).
    { intros l. destruct (decide (lf_log_entry_ lf = l)) as [->|Hne].
      - left. apply fn_lookup_insert.
      - right. by apply fn_lookup_insert_ne. }
    repeat split; try done.
    + intros l. destruct (Hl l) as [->| ->]; [by left|]. apply Hone.
    + intros lf' [->|Hin]%elem_of_cons; [|by apply Hs].
      destruct (Hl (lf_log_entry_ lf)) as [->| ->]; [done|]. apply fn_lookup_insert.
Qed.

(** Phase 3 as a whole. *)
Lemma precommit_xct_apply_spec (w : World) (mx : XctId) (ce : Z) :
  let w' := (precommit_xct_apply invoke_apply_record w mx ce).1 in
  let nid := new_xct_id_of w mx ce in
  erase_block <$> get_write_set w' = erase_block <$> get_write_set w
  /\ (locked_at_run_ends (get_write_set w) -> all_unlocked (get_write_set w'))
  /\ (exists evs,
        history_ w' = history_ w ++ evs
        /\ forget_id <$> evs = flat_map finalize_release (run_ends (get_write_set w))
        /\ Forall (finalizes_with nid (XctIdOps.set_deleted nid)) evs)
  /\ (forall e, e ∈ get_write_set w -> log_headers_ (memory_ w') (log_entry_ e) = nid)
  /\ (forall lf, lf ∈ lock_free_write_set_ (current_xct_ w) ->
        log_headers_ (memory_ w') (lf_log_entry_ lf) = nid)
  /\ id_ (current_xct_ w') = id_ (issue_next_id mx ce (current_xct_ w)).1
  /\ log_buffer_ w' = log_buffer_ w.
Proof.
  cbn zeta. unfold precommit_xct_apply, new_xct_id_of. cbn zeta. cbn [fst].
  set (w1 := with_xct (issue_next_id mx ce (current_xct_ w)).1 w).
  set (nid := XctIdOps.clear_status_bits (id_ (current_xct_ w1))).
  change (XctIdOps.clear_status_bits (id_ (issue_next_id mx ce (current_xct_ w)).1))
    with nid.
  assert (Hws1 : get_write_set w1 = get_write_set w) by reflexivity.
  pose proof (apply_loop_spec (length (get_write_set w1)) 0 nid
                (XctIdOps.set_deleted nid) w1 eq_refl) as Hloop.
  cbn zeta in Hloop. cbn [drop take] in Hloop. rewrite Hws1 in Hloop.
  change (get_write_set w1) with (get_write_set w).
  destruct Hloop as (Her & _ & Hzero & (evs & Hhist & Hshape & Hids)
                             & Hlogged & _ & Hxct & Hbuf).
  set (w2 := apply_loop invoke_apply_record (length (get_write_set w)) 0 nid
               (XctIdOps.set_deleted nid) w1) in *.
  unfold apply_lock_free.
  pose proof (stamp_all_spec nid (lock_free_write_set_ (current_xct_ w2)) w2) as Hlf.
  cbn zeta in Hlf. destruct Hlf as (Hx3 & Hh3 & Hb3 & Hl3 & Hs3).
  set (w3 := fold_left _ _ w2) in *.
  assert (Hws3 : get_write_set w3 = get_write_set w2).
  { unfold get_write_set. by rewrite Hx3. }
  rewrite Hws3. split; [done|]. split; [done|]. split.
  { exists evs. by rewrite Hh3. }
  split.
  { intros e He. destruct (Hl3 (log_entry_ e)) as [->| ->]; [done|]. by apply Hlogged. }
  split.
  { intros lf Hlf. apply Hs3. by rewrite Hxct. }
  split; [by rewrite Hx3, Hxct | by rewrite Hb3, Hbuf].
Qed.

(** Phase 3 leaves in [*commit_epoch] the epoch that it was given. *)
Lemma precommit_xct_apply_epoch (w : World) (mx : XctId) (ce : Z) :
  (precommit_xct_apply invoke_apply_record w mx ce).2 = ce.
Proof. reflexivity. Qed.

End Phase3.

(** ** Runs of equal addresses in a sorted write set *)

Lemma address_erase (e : WriteXctAccess) :
  owner_id_address_ (erase_block e) = owner_id_address_ e.
Proof. reflexivity. Qed.

Lemma addresses_erase (l1 l2 : list WriteXctAccess) :
  erase_block <$> l1 = erase_block <$> l2 ->
  owner_id_address_ <$> l1 = owner_id_address_ <$> l2.
Proof.
  intros H. apply (f_equal (fmap owner_id_address_)) in H.
  rewrite <- !list_fmap_compose in H. exact H.
Qed.

Lemma sorted_by_address_erase (l1 l2 : list WriteXctAccess) :
  erase_block <$> l1 = erase_block <$> l2 ->
  sorted_by_address l2 -> sorted_by_address l1.
Proof. unfold sorted_by_address. intros H. by rewrite (addresses_erase _ _ H). Qed.

Lemma sorted_by_address_cons (e : WriteXctAccess) (ws : list WriteXctAccess) :
  sorted_by_address (e :: ws) <->
  Forall (fun e' => owner_id_address_ e <= owner_id_address_ e') ws
  /\ sorted_by_address ws.
Proof.
  unfold sorted_by_address. rewrite fmap_cons, StronglySorted_cons, Forall_fmap. done.
Qed.

Lemma sorted_by_address_lookup (ws : list WriteXctAccess) :
  sorted_by_address ws ->
  forall (i j : nat) (e e' : WriteXctAccess),
    (i < j)%nat -> ws !! i = Some e -> ws !! j = Some e' ->
    owner_id_address_ e <= owner_id_address_ e'.
Proof.
  induction ws as [|x rest IH]; intros Hs i j e e' Hij Hi Hj; [done|].
  apply sorted_by_address_cons in Hs as [Hall Hs].
  destruct j as [|j]; [lia|]. cbn in Hj.
  destruct i as [|i].
  - cbn in Hi. injection Hi as ->.
    rewrite Forall_forall in Hall. apply Hall. by eapply list_elem_of_lookup_2.
  - cbn in Hi. eapply (IH Hs i j); [lia|done|done].
Qed.

Lemma same_address_false_iff (e : WriteXctAccess) (o : option WriteXctAccess) :
  same_address e o = false <->
  forall e', o = Some e' -> owner_id_address_ e' <> owner_id_address_ e.
Proof.
  destruct o as [x|]; cbn.
  - rewrite Z.eqb_neq. split.
    + intros H e' [= <-]. congruence.
    + intros H Heq. by apply (H x).
  - split; [by intros _ e'|done].
Qed.

(** In a sorted write set the entry at [i] ends its run exactly when no
    later entry has its address. *)
Lemma run_end_last_occurrence (ws : list WriteXctAccess) (i : nat) (e : WriteXctAccess) :
  sorted_by_address ws ->
  ws !! i = Some e ->
  same_address e (ws !! S i) = false <-> last_occurrence ws i.
Proof.
  intros Hs Hi. rewrite same_address_false_iff. split.
  - intros Hnext. exists e. split; [done|].
    intros j e' Hij Hj Heq.
    destruct (ws !! S i) as [x|] eqn:Hx.
    2:{ apply lookup_ge_None in Hx. apply lookup_lt_Some in Hj. lia. }
    apply (Hnext x eq_refl).
    pose proof (sorted_by_address_lookup ws Hs i (S i) e x ltac:(lia) Hi Hx).
    destruct (decide (S i = j)) as [<-|Hne]; [congruence|].
    pose proof (sorted_by_address_lookup ws Hs (S i) j x e' ltac:(lia) Hx Hj).
    lia.
  - intros (e0 & Hi0 & Hlast) e' Hx.
    rewrite Hi in Hi0. injection Hi0 as <-.
    apply (Hlast (S i)); [lia|done].
Qed.

Lemma locked_at_run_ends_lookup (ws : list WriteXctAccess) :
  locked_at_run_ends ws ->
  forall (i : nat) (e : WriteXctAccess),
    ws !! i = Some e ->
    mcs_block_ e <> 0 <-> same_address e (ws !! S i) = false.
Proof.
  induction ws as [|x rest IH]; intros Hl i e Hi; [done|].
  destruct Hl as [Hx Hrest].
  destruct i as [|i]; cbn in Hi.
  - injection Hi as ->. by rewrite head_lookup in Hx.
  - by apply IH.
Qed.

Lemma locked_at_run_ends_filter (ws : list WriteXctAccess) :
  locked_at_run_ends ws -> List.filter locked ws = run_ends ws.
Proof.
  induction ws as [|x rest IH]; intros Hl; [done|].
  destruct Hl as [Hx Hrest]. cbn. rewrite (IH Hrest). unfold locked.
  destruct (same_address x (head rest)).
  - destruct (decide (mcs_block_ x = 0)) as [->|Hne]; [done|].
    apply Hx in Hne. done.
  - destruct (Z.eqb_spec (mcs_block_ x) 0) as [Hz|]; [|done].
    exfalso. by apply (proj2 Hx).
Qed.

Lemma run_ends_subset (ws : list WriteXctAccess) (e : WriteXctAccess) :
  e ∈ run_ends ws -> e ∈ ws.
Proof.
  induction ws as [|x rest IH]; cbn; [done|].
  destruct (same_address x (head rest)).
  - intros H. right. by apply IH.
  - intros [->|H]%elem_of_cons; [left|right; by apply IH].
Qed.

(** Every address of the write set is the address of a run end. *)
Lemma run_ends_cover (ws : list WriteXctAccess) (e : WriteXctAccess) :
  e ∈ ws -> owner_id_address_ e ∈ owner_id_address_ <$> run_ends ws.
Proof.
  revert e. induction ws as [|x rest IH]; intros e; [by intros H%elem_of_nil|].
  intros He. cbn [run_ends].
  assert (Hrest : forall y, y ∈ rest ->
            owner_id_address_ y
              ∈ owner_id_address_ <$>
                  (if same_address x (head rest) then run_ends rest else x :: run_ends rest)).
  { intros y Hy. destruct (same_address x (head rest)); [by apply IH|].
    rewrite fmap_cons. right. by apply IH. }
  apply elem_of_cons in He as [->|He]; [|by apply Hrest].
  destruct (head rest) as [y|] eqn:Hy; cbn [same_address].
  - destruct (Z.eqb_spec (owner_id_address_ x) (owner_id_address_ y)) as [Heq|Hne].
    + rewrite Heq. specialize (Hrest y (head_Some_elem_of _ _ Hy)).
      cbn [same_address] in Hrest.
      destruct (Z.eqb_spec (owner_id_address_ x) (owner_id_address_ y)); [done|congruence].
    + rewrite fmap_cons. left.
  - rewrite fmap_cons. left.
Qed.

(** In a sorted write set no two run ends share an address. *)
Lemma run_ends_NoDup (ws : list WriteXctAccess) :
  sorted_by_address ws -> NoDup (owner_id_address_ <$> run_ends ws).
Proof.
  induction ws as [|x rest IH]; intros Hs; cbn [run_ends]; [constructor|].
  apply sorted_by_address_cons in Hs as [Hall Hs].
  destruct (same_address x (head rest)) eqn:Hsame; [by apply IH|].
  rewrite fmap_cons. constructor; [|by apply IH].
  intros (y & Heq & Hy%run_ends_subset)%list_elem_of_fmap.
  destruct rest as [|z rest']; [by apply elem_of_nil in Hy|].
  cbn in Hsame. apply Z.eqb_neq in Hsame.
  apply sorted_by_address_cons in Hs as [Hallz _].
  rewrite Forall_forall in Hall, Hallz.
  pose proof (Hall z ltac:(left)) as Hxz.
  apply elem_of_cons in Hy as [->|Hy]; [congruence|].
  pose proof (Hallz y Hy). lia.
Qed.

(** ** Every acquired lock is released *)

Lemma lock_balance_app (a b : Z) (h1 h2 : list Event) :
  lock_balance a b (h1 ++ h2) = lock_balance a b h1 + lock_balance a b h2.
Proof.
  induction h1 as [|ev rest IH]; cbn [app lock_balance]; [lia|].
  destruct ev; rewrite IH; lia.
Qed.

Lemma lock_balance_forget_id (a b : Z) (h : list Event) :
  lock_balance a b (forget_id <$> h) = lock_balance a b h.
Proof.
  induction h as [|ev rest IH]; [done|].
  rewrite fmap_cons. destruct ev; cbn [forget_id lock_balance]; by rewrite IH.
Qed.

Lemma held_by_app (a b : Z) (l1 l2 : list WriteXctAccess) :
  held_by a b (l1 ++ l2) = held_by a b l1 + held_by a b l2.
Proof. unfold held_by. rewrite List.filter_app, length_app. lia. Qed.

Lemma held_by_cons (a b : Z) (e : WriteXctAccess) (l : list WriteXctAccess) :
  held_by a b (e :: l) = (if holds a b e then 1 else 0) + held_by a b l.
Proof. unfold held_by. cbn [List.filter]. destruct (holds a b e); cbn [length]; lia. Qed.

Lemma held_by_all_unlocked (a b : Z) (ws : list WriteXctAccess) :
  all_unlocked ws -> held_by a b ws = 0.
Proof.
  induction 1 as [|e rest He _ IH]; [done|].
  rewrite held_by_cons, IH. unfold holds, locked. rewrite He. done.
Qed.

Lemma held_by_insert (a b : Z) (ws : list WriteXctAccess) (i : nat) (e e' : WriteXctAccess) :
  ws !! i = Some e ->
  held_by a b (<[i := e']> ws)
  = held_by a b ws - (if holds a b e then 1 else 0) + (if holds a b e' then 1 else 0).
Proof.
  intros Hi.
  rewrite insert_take_drop by (by eapply lookup_lt_Some).
  rewrite <- (take_drop_middle ws i e Hi) at 3.
  rewrite !held_by_app, !held_by_cons. lia.
Qed.

Lemma held_by_run_ends (a b : Z) (ws : list WriteXctAccess) :
  locked_at_run_ends ws ->
  held_by a b ws = lock_balance a b (acquire_event <$> run_ends ws).
Proof.
  intros Hruns. unfold held_by.
  assert (Hsplit : forall l : list WriteXctAccess,
            List.filter (holds a b) l
            = List.filter (fun e => (a =? owner_id_address_ e) && (b =? mcs_block_ e))
                (List.filter locked l)).
  { induction l as [|e rest IH]; [done|]. cbn [List.filter]. unfold holds at 1.
    destruct (locked e); cbn [andb List.filter]; rewrite IH; [|done].
    by destruct ((a =? owner_id_address_ e) && (b =? mcs_block_ e)). }
  rewrite Hsplit, (locked_at_run_ends_filter _ Hruns).
  induction (run_ends ws) as [|e rest IH]; [done|].
  rewrite fmap_cons. cbn [List.filter acquire_event lock_balance].
  destruct ((a =? owner_id_address_ e) && (b =? mcs_block_ e)); cbn [length]; lia.
Qed.

Lemma lock_balance_finalize_release (a b : Z) (l : list WriteXctAccess) :
  lock_balance a b (flat_map finalize_release l)
  = - lock_balance a b (acquire_event <$> l).
Proof.
  induction l as [|e rest IH]; [done|].
  rewrite fmap_cons. cbn [flat_map finalize_release app acquire_event lock_balance].
  rewrite IH. destruct ((a =? owner_id_address_ e) && (b =? mcs_block_ e)); lia.
Qed.

(** The unlock pass releases what the write set holds, no more and no less. *)
Lemma unlock_entries_balance (a b : Z) (ws : list WriteXctAccess) :
  forall w : World,
    lock_balance a b (history_ (unlock_entries ws w).2)
    = lock_balance a b (history_ w) - held_by a b ws.
Proof.
  induction ws as [|e rest IH]; intros w; cbn [unlock_entries].
  - cbn [snd]. unfold held_by. cbn. lia.
  - rewrite held_by_cons. unfold holds, locked.
    destruct (negb (mcs_block_ e =? 0)) eqn:Hb; cbn [andb].
    + specialize (IH (mcs_release_lock (owner_id_address_ e) (mcs_block_ e) w)).
      destruct (unlock_entries rest _) as [rest' w2]. cbn [snd] in *.
      rewrite IH, history_mcs_release_lock, lock_balance_app. cbn [lock_balance].
      destruct ((a =? owner_id_address_ e) && (b =? mcs_block_ e)); lia.
    + specialize (IH w). destruct (unlock_entries rest w) as [rest' w2]. cbn [snd] in *.
      rewrite IH. lia.
Qed.

Lemma precommit_xct_unlock_balance (a b : Z) (w : World) :
  lock_balance a b (history_ (precommit_xct_unlock w))
  = lock_balance a b (history_ w) - held_by a b (get_write_set w).
Proof.
  unfold precommit_xct_unlock.
  pose proof (unlock_entries_balance a b (get_write_set w) w) as H.
  destruct (unlock_entries (get_write_set w) w) as [ws w1]. exact H.
Qed.

(** A pass of the locking loop keeps the balance of the history and the
    locks held by the write set in step. *)
Lemma lock_loop_balance (a b : Z) (todo : nat) :
  forall (i : nat) (w : World) (mx : XctId) (r : bool) (w' : World) (mx' : XctId),
    lock_loop todo i w mx = (r, w', mx') ->
    0 <= mcs_block_current_ (current_xct_ w) ->
    all_unlocked (drop i (get_write_set w)) ->
    lock_balance a b (history_ w') - held_by a b (get_write_set w')
    = lock_balance a b (history_ w) - held_by a b (get_write_set w).
Proof.
  induction todo as [|todo IH]; intros i w mx r w' mx' Hrun Hcur Hzero.
  - cbn in Hrun. by injection Hrun as <- <- <-.
  - cbn [lock_loop] in Hrun.
    destruct (get_write_set w !! i) as [e|] eqn:Hi.
    2:{ by injection Hrun as <- <- <-. }
    rewrite (drop_S _ _ _ Hi) in Hzero.
    inversion Hzero as [|? ? He0 Hzero']; subst.
    destruct (same_address e (get_write_set w !! S i)); [by eapply IH|].
    destruct (mcs_acquire_lock (owner_id_address_ e) w) as [block w1] eqn:Hacq.
    apply mcs_acquire_lock_spec in Hacq as (Hblock & Hws1 & Hh1 & Hc1 & _ & _).
    rewrite Hws1 in Hrun.
    set (w2 := set_write_set (<[i := set_mcs_block block e]> (get_write_set w)) w1) in *.
    assert (Hstep : lock_balance a b (history_ w2) - held_by a b (get_write_set w2)
                    = lock_balance a b (history_ w) - held_by a b (get_write_set w)).
    { subst w2. rewrite get_set_write_set, history_set_write_set, Hh1, lock_balance_app.
      rewrite (held_by_insert _ _ _ _ _ _ Hi). cbn [lock_balance].
      unfold holds, locked. rewrite He0. cbn [mcs_block_ owner_id_address_ set_mcs_block].
      destruct (Z.eqb_spec block 0); [lia|]. cbn [negb andb].
      change (0 =? 0) with true. cbn [negb andb].
      destruct ((a =? owner_id_address_ e) && (b =? block)); lia. }
    match type of Hrun with
    | (if is_moved ?o then _ else _) = _ => destruct (is_moved o)
    end.
    + injection Hrun as <- <- <-.
      rewrite precommit_xct_unlock_balance.
      rewrite (held_by_all_unlocked _ _ _ (precommit_xct_unlock_all_unlocked w2)). lia.
    + apply IH in Hrun.
      * lia.
      * subst w2. rewrite block_current_set_write_set. lia.
      * subst w2. by rewrite get_set_write_set, drop_insert_lt by lia.
Qed.

Section Phase1Balance.

Variable track_moved_record : Memory -> Z -> WriteXctAccess -> option (Z * Z).
Variable std_sort : list WriteXctAccess -> list WriteXctAccess.
Hypothesis std_sort_perm : forall l, std_sort l ≡ₚ l.

Lemma precommit_xct_lock_balance (a b : Z) (fuel : nat) :
  forall (w : World) (mx : XctId) (ok : bool) (w' : World) (mx' : XctId),
    precommit_xct_lock track_moved_record std_sort fuel w mx = Some (ok, w', mx') ->
    0 <= mcs_block_current_ (current_xct_ w) ->
    all_unlocked (get_write_set w) ->
    lock_balance a b (history_ w') - held_by a b (get_write_set w')
    = lock_balance a b (history_ w).
Proof.
  induction fuel as [|fuel IH]; intros w mx ok w' mx' Hrun Hcur Hzero; [done|].
  cbn [precommit_xct_lock] in Hrun.
  pose proof (track_moved_pass_all_unlocked track_moved_record (memory_ w) _ Hzero) as Htz.
  destruct (track_moved_pass _ _ _) as [tok tracked]. cbn [snd] in Htz.
  destruct tok; cbn [negb] in Hrun.
  2:{ injection Hrun as <- <- <-.
      rewrite get_set_write_set, history_set_write_set, held_by_all_unlocked by done. lia. }
  assert (Hsorted : all_unlocked (std_sort tracked)).
  { by apply std_sort_all_unlocked. }
  destruct (lock_loop _ 0 _ mx) as [[retry w2] mx2] eqn:Hloop.
  pose proof (lock_loop_block_current _ _ _ _ _ _ _ Hloop) as Hmono.
  pose proof (lock_loop_balance a b _ _ _ _ _ _ _ Hloop) as Hbal.
  rewrite block_current_set_write_set in Hmono, Hbal.
  rewrite get_set_write_set, history_set_write_set in Hbal.
  rewrite (held_by_all_unlocked _ _ _ Hsorted) in Hbal.
  specialize (Hbal Hcur Hsorted).
  destruct retry; cbn [negb] in Hrun.
  - apply lock_loop_spec in Hloop; cbn [drop];
      [| done | by rewrite block_current_set_write_set
       | by rewrite get_set_write_set].
    apply IH in Hrun; [|lia|done].
    rewrite (held_by_all_unlocked _ _ _ Hloop) in Hbal. lia.
  - injection Hrun as <- <- <-. lia.
Qed.

End Phase1Balance.

(** ** Verification touches the read set only *)

Lemma precommit_xct_verify_readwrite_frame
    (track_moved_record_read : Memory -> Z -> Z -> Z)
    (w : World) (mx : XctId) (v : bool) (w' : World) (mx' : XctId) :
  precommit_xct_verify_readwrite track_moved_record_read w mx = (v, w', mx') ->
  exists rs, w' = set_read_set rs w.
Proof.
  unfold precommit_xct_verify_readwrite.
  destruct (verify_read_set_readwrite _ _ _ _) as [[ok rs] m].
  destruct (negb ok); [intros [= <- <- <-]; by exists rs|].
  destruct (negb (precommit_xct_verify_pointer_set _)); [intros [= <- <- <-]; by exists rs|].
  destruct (negb (precommit_xct_verify_page_version_set _)); intros [= <- <- <-]; by exists rs.
Qed.

Lemma precommit_xct_verify_readonly_frame
    (track_moved_record_read : Memory -> Z -> Z -> Z)
    (w : World) (ce : Z) (v : bool) (w' : World) (ce' : Z) :
  precommit_xct_verify_readonly track_moved_record_read w ce = (v, w', ce') ->
  exists rs, w' = set_read_set rs w.
Proof.
  unfold precommit_xct_verify_readonly.
  destruct (verify_read_set_readonly _ _ _ _) as [[ok rs] m].
  destruct (negb ok); [intros [= <- <- <-]; by exists rs|].
  destruct (negb (precommit_xct_verify_pointer_set _)); [intros [= <- <- <-]; by exists rs|].
  destruct (negb (precommit_xct_verify_page_version_set _)); intros [= <- <- <-]; by exists rs.
Qed.

(** ** The sort used to run the model *)

Lemma sort_by_address_perm (l : list WriteXctAccess) : sort_by_address l ≡ₚ l.
Proof. apply merge_sort_Permutation. Qed.

Lemma sort_by_address_sorted (l : list WriteXctAccess) :
  sorted_by_address (sort_by_address l).
Proof.
  unfold sorted_by_address, sort_by_address.
  apply (StronglySorted_fmap owner_id_address_ address_le Z.le); [done|].
  apply StronglySorted_merge_sort.
  - intros x y z. unfold address_le. lia.
  - intros x y. unfold address_le. lia.
Qed.

Lemma write_set_set_read_set (rs : list XctAccess) (w : World) :
  get_write_set (set_read_set rs w) = get_write_set w.
Proof. reflexivity. Qed.
Lemma write_set_set_in_commit_log_epoch (e : Z) (w : World) :
  get_write_set (set_in_commit_log_epoch e w) = get_write_set w.
Proof. reflexivity. Qed.
Lemma write_set_with_log_buffer (b : ThreadLogBuffer) (w : World) :
  get_write_set (with_log_buffer b w) = get_write_set w.
Proof. reflexivity. Qed.
Lemma write_set_with_xct_deactivate (w : World) :
  get_write_set (with_xct (deactivate (current_xct_ w)) w) = get_write_set w.
Proof. reflexivity. Qed.
Lemma history_set_read_set (rs : list XctAccess) (w : World) :
  history_ (set_read_set rs w) = history_ w.
Proof. reflexivity. Qed.
Lemma history_set_in_commit_log_epoch (e : Z) (w : World) :
  history_ (set_in_commit_log_epoch e w) = history_ w.
Proof. reflexivity. Qed.
Lemma block_current_set_in_commit_log_epoch (e : Z) (w : World) :
  mcs_block_current_ (current_xct_ (set_in_commit_log_epoch e w))
  = mcs_block_current_ (current_xct_ w).
Proof. reflexivity. Qed.

#[local] Hint Rewrite write_set_set_read_set write_set_set_in_commit_log_epoch
  write_set_with_log_buffer write_set_with_xct_deactivate history_set_read_set
  history_set_in_commit_log_epoch : world.

(** ** Epochs that have not wrapped around *)

Lemma Epoch_store_max_unwrapped (a b : Z) :
  0 <= a < Epoch.kEpochIntHalf -> 0 <= b < Epoch.kEpochIntHalf ->
  Epoch.store_max a b = Z.max a b.
Proof.
  unfold Epoch.store_max, Epoch.is_valid, Epoch.before, Epoch.kEpochInvalid,
    Epoch.kEpochIntHalf, Epoch.kEpochIntOverflow.
  intros Ha Hb. cbn zeta.
  destruct (Z.eqb_spec a 0) as [->|Hne]; cbn [negb orb]; [lia|].
  destruct (Z_lt_le_dec a b) as [Hlt|Hle].
  - rewrite (Z.mod_small (b - a)) by lia.
    destruct (Z.ltb_spec 0 (b - a)); [|lia].
    destruct (Z.ltb_spec (b - a) (2 ^ 31)); [|lia]. cbn. lia.
  - destruct (Z.eq_dec a b) as [->|Hab].
    + rewrite Z.max_id. by destruct (_ && _).
    + replace ((b - a) mod 2 ^ 32) with (b - a + 2 ^ 32).
      2:{ symmetry. rewrite <- (Z.mod_add (b - a) 1 (2 ^ 32)) by lia.
          rewrite Z.mul_1_l. apply Z.mod_small. lia. }
      destruct (Z.ltb_spec 0 (b - a + 2 ^ 32)); [|lia].
      destruct (Z.ltb_spec (b - a + 2 ^ 32) (2 ^ 31)); [lia|]. cbn. lia.
Qed.

Lemma max_observed_epoch_bounds (rs : list XctAccess) :
  epochs_unwrapped rs -> 0 <= max_observed_epoch rs < Epoch.kEpochIntHalf.
Proof.
  induction 1 as [|access rest Ha _ IH]; cbn [max_observed_epoch foldr].
  - unfold Epoch.kEpochIntHalf. lia.
  - fold (max_observed_epoch rest). lia.
Qed.

Lemma epoch_offset_range (base e : Z) : 0 <= epoch_offset base e < Epoch.kEpochIntOverflow.
Proof. unfold epoch_offset, Epoch.kEpochIntOverflow. apply Z.mod_pos_bound. lia. Qed.

Lemma epoch_offset_inj (base a b : Z) :
  0 <= a < Epoch.kEpochIntOverflow -> 0 <= b < Epoch.kEpochIntOverflow ->
  epoch_offset base a = epoch_offset base b -> a = b.
Proof.
  unfold epoch_offset. intros Ha Hb Heq.
  rewrite <- (Z.mod_small a Epoch.kEpochIntOverflow), <- (Z.mod_small b Epoch.kEpochIntOverflow)
    by done.
  replace a with (a - base + base) by lia. replace b with (b - base + base) by lia.
  rewrite <- (Zplus_mod_idemp_l (a - base)), <- (Zplus_mod_idemp_l (b - base)).
  by rewrite Heq.
Qed.

(** Within a window the cyclic order is the order of the offsets. *)
Lemma Epoch_before_window (base a b : Z) :
  epoch_offset base a < Epoch.kEpochIntHalf ->
  epoch_offset base b < Epoch.kEpochIntHalf ->
  Epoch.before a b = (epoch_offset base a <? epoch_offset base b).
Proof.
  intros Ha Hb.
  pose proof (epoch_offset_range base a) as Ra. pose proof (epoch_offset_range base b) as Rb.
  unfold Epoch.before. cbn zeta.
  replace ((b - a) mod Epoch.kEpochIntOverflow)
    with ((epoch_offset base b - epoch_offset base a) mod Epoch.kEpochIntOverflow).
  2:{ unfold epoch_offset. rewrite <- Zminus_mod. f_equal. lia. }
  unfold Epoch.kEpochIntHalf, Epoch.kEpochIntOverflow in *.
  set (x := epoch_offset base a) in *. set (y := epoch_offset base b) in *.
  destruct (Z.ltb_spec x y) as [Hlt|Hge].
  - rewrite Z.mod_small by lia.
    destruct (Z.ltb_spec 0 (y - x)); [|lia]. destruct (Z.ltb_spec (y - x) (2 ^ 31)); [done|lia].
  - destruct (Z.eq_dec x y) as [->|Hne].
    + by rewrite Z.sub_diag.
    + replace ((y - x) mod 2 ^ 32) with (y - x + 2 ^ 32).
      2:{ symmetry. rewrite <- (Z.mod_add (y - x) 1 (2 ^ 32)) by lia.
          rewrite Z.mul_1_l. apply Z.mod_small. lia. }
      destruct (Z.ltb_spec 0 (y - x + 2 ^ 32)); [|lia].
      destruct (Z.ltb_spec (y - x + 2 ^ 32) (2 ^ 31)); [lia|done].
Qed.

Lemma Epoch_store_max_window (base a b : Z) :
  a = 0 \/ (a <> 0 /\ epoch_offset base a < Epoch.kEpochIntHalf) ->
  epoch_offset base b < Epoch.kEpochIntHalf ->
  Epoch.store_max a b
  = if (a =? 0) || (epoch_offset base a <? epoch_offset base b) then b else a.
Proof.
  intros Ha Hb. unfold Epoch.store_max, Epoch.is_valid, Epoch.kEpochInvalid.
  destruct (Z.eqb_spec a 0) as [->|Hne]; cbn [negb orb]; [done|].
  destruct Ha as [?|[_ Ha]]; [done|].
  by rewrite (Epoch_before_window base).
Qed.

Section ReadSet.

Variable track_moved_record_read : Memory -> Z -> Z -> Z.

Lemma observed_track_read (m : Memory) (access : XctAccess) :
  observed_owner_id_ (track_read track_moved_record_read m access)
  = observed_owner_id_ access.
Proof. unfold track_read. by destruct (is_moved _). Qed.

(** The read-set loop of the read-only path accumulates the maximum. *)
Lemma verify_read_set_readonly_max (m : Memory) (rs : list XctAccess) :
  forall (ce : Z) (rs' : list XctAccess) (ce' : Z),
    epochs_unwrapped rs ->
    0 <= ce < Epoch.kEpochIntHalf ->
    verify_read_set_readonly track_moved_record_read m rs ce = (true, rs', ce') ->
    ce' = Z.max ce (max_observed_epoch rs).
Proof.
  induction rs as [|access rest IH]; intros ce rs' ce' Hb Hce Hrun.
  - cbn in Hrun. injection Hrun as <- <-. cbn. lia.
  - inversion Hb as [|? ? Ha Hrest]; subst.
    cbn [verify_read_set_readonly] in Hrun.
    destruct (negb (read_unchanged _ _)); [done|].
    unfold XctIdOps.get_epoch in Hrun. rewrite observed_track_read in Hrun.
    rewrite Epoch_store_max_unwrapped in Hrun by done.
    destruct (verify_read_set_readonly _ _ rest _) as [[ok rest'] ce1] eqn:Hrec.
    injection Hrun as -> <- <-.
    apply IH in Hrec; [|done|unfold Epoch.kEpochIntHalf in *; lia].
    cbn [max_observed_epoch foldr]. fold (max_observed_epoch rest). lia.
Qed.

(** Within a window the read-set loop ends with the latest epoch seen. *)
Lemma verify_read_set_readonly_window (base : Z) (m : Memory) (rs : list XctAccess) :
  forall (ce : Z) (rs' : list XctAccess) (ce' : Z),
    epochs_in_window base rs ->
    ce = 0 \/ (ce <> 0 /\ epoch_offset base ce < Epoch.kEpochIntHalf) ->
    verify_read_set_readonly track_moved_record_read m rs ce = (true, rs', ce') ->
    (ce' = ce \/ exists access, access ∈ rs /\ epoch_ (observed_owner_id_ access) = ce')
    /\ (ce <> 0 -> ce' <> 0 /\ epoch_offset base ce <= epoch_offset base ce')
    /\ (forall access, access ∈ rs ->
          ce' <> 0
          /\ epoch_offset base (epoch_ (observed_owner_id_ access)) <= epoch_offset base ce').
Proof.
  induction rs as [|access rest IH]; intros ce rs' ce' Hw Hce Hrun.
  - cbn in Hrun. injection Hrun as <- <-.
    split; [by left|]. split; [done|]. intros access H. by apply elem_of_nil in H.
  - inversion Hw as [|? ? [He Hoff] Hrest]; subst.
    cbn [verify_read_set_readonly] in Hrun.
    destruct (negb (read_unchanged _ _)); [done|].
    unfold XctIdOps.get_epoch in Hrun. rewrite observed_track_read in Hrun.
    rewrite (Epoch_store_max_window base) in Hrun by done.
    set (e := epoch_ (observed_owner_id_ access)) in *.
    destruct (verify_read_set_readonly _ _ rest _) as [[ok rest'] ce1] eqn:Hrec.
    injection Hrun as -> <- <-.
    apply IH in Hrec; [|done|].
    2:{ destruct ((ce =? 0) || (epoch_offset base ce <? epoch_offset base e)) eqn:Hb.
        - right. split; [lia|done].
        - apply orb_false_iff in Hb as [Hz%Z.eqb_neq _].
          destruct Hce as [->|Hce]; [done|by right]. }
    destruct Hrec as (Hin & Hmono & Hall).
    assert (Hacc : (if (ce =? 0) || (epoch_offset base ce <? epoch_offset base e)
                    then e else ce) <> 0).
    { destruct (Z.eqb_spec ce 0); cbn [orb]; [lia|].
      destruct (_ <? _); lia. }
    destruct (Hmono Hacc) as [Hnz Hle].
    split; [|split].
    + destruct Hin as [->|(access' & Hin' & Heq)].
      * destruct ((ce =? 0) || (epoch_offset base ce <? epoch_offset base e)).
        -- right. exists access. split; [left|done].
        -- by left.
      * right. exists access'. split; [by right|done].
    + intros Hne. split; [done|].
      destruct (Z.eqb_spec ce 0); [done|]. cbn [orb] in Hle.
      destruct (Z.ltb_spec (epoch_offset base ce) (epoch_offset base e)); lia.
    + intros access' [->|Hin']%elem_of_cons; [|by apply Hall].
      split; [done|]. fold e.
      destruct (Z.eqb_spec ce 0); cbn [orb] in Hle; [done|].
      destruct (Z.ltb_spec (epoch_offset base ce) (epoch_offset base e)); lia.
Qed.

End ReadSet.

(** ** The commit protocol as a whole *)

Section ReadWriteShape.

Variable track_moved_record : Memory -> Z -> WriteXctAccess -> option (Z * Z).
Variable track_moved_record_read : Memory -> Z -> Z -> Z.
Variable invoke_apply_record : Memory -> WriteXctAccess -> XctId.
Variable std_sort : list WriteXctAccess -> list WriteXctAccess.

(** [precommit_xct_readwrite] with the epoch that Phase 3 hands back
    replaced by the serialization epoch, which it is. *)
Lemma precommit_xct_readwrite_unfold (fuel : nat) (w : World) (commit_epoch : Z) :
  precommit_xct_readwrite track_moved_record track_moved_record_read
    invoke_apply_record std_sort fuel w commit_epoch
  = match precommit_xct_lock track_moved_record std_sort fuel w
            (XctIdOps.set Epoch.kEpochInitialDurable 1) with
    | None => None
    | Some (false, w1, _) => Some (false, w1, commit_epoch)
    | Some (true, w1, max1) =>
        let w2 := set_in_commit_log_epoch (get_current_global_epoch_weak w1) w1 in
        let ce := get_current_global_epoch_weak w2 in
        let '(verified, w3, max2) :=
          precommit_xct_verify_readwrite track_moved_record_read w2 max1 in
        let w4 :=
          if verified
          then
            let w' := (precommit_xct_apply invoke_apply_record w3 max2 ce).1 in
            with_log_buffer (publish_committed_log ce (log_buffer_ w')) w'
          else precommit_xct_unlock w3 in
        Some (verified, set_in_commit_log_epoch Epoch.kEpochInvalid w4, ce)
    end.
Proof.
  unfold precommit_xct_readwrite.
  destruct (precommit_xct_lock _ _ _ _ _) as [[[[] w1] max1]|]; [|done|done].
  cbn zeta.
  destruct (precommit_xct_verify_readwrite _ _ _) as [[[] w3] max2]; reflexivity.
Qed.

End ReadWriteShape.

Section CommitProtocol.

Variable track_moved_record : Memory -> Z -> WriteXctAccess -> option (Z * Z).
Variable track_moved_record_read : Memory -> Z -> Z -> Z.
Variable invoke_apply_record : Memory -> WriteXctAccess -> XctId.
Variable std_sort : list WriteXctAccess -> list WriteXctAccess.
Hypothesis std_sort_perm : forall l, std_sort l ≡ₚ l.
Hypothesis std_sort_sorted : forall l, sorted_by_address (std_sort l).

#[local] Abbreviation readwrite :=
  (precommit_xct_readwrite track_moved_record track_moved_record_read
     invoke_apply_record std_sort).
#[local] Abbreviation precommit :=
  (precommit_xct track_moved_record track_moved_record_read
     invoke_apply_record std_sort).

Lemma precommit_xct_apply_balance (a b : Z) (w : World) (mx : XctId) (ce : Z) :
  locked_at_run_ends (get_write_set w) ->
  lock_balance a b (history_ (precommit_xct_apply invoke_apply_record w mx ce).1)
  = lock_balance a b (history_ w) - held_by a b (get_write_set w).
Proof.
  intros Hruns.
  pose proof (precommit_xct_apply_spec invoke_apply_record w mx ce) as Happly.
  cbn zeta in Happly. destruct Happly as (_ & _ & (evs & -> & Hshape & _) & _).
  rewrite lock_balance_app, <- (lock_balance_forget_id a b evs), Hshape.
  rewrite lock_balance_finalize_release, (held_by_run_ends _ _ _ Hruns). lia.
Qed.

Lemma precommit_xct_readwrite_all_unlocked
    (fuel : nat) (w : World) (ce : Z) (v : bool) (w' : World) (ce' : Z) :
  0 <= mcs_block_current_ (current_xct_ w) ->
  all_unlocked (get_write_set w) ->
  readwrite fuel w ce = Some (v, w', ce') ->
  all_unlocked (get_write_set w')
  /\ forall a b, lock_balance a b (history_ w') = lock_balance a b (history_ w).
Proof.
  intros Hcur Hzero. rewrite precommit_xct_readwrite_unfold; cbn zeta.
  destruct (precommit_xct_lock _ _ _ _ _) as [[[ok w1] mx1]|] eqn:Hlock; [|done].
  pose proof (fun a b => precommit_xct_lock_balance _ _ std_sort_perm a b _ _ _ _ _ _
                           Hlock Hcur Hzero) as Hbal.
  apply (precommit_xct_lock_spec _ _ std_sort_perm) in Hlock; [|done|done].
  destruct ok.
  2:{ intros [= <- <- <-]. split; [done|]. intros a b.
      specialize (Hbal a b). rewrite held_by_all_unlocked in Hbal by done. lia. }
  destruct Hlock as (_ & Hruns & _ & _).
  destruct (precommit_xct_verify_readwrite _ _ _) as [[verified w3] mx2] eqn:Hver.
  apply precommit_xct_verify_readwrite_frame in Hver as [rs ->].
  remember (precommit_xct_apply invoke_apply_record _ _ _) as applied eqn:Happlied.
  intros [= <- <- <-]. subst applied. autorewrite with world.
  destruct verified.
  - autorewrite with world. split.
    + apply precommit_xct_apply_spec. by autorewrite with world.
    + intros a b. change (history_ (with_log_buffer ?b0 ?w0)) with (history_ w0).
      rewrite precommit_xct_apply_balance by (by autorewrite with world).
      autorewrite with world. apply Hbal.
  - split; [apply precommit_xct_unlock_all_unlocked|].
    intros a b. rewrite precommit_xct_unlock_balance.
    autorewrite with world. apply Hbal.
Qed.

(** [precommit_xct] returns after one pass of Phase 1 when no owner word of
    the write set has moved. *)
Lemma precommit_xct_returns (w : World) (commit_epoch : Z) :
  none_moved w -> exists r, precommit 1%nat w commit_epoch = Some r.
Proof.
  intros Hnm. unfold precommit_xct.
  destruct (negb (is_active (current_xct_ w))); [by eexists|].
  destruct (is_read_only (current_xct_ w)).
  - destruct (precommit_xct_readonly _ _) as [[v w1] ce1]. destruct v; by eexists.
  - rewrite precommit_xct_readwrite_unfold; cbn zeta.
    destruct (precommit_xct_lock_returns track_moved_record std_sort std_sort_perm 0 w
                (XctIdOps.set Epoch.kEpochInitialDurable 1) Hnm) as (w1 & mx1 & ->).
    destruct (precommit_xct_verify_readwrite _ _ _) as [[verified w3] mx2].
    destruct verified; by eexists.
Qed.

(** C10: [precommit_xct] returns when no owner word of the write set has
    moved, and whenever it returns, with whatever code, no entry of the
    write set is left with a lock: [mcs_block_] is 0 everywhere, on the
    commit path (the apply phase released the locks), after a failed
    verification and after a failed tracking (the unlock pass released
    them); and the call has released every lock as often as it has
    acquired it. *)
Theorem precommit_xct_leaves_write_set_unlocked (w : World) (commit_epoch : Z) :
  0 <= mcs_block_current_ (current_xct_ w) ->
  all_unlocked (get_write_set w) ->
  (none_moved w -> exists r, precommit 1%nat w commit_epoch = Some r)
  /\ (forall (fuel : nat) (code : ErrorCode) (w' : World) (commit_epoch' : Z),
        precommit fuel w commit_epoch = Some (code, w', commit_epoch') ->
        (code = kErrorCodeOk \/ code = kErrorCodeXctRaceAbort
         \/ code = kErrorCodeXctNoXct)
        /\ Forall (fun e => mcs_block_ e = 0) (write_set_ (current_xct_ w'))
        /\ forall a b, lock_balance a b (history_ w') = lock_balance a b (history_ w)).
Proof.
  intros Hcur Hzero. split; [apply precommit_xct_returns|].
  intros fuel code w' ce'. unfold precommit_xct.
  destruct (negb (is_active (current_xct_ w))).
  { intros [= <- <- <-]. split; [tauto|]. split; [exact Hzero|done]. }
  destruct (is_read_only (current_xct_ w)).
  - unfold precommit_xct_readonly.
    destruct (precommit_xct_verify_readonly _ _ _) as [[v w1] ce1] eqn:Hver.
    apply precommit_xct_verify_readonly_frame in Hver as [rs ->].
    destruct v; intros [= <- <- <-]; (split; [tauto|]); (split; [exact Hzero|done]).
  - destruct (precommit_xct_readwrite _ _ _ _ _ _ _) as [[[v w1] ce1]|] eqn:Hrw; [|done].
    apply precommit_xct_readwrite_all_unlocked in Hrw as [Hrw Hbal]; [|done|done].
    destruct v; intros [= <- <- <-]; (split; [tauto|]); (split; [exact Hrw|exact Hbal]).
Qed.

(** C9: when [precommit_xct] returns [kErrorCodeXctRaceAbort], the log
    buffer is the one the call started with after
    [discard_current_xct_log]: its tail is back at the committed offset,
    nothing was published, and the context is ready for [begin_xct]. *)
Theorem precommit_xct_race_abort_discards_log
    (fuel : nat) (w : World) (commit_epoch : Z) (w' : World) (commit_epoch' : Z)
    (level : IsolationLevel) :
  precommit fuel w commit_epoch = Some (kErrorCodeXctRaceAbort, w', commit_epoch') ->
  log_buffer_ w' = discard_current_xct_log (log_buffer_ w)
  /\ offset_tail_ (log_buffer_ w') = offset_committed_ (log_buffer_ w')
  /\ offset_committed_ (log_buffer_ w') = offset_committed_ (log_buffer_ w)
  /\ is_active (current_xct_ w') = false
  /\ fst (begin_xct level w') = kErrorCodeOk.
Proof.
  unfold precommit_xct.
  destruct (negb (is_active (current_xct_ w))); [done|].
  assert (Hgoal : forall (w1 : World),
    log_buffer_ w1 = log_buffer_ w ->
    let w2 := with_xct (deactivate (current_xct_ w1)) w1 in
    let w3 := with_log_buffer (discard_current_xct_log (log_buffer_ w2)) w2 in
    log_buffer_ w3 = discard_current_xct_log (log_buffer_ w)
    /\ offset_tail_ (log_buffer_ w3) = offset_committed_ (log_buffer_ w3)
    /\ offset_committed_ (log_buffer_ w3) = offset_committed_ (log_buffer_ w)
    /\ is_active (current_xct_ w3) = false
    /\ fst (begin_xct level w3) = kErrorCodeOk).
  { intros w1 Hb. cbn. rewrite Hb. done. }
  destruct (is_read_only (current_xct_ w)).
  - unfold precommit_xct_readonly.
    destruct (precommit_xct_verify_readonly _ _ _) as [[v w1] ce1] eqn:Hver.
    apply precommit_xct_verify_readonly_frame in Hver as [rs ->].
    destruct v; [done|]. intros [= <- <-]. by apply Hgoal.
  - rewrite precommit_xct_readwrite_unfold; cbn zeta.
    destruct (precommit_xct_lock _ _ _ _ _) as [[[ok w1] mx1]|] eqn:Hlock; [|done].
    apply precommit_xct_lock_log_buffer in Hlock.
    destruct ok.
    2:{ intros [= <- <-]. by apply Hgoal. }
    destruct (precommit_xct_verify_readwrite _ _ _) as [[verified w3] mx2] eqn:Hver.
    apply precommit_xct_verify_readwrite_frame in Hver as [rs ->].
    destruct verified; [done|]. intros [= <- <-]. apply Hgoal.
    cbn. by rewrite precommit_xct_unlock_log_buffer.
Qed.

(** C3, as the code has it: without an active transaction the call returns
    [kErrorCodeXctNoXct] and changes nothing.  With a read-only one it
    returns [kErrorCodeOk] when verification passes and
    [kErrorCodeXctRaceAbort] when it fails.  With a read-write one it
    returns as soon as Phase 1 does: [kErrorCodeXctRaceAbort] when the
    tracking of a moved record failed there, otherwise [kErrorCodeOk] when
    verification passes and [kErrorCodeXctRaceAbort] when it fails.  In
    every case with an active transaction the context is inactive
    afterwards.  The call returns after one pass of Phase 1 when no owner
    word of the write set has moved. *)
Theorem precommit_xct_outcome (fuel : nat) (w : World) (commit_epoch : Z) :
  (is_active (current_xct_ w) = false ->
   precommit fuel w commit_epoch = Some (kErrorCodeXctNoXct, w, commit_epoch))
  /\ (is_active (current_xct_ w) = true ->
      is_read_only (current_xct_ w) = true ->
      let r := precommit_xct_verify_readonly track_moved_record_read w Epoch.kEpochInvalid in
      exists w',
        precommit fuel w commit_epoch
        = Some (if fst (fst r) then kErrorCodeOk else kErrorCodeXctRaceAbort, w', snd r)
        /\ is_active (current_xct_ w') = false)
  /\ (is_active (current_xct_ w) = true ->
      is_read_only (current_xct_ w) = false ->
      match precommit_xct_lock track_moved_record std_sort fuel w
              (XctIdOps.set Epoch.kEpochInitialDurable 1) with
      | None => precommit fuel w commit_epoch = None
      | Some (false, _, _) =>
          exists w',
            precommit fuel w commit_epoch
            = Some (kErrorCodeXctRaceAbort, w', commit_epoch)
            /\ is_active (current_xct_ w') = false
      | Some (true, w1, max1) =>
          let w2 := set_in_commit_log_epoch (get_current_global_epoch_weak w1) w1 in
          let verified :=
            fst (fst (precommit_xct_verify_readwrite track_moved_record_read w2 max1)) in
          exists w',
            precommit fuel w commit_epoch
            = Some (if verified then kErrorCodeOk else kErrorCodeXctRaceAbort,
                    w', get_current_global_epoch_weak w1)
            /\ is_active (current_xct_ w') = false
      end)
  /\ (none_moved w -> exists r, precommit 1%nat w commit_epoch = Some r).
Proof.
  split; [|split; [|split]]; [| | |apply precommit_xct_returns]; unfold precommit_xct.
  - by intros ->.
  - intros -> ->. cbn [negb]. unfold precommit_xct_readonly. cbn zeta.
    destruct (precommit_xct_verify_readonly _ _ _) as [[v w1] ce1].
    destruct v; eexists; (split; [reflexivity|reflexivity]).
  - intros -> ->. cbn [negb]. rewrite precommit_xct_readwrite_unfold; cbn zeta.
    destruct (precommit_xct_lock _ _ _ _ _) as [[[ok w1] mx1]|]; [|done].
    destruct ok.
    2:{ eexists. split; reflexivity. }
    cbn zeta.
    destruct (precommit_xct_verify_readwrite _ _ _) as [[verified w3] mx2].
    destruct verified; eexists; (split; [reflexivity|reflexivity]).
Qed.

(** C4, as the code has it: a read-only transaction with an empty read set
    gets the durable global epoch as commit epoch, and commits exactly
    when its pointer set and page-version set verify.  A read-only
    transaction that commits gets the largest observed epoch as commit
    epoch when that is a valid epoch, and the durable global epoch when
    no observed epoch is valid, provided the observed epochs have not
    wrapped around; and when its observed epochs are valid and lie within a
    window of 2^31 epochs, it gets the latest of them in the cyclic order. *)
Theorem readonly_commit_epoch (fuel : nat) (w : World) (commit_epoch : Z) :
  is_active (current_xct_ w) = true ->
  is_read_only (current_xct_ w) = true ->
  (read_set_ (current_xct_ w) = [] ->
   exists w',
     precommit fuel w commit_epoch
     = Some (if precommit_xct_verify_pointer_set w
                && precommit_xct_verify_page_version_set w
             then kErrorCodeOk else kErrorCodeXctRaceAbort,
             w', get_durable_global_epoch_weak w))
  /\ (forall (w' : World) (commit_epoch' : Z),
        precommit fuel w commit_epoch = Some (kErrorCodeOk, w', commit_epoch') ->
        epochs_unwrapped (read_set_ (current_xct_ w)) ->
        commit_epoch'
        = if Epoch.is_valid (max_observed_epoch (read_set_ (current_xct_ w)))
          then max_observed_epoch (read_set_ (current_xct_ w))
          else get_durable_global_epoch_weak w)
  /\ (forall (base : Z) (w' : World) (commit_epoch' : Z),
        precommit fuel w commit_epoch = Some (kErrorCodeOk, w', commit_epoch') ->
        read_set_ (current_xct_ w) <> [] ->
        epochs_in_window base (read_set_ (current_xct_ w)) ->
        latest_observed_epoch (read_set_ (current_xct_ w)) commit_epoch').
Proof.
  intros Hact Hro. unfold precommit_xct, precommit_xct_readonly.
  rewrite Hact, Hro. cbn [negb]. unfold precommit_xct_verify_readonly.
  split; [|split].
  - intros ->. cbn [verify_read_set_readonly negb].
    change (precommit_xct_verify_pointer_set (set_read_set [] w))
      with (precommit_xct_verify_pointer_set w).
    change (precommit_xct_verify_page_version_set (set_read_set [] w))
      with (precommit_xct_verify_page_version_set w).
    destruct (precommit_xct_verify_pointer_set w); cbn [negb andb].
    + destruct (precommit_xct_verify_page_version_set w); cbn [negb];
        eexists; reflexivity.
    + eexists; reflexivity.
  - intros w' ce' Hrun Hb.
    destruct (verify_read_set_readonly _ _ _ _) as [[ok rs] ce1] eqn:Hloop.
    destruct ok; cbn [negb] in Hrun; [|done].
    apply verify_read_set_readonly_max in Hloop;
      [|done|unfold Epoch.kEpochInvalid, Epoch.kEpochIntHalf; lia].
    pose proof (max_observed_epoch_bounds _ Hb) as Hm.
    unfold Epoch.kEpochInvalid in Hloop.
    rewrite Z.max_r in Hloop by lia. subst ce1.
    destruct (negb (precommit_xct_verify_pointer_set _)); [done|].
    destruct (negb (precommit_xct_verify_page_version_set _)); [done|].
    injection Hrun as <- <-.
    by destruct (Epoch.is_valid _).
  - intros base w' ce' Hrun Hne Hw.
    destruct (verify_read_set_readonly _ _ _ _) as [[ok rs] ce1] eqn:Hloop.
    destruct ok; cbn [negb] in Hrun; [|done].
    apply (verify_read_set_readonly_window _ base) in Hloop; [|done|by left].
    destruct Hloop as (Hin & _ & Hall).
    destruct (read_set_ (current_xct_ w)) as [|first rest] eqn:Hrs; [done|].
    destruct (Hall first ltac:(left)) as [Hnz _].
    assert (Hvalid : Epoch.is_valid ce1 = true).
    { unfold Epoch.is_valid, Epoch.kEpochInvalid. by destruct (Z.eqb_spec ce1 0). }
    rewrite Hvalid in Hrun. cbn [negb] in Hrun.
    destruct (negb (precommit_xct_verify_pointer_set _)); [done|].
    destruct (negb (precommit_xct_verify_page_version_set _)); [done|].
    injection Hrun as <- <-.
    destruct Hin as [Hz|(latest & Hlatest & Heq)]; [done|].
    split; [by exists latest|].
    intros access Haccess.
    destruct (Hall access Haccess) as [_ Hle].
    unfold epochs_in_window in Hw. rewrite Forall_forall in Hw.
    destruct (Hw _ Haccess) as [Hr1 Ho1]. destruct (Hw _ Hlatest) as [Hr2 Ho2].
    rewrite Heq in Hr2, Ho2.
    destruct (Z.eq_dec (epoch_offset base (epoch_ (observed_owner_id_ access)))
                (epoch_offset base ce1)) as [Hsame|Hdiff].
    + left. apply (epoch_offset_inj base); [lia|lia|done].
    + right. rewrite (Epoch_before_window base) by done.
      apply Z.ltb_lt. lia.
Qed.

End CommitProtocol.

(** ** The partitioner registry *)

Section Registry.

Import Gleaner.

Lemma fresh_registry_inv (calls : list Call) (g : LogGleaner) :
  fresh g -> all_starting calls -> registry_inv calls g.
Proof.
  intros (Hempty & Hnext & Halloc) Hstart.
  assert (Hno : forall i c, calls !! i = Some c -> exists s, c = AtFirstLookup s).
  { intros i c Hi. unfold all_starting in Hstart. rewrite Forall_forall in Hstart.
    apply Hstart. by eapply list_elem_of_lookup_2. }
  split.
  - done.
  - done.
  - intros s p. by rewrite Hempty, lookup_empty.
  - intros i s p Hi. by destruct (Hno _ _ Hi).
  - intros i s p Hi. by destruct (Hno _ _ Hi).
  - intros i j s1 s2 p Hi. by destruct (Hno _ _ Hi).
Qed.

(** A lookup in the calls after the call at [i] has moved to [c']. *)
Lemma lookup_after_step (calls : list Call) (i j : nat) (c c' d : Call) :
  calls !! i = Some c ->
  <[i := c']> calls !! j = Some d ->
  (j = i /\ d = c') \/ (j <> i /\ calls !! j = Some d).
Proof.
  intros Hi Hj. destruct (decide (i = j)) as [<-|Hne].
  - left. rewrite list_lookup_insert_eq in Hj by (by eapply lookup_lt_Some).
    by injection Hj as <-.
  - right. by rewrite list_lookup_insert_ne in Hj.
Qed.

Lemma step_inv (calls : list Call) (g : LogGleaner)
    (calls' : list Call) (g' : LogGleaner) :
  step (calls, g) (calls', g') ->
  exists i c,
    calls !! i = Some c /\ is_returned c = false
    /\ calls' = <[i := (step_call c g).1]> calls /\ g' = (step_call c g).2.
Proof. inversion 1; subst. eauto 10. Qed.

Lemma step_registry_inv (calls : list Call) (g : LogGleaner)
    (calls' : list Call) (g' : LogGleaner) :
  step (calls, g) (calls', g') -> registry_inv calls g -> registry_inv calls' g'.
Proof.
  intros (i & c & Hi & Hpending & -> & ->)%step_inv [Hnext Halloc Hreg Hret Hspec Hdist].
  destruct c as [s|s|s p|s p]; cbn [step_call is_returned] in *; [| | |done].
  - (* first critical section *)
    destruct (partitioners_ g !! s) as [p|] eqn:Hs; cbn [fst snd].
    + split; try done.
      * intros j s' p' Hj.
        destruct (lookup_after_step _ _ _ _ _ _ Hi Hj) as [[-> [= -> ->]]|[_ Hj']]; eauto.
      * intros j s' p' Hj.
        destruct (lookup_after_step _ _ _ _ _ _ Hi Hj) as [[-> ?]|[_ Hj']]; [done|eauto].
      * intros j k s1 s2 p' Hj Hk.
        destruct (lookup_after_step _ _ _ _ _ _ Hi Hj) as [[-> ?]|[_ Hj']]; [done|].
        destruct (lookup_after_step _ _ _ _ _ _ Hi Hk) as [[-> ?]|[_ Hk']]; [done|eauto].
    + split; try done.
      * intros j s' p' Hj.
        destruct (lookup_after_step _ _ _ _ _ _ Hi Hj) as [[-> ?]|[_ Hj']]; [done|eauto].
      * intros j s' p' Hj.
        destruct (lookup_after_step _ _ _ _ _ _ Hi Hj) as [[-> ?]|[_ Hj']]; [done|eauto].
      * intros j k s1 s2 p' Hj Hk.
        destruct (lookup_after_step _ _ _ _ _ _ Hi Hj) as [[-> ?]|[_ Hj']]; [done|].
        destruct (lookup_after_step _ _ _ _ _ _ Hi Hk) as [[-> ?]|[_ Hk']]; [done|eauto].
  - (* creation, outside the critical sections *)
    cbn [create_partitioner fst snd].
    split; cbn [next_ allocated_ partitioners_].
    + lia.
    + intros p [->%elem_of_singleton|Hp]%elem_of_union; [lia|].
      specialize (Halloc p Hp). lia.
    + intros s' p Hs'. apply elem_of_union. right. eauto.
    + intros j s' p' Hj.
      destruct (lookup_after_step _ _ _ _ _ _ Hi Hj) as [[-> ?]|[_ Hj']]; [done|eauto].
    + intros j s' p' Hj.
      destruct (lookup_after_step _ _ _ _ _ _ Hi Hj) as [[-> [= -> ->]]|[_ Hj']].
      * split; [apply elem_of_union; left; by apply elem_of_singleton|].
        intros s0 Hs0. apply Hreg, Halloc in Hs0. lia.
      * destruct (Hspec _ _ _ Hj') as [Hin Hnot].
        split; [apply elem_of_union; by right|done].
    + intros j k s1 s2 p' Hj Hk.
      destruct (lookup_after_step _ _ _ _ _ _ Hi Hj) as [[-> Hej]|[Hji Hj']];
        destruct (lookup_after_step _ _ _ _ _ _ Hi Hk) as [[-> Hek]|[Hki Hk']];
        simplify_eq; try done.
      * destruct (Hspec _ _ _ Hk') as [Hin _]. apply Halloc in Hin. lia.
      * destruct (Hspec _ _ _ Hj') as [Hin _]. apply Halloc in Hin. lia.
      * eauto.
  - (* second critical section *)
    destruct (Hspec _ _ _ Hi) as [Hpin Hpnot].
    destruct (partitioners_ g !! s) as [q|] eqn:Hs; cbn [fst snd].
    + (* lost the race: delete the speculative partitioner *)
      split; cbn [delete_partitioner next_ allocated_ partitioners_].
      * done.
      * intros r [Hr _]%elem_of_difference. eauto.
      * intros s' r Hs'. apply elem_of_difference. split; [eauto|].
        intros ->%elem_of_singleton. by apply (Hpnot s').
      * intros j s' p' Hj.
        destruct (lookup_after_step _ _ _ _ _ _ Hi Hj) as [[-> [= -> ->]]|[_ Hj']]; eauto.
      * intros j s' p' Hj.
        destruct (lookup_after_step _ _ _ _ _ _ Hi Hj) as [[-> ?]|[Hji Hj']]; [done|].
        destruct (Hspec _ _ _ Hj') as [Hin Hnot]. split; [|done].
        apply elem_of_difference. split; [done|].
        intros ->%elem_of_singleton. apply Hji. by eapply Hdist.
      * intros j k s1 s2 p' Hj Hk.
        destruct (lookup_after_step _ _ _ _ _ _ Hi Hj) as [[-> ?]|[_ Hj']]; [done|].
        destruct (lookup_after_step _ _ _ _ _ _ Hi Hk) as [[-> ?]|[_ Hk']]; [done|eauto].
    + (* won the race: register the partitioner *)
      split; cbn [insert_partitioner next_ allocated_ partitioners_].
      * done.
      * done.
      * intros s' r. rewrite lookup_insert. case_decide as Heq.
        -- by intros [= <-].
        -- eauto.
      * intros j s' p' Hj.
        destruct (lookup_after_step _ _ _ _ _ _ Hi Hj) as [[-> [= -> ->]]|[_ Hj']].
        -- by rewrite lookup_insert_eq.
        -- specialize (Hret _ _ _ Hj').
           rewrite lookup_insert_ne; [done|]. intros ->. congruence.
      * intros j s' p' Hj.
        destruct (lookup_after_step _ _ _ _ _ _ Hi Hj) as [[-> ?]|[Hji Hj']]; [done|].
        destruct (Hspec _ _ _ Hj') as [Hin Hnot]. split; [done|].
        intros s0. rewrite lookup_insert. case_decide as Heq; [|done].
        intros [= ->]. apply Hji. by eapply Hdist.
      * intros j k s1 s2 p' Hj Hk.
        destruct (lookup_after_step _ _ _ _ _ _ Hi Hj) as [[-> ?]|[_ Hj']]; [done|].
        destruct (lookup_after_step _ _ _ _ _ _ Hi Hk) as [[-> ?]|[_ Hk']]; [done|eauto].
Qed.

Lemma reachable_registry_inv (st st' : list Call * LogGleaner) :
  rtc step st st' -> registry_inv st.1 st.2 -> registry_inv st'.1 st'.2.
Proof.
  induction 1 as [|[c1 g1] [c2 g2] st3 Hstep _ IH]; [done|].
  intros Hinv. apply IH. by eapply step_registry_inv.
Qed.

(** A registered partitioner stays registered: the first insertion wins. *)
Lemma step_keeps_registered (st st' : list Call * LogGleaner) (s p : Z) :
  step st st' -> partitioners_ st.2 !! s = Some p -> partitioners_ st'.2 !! s = Some p.
Proof.
  destruct st as [calls g], st' as [calls' g'].
  intros (i & c & Hi & Hpending & -> & ->)%step_inv Hs.
  cbn [snd] in *.
  destruct c as [s'|s'|s' p'|s' p']; cbn [step_call]; try done.
  - by destruct (partitioners_ g !! s').
  - destruct (partitioners_ g !! s') as [q|] eqn:Hs'; cbn; [done|].
    rewrite lookup_insert_ne; [done|]. intros ->. congruence.
Qed.

Lemma reachable_keeps_registered (st st' : list Call * LogGleaner) (s p : Z) :
  rtc step st st' -> partitioners_ st.2 !! s = Some p -> partitioners_ st'.2 !! s = Some p.
Proof.
  induction 1 as [|st1 st2 st3 Hstep _ IH]; [done|].
  intros Hs. apply IH. by eapply step_keeps_registered.
Qed.

(** The function is the three steps of a call run without interference. *)
Lemma get_or_create_partitioner_steps (s : Z) (g : LogGleaner) :
  let '(c1, g1) := step_call (AtFirstLookup s) g in
  let '(c2, g2) := step_call c1 g1 in
  let '(c3, g3) := step_call c2 g2 in
  (c3, g3) = (Returned s (get_or_create_partitioner s g).1,
              (get_or_create_partitioner s g).2).
Proof.
  unfold get_or_create_partitioner. cbn [step_call].
  destruct (partitioners_ g !! s) as [p|] eqn:Hs; cbn [step_call fst snd]; [done|].
  unfold create_partitioner. cbn [step_call partitioners_]. rewrite Hs. reflexivity.
Qed.

Lemma run_schedule_reachable (schedule : list nat) (st : list Call * LogGleaner) :
  rtc step st (run_schedule schedule st).
Proof.
  revert st. induction schedule as [|i rest IH]; intros [calls g]; cbn; [done|].
  destruct (calls !! i) as [c|] eqn:Hi; [|apply IH].
  destruct (is_returned c) eqn:Hc; [apply IH|].
  eapply rtc_l; [|apply IH]. by apply step_at.
Qed.

(** Whatever the other callers do in between, a call has returned after
    three steps of its own. *)
Lemma call_returns_in_three_steps (c : Call) (g1 g2 g3 : LogGleaner) :
  is_returned (step_call (step_call (step_call c g1).1 g2).1 g3).1 = true.
Proof.
  destruct c as [s|s|s p|s p]; cbn [step_call].
  - destruct (partitioners_ g1 !! s); cbn [fst step_call]; [done|].
    unfold create_partitioner. cbn [fst step_call].
    by destruct (partitioners_ g3 !! s).
  - unfold create_partitioner. cbn [fst step_call].
    by destruct (partitioners_ g2 !! s).
  - by destruct (partitioners_ g1 !! s).
  - done.
Qed.

(** C8: in every state that concurrent callers of
    [get_or_create_partitioner] can reach from a fresh gleaner, a returned
    partitioner is not null, is allocated and is the one registered for its
    storage id, so two calls with the same storage id have returned the
    same partitioner; a registered partitioner is never replaced; a caller
    that finds the id registered in its second critical section deletes its
    own partitioner, which is a different one, and returns the registered
    one; and every call has returned after three steps of its own. *)
Theorem get_or_create_partitioner_same_partitioner
    (calls : list Call) (g : LogGleaner) (calls' : list Call) (g' : LogGleaner) :
  fresh g ->
  all_starting calls ->
  rtc step (calls, g) (calls', g') ->
  (forall i s p,
      calls' !! i = Some (Returned s p) ->
      p <> 0 /\ p ∈ allocated_ g' /\ partitioners_ g' !! s = Some p)
  /\ (forall i j s p q,
        calls' !! i = Some (Returned s p) ->
        calls' !! j = Some (Returned s q) ->
        p = q)
  /\ (forall s p st,
        partitioners_ g' !! s = Some p ->
        rtc step (calls', g') st ->
        partitioners_ st.2 !! s = Some p)
  /\ (forall i s p q,
        calls' !! i = Some (AtSecondLookup s p) ->
        partitioners_ g' !! s = Some q ->
        step_call (AtSecondLookup s p) g' = (Returned s q, delete_partitioner p g')
        /\ p <> q
        /\ q ∈ allocated_ (delete_partitioner p g')
        /\ p ∉ allocated_ (delete_partitioner p g'))
  /\ (forall s p,
        partitioners_ g' !! s = None ->
        step_call (AtSecondLookup s p) g' = (Returned s p, insert_partitioner s p g'))
  /\ (forall c g1 g2 g3,
        is_returned (step_call (step_call (step_call c g1).1 g2).1 g3).1 = true)
  /\ (forall s,
        let r := get_or_create_partitioner s g' in
        r.1 <> 0
        /\ partitioners_ r.2 !! s = Some r.1
        /\ get_or_create_partitioner s r.2 = r).
Proof.
  intros Hfresh Hstart Hreach.
  pose proof (reachable_registry_inv _ _ Hreach (fresh_registry_inv _ _ Hfresh Hstart))
    as [Hnext Halloc Hreg Hret Hspec Hdist].
  cbn [fst snd] in *.
  split; [|split; [|split; [|split; [|split; [|split]]]]].
  - intros i s p Hi. pose proof (Hret _ _ _ Hi) as Hs.
    pose proof (Hreg _ _ Hs) as Hin. pose proof (Halloc _ Hin).
    split; [lia|done].
  - intros i j s p q Hi Hj.
    pose proof (Hret _ _ _ Hi) as Hp. pose proof (Hret _ _ _ Hj) as Hq. congruence.
  - intros s p st Hs Hst. by apply (reachable_keeps_registered _ _ _ _ Hst).
  - intros i s p q Hi Hs. destruct (Hspec _ _ _ Hi) as [Hin Hnot].
    cbn [step_call]. rewrite Hs.
    assert (Hne : p <> q) by (intros ->; by apply (Hnot s)).
    split; [done|]. split; [done|]. cbn [delete_partitioner allocated_].
    split.
    + apply elem_of_difference. split; [by eapply Hreg|].
      intros Hq%elem_of_singleton. by apply Hne.
    + intros [_ Hn]%elem_of_difference. apply Hn. by apply elem_of_singleton.
  - intros s p Hs. cbn [step_call]. by rewrite Hs.
  - apply call_returns_in_three_steps.
  - intros s. cbn zeta. unfold get_or_create_partitioner.
    destruct (partitioners_ g' !! s) as [p|] eqn:Hs; cbn [fst snd].
    + rewrite Hs. pose proof (Halloc _ (Hreg _ _ Hs)). split; [lia|done].
    + unfold create_partitioner. cbn [partitioners_]. rewrite Hs.
      cbn [fst snd insert_partitioner partitioners_].
      rewrite lookup_insert_eq. split; [lia|done].
Qed.

End Registry.

(** ** The bin-bit loop of HashMetadata::set_capacity *)

Section BinBits.

Import HashMetadata.

Lemma count_bits_range (todo : nat) :
  forall bits bin_count : Z,
    0 <= bits <= 64 -> bits <= count_bits todo bits bin_count <= 64.
Proof.
  induction todo as [|todo IH]; intros bits bin_count Hb; cbn [count_bits]; [lia|].
  destruct (Z.ltb_spec bits 64); cbn [andb]; [|lia].
  destruct (Z.shiftl 1 bits <? bin_count); [|lia].
  specialize (IH (bits + 1) bin_count). lia.
Qed.

Lemma count_bits_small (todo : nat) :
  forall bits bin_count : Z,
    0 <= bits <= 63 -> bin_count <= 2 ^ 63 -> count_bits todo bits bin_count <= 63.
Proof.
  induction todo as [|todo IH]; intros bits bin_count Hb Hc; cbn [count_bits]; [lia|].
  destruct (Z.ltb_spec bits 64); cbn [andb]; [|lia].
  rewrite Z.shiftl_1_l.
  destruct (Z.ltb_spec (2 ^ bits) bin_count) as [Hlt|]; [|lia].
  apply IH; [|done].
  destruct (Z.eq_dec bits 63) as [->|]; lia.
Qed.

Lemma count_bits_large (todo : nat) :
  forall bits bin_count : Z,
    0 <= bits <= 64 -> 2 ^ 63 < bin_count -> (64 - bits <= Z.of_nat todo) ->
    count_bits todo bits bin_count = 64.
Proof.
  induction todo as [|todo IH]; intros bits bin_count Hb Hc Ht; cbn [count_bits]; [lia|].
  destruct (Z.ltb_spec bits 64); cbn [andb]; [|lia].
  rewrite Z.shiftl_1_l.
  assert (2 ^ bits <= 2 ^ 63) by (apply Z.pow_le_mono_r; lia).
  destruct (Z.ltb_spec (2 ^ bits) bin_count); [|lia].
  apply IH; lia.
Qed.

(** For every bin count the stored value lies between 8 and 64; it stays
    below 64 exactly when the bin count does not exceed 2^63. *)
Lemma bin_bits_of_range (bin_count : Z) :
  8 <= bin_bits_of bin_count <= 64
  /\ (bin_count <= 2 ^ 63 -> bin_bits_of bin_count <= 63)
  /\ (2 ^ 63 < bin_count -> bin_bits_of bin_count = 64).
Proof.
  unfold bin_bits_of.
  pose proof (count_bits_range 65 0 bin_count ltac:(lia)) as Hr.
  split; [|split].
  - destruct (Z.ltb_spec (count_bits 65 0 bin_count) 8); lia.
  - intros Hc. pose proof (count_bits_small 65 0 bin_count ltac:(lia) Hc).
    destruct (Z.ltb_spec (count_bits 65 0 bin_count) 8); lia.
  - intros Hc. rewrite (count_bits_large 65 0 bin_count) by lia. reflexivity.
Qed.

End BinBits.

Example bin_bits_of_257 : HashMetadata.bin_bits_of 257 = 9.
Proof. reflexivity. Qed.

Example bin_bits_of_above_half : HashMetadata.bin_bits_of (2 ^ 63 + 1) = 64.
Proof. reflexivity. Qed.

(** * The model at work *)

#[local] Abbreviation run_precommit :=
  (precommit_xct track_never track_read_same apply_keep sort_by_address).

(** Three records, five writes: three locks, taken in address order. *)
Example lock_world_dup :
  let w1 := world_after (precommit_xct_lock track_never sort_by_address 1 world_dup max_xct_id0)
              world_dup in
  (owner_id_address_ <$> get_write_set w1 = [10; 10; 20; 20; 30])
  /\ (mcs_block_ <$> get_write_set w1 = [0; 1; 0; 2; 3])
  /\ history_ w1 = [EvAcquire 10 1; EvAcquire 20 2; EvAcquire 30 3].
Proof. vm_compute. done. Qed.

Example commit_world_dup :
  let w' := world_after (run_precommit 1%nat world_dup 0) world_dup in
  (mcs_block_ <$> get_write_set w' = [0; 0; 0; 0; 0])
  /\ forget_id <$> history_ w'
     = [EvAcquire 10 1; EvAcquire 20 2; EvAcquire 30 3;
        EvFinalize 10 no_id; EvRelease 10 1;
        EvFinalize 20 no_id; EvRelease 20 2;
        EvFinalize 30 no_id; EvRelease 30 3]
  /\ id_ (current_xct_ w') = XctIdOps.set 3 5.
Proof. vm_compute. done. Qed.

(** A moved record that can be tracked is locked at its new address. *)
Example commit_world_moved_tracked :
  let r := precommit_xct track_next track_read_same apply_keep sort_by_address
             1%nat world_moved 0 in
  code_and_epoch r = Some (kErrorCodeOk, 3) /\
  owner_id_address_ <$> get_write_set (world_after r world_moved) = [11].
Proof. vm_compute. done. Qed.

(** A record that has moved twice is found moved after it was locked at its
    first new address: the lock is given back and the second pass locks the
    second new address.  One pass is not enough. *)
Example commit_world_moved_twice :
  let run := precommit_xct track_next track_read_same apply_keep sort_by_address in
  run 1%nat world_moved_twice 0 = None
  /\ code_and_epoch (run 2%nat world_moved_twice 0) = Some (kErrorCodeOk, 3)
  /\ forget_id <$> history_ (world_after (run 2%nat world_moved_twice 0) world_moved_twice)
     = [EvAcquire 11 1; EvRelease 11 1; EvAcquire 12 2;
        EvFinalize 12 no_id; EvRelease 12 2].
Proof. vm_compute. done. Qed.

Example epoch_before_wraps_around :
  Epoch.before 4294967295 2 = true /\ Epoch.before 2 4294967295 = false
  /\ Epoch.before 1 2147483649 = false /\ Epoch.before 1 2147483648 = true.
Proof. vm_compute. done. Qed.

Example begin_then_abort :
  let w1 := (begin_xct kSerializable world_idle).2 in
  (begin_xct kSerializable world_idle).1 = kErrorCodeOk
  /\ (begin_xct kSerializable w1).1 = kErrorCodeXctAlreadyRunning
  /\ (abort_xct w1).1 = kErrorCodeOk
  /\ (abort_xct (abort_xct w1).2).1 = kErrorCodeXctNoXct.
Proof. vm_compute. done. Qed.

(** ** Instances of the theorems *)

Lemma none_moved_memory0 (x : Xct) (current durable pending : Z) :
  none_moved (world_of x memory0 current durable pending).
Proof. intros a _. reflexivity. Qed.

Lemma all_unlocked_world_dup : all_unlocked (get_write_set world_dup).
Proof. repeat constructor. Qed.

Lemma all_unlocked_world_stale : all_unlocked (get_write_set world_stale).
Proof. repeat constructor. Qed.

Lemma precommit_xct_outcome_witness :
  (run_precommit 1%nat world_idle 7 = Some (kErrorCodeXctNoXct, world_idle, 7))
  /\ (exists w', run_precommit 1%nat world_ro_reads 0 = Some (kErrorCodeOk, w', 3)
                 /\ is_active (current_xct_ w') = false)
  /\ (exists w', run_precommit 1%nat world_stale 0 = Some (kErrorCodeXctRaceAbort, w', 3)
                 /\ is_active (current_xct_ w') = false)
  /\ (exists w', run_precommit 1%nat world_moved 0 = Some (kErrorCodeXctRaceAbort, w', 0)
                 /\ is_active (current_xct_ w') = false).
Proof.
  split; [|split; [|split]].
  - exact (proj1 (precommit_xct_outcome track_never track_read_same apply_keep
                    sort_by_address sort_by_address_perm 1%nat world_idle 7) eq_refl).
  - exact (proj1 (proj2 (precommit_xct_outcome track_never track_read_same apply_keep
                           sort_by_address sort_by_address_perm 1%nat world_ro_reads 0))
             eq_refl eq_refl).
  - exact (proj1 (proj2 (proj2 (precommit_xct_outcome track_never track_read_same
                                  apply_keep sort_by_address sort_by_address_perm
                                  1%nat world_stale 0))) eq_refl eq_refl).
  - exact (proj1 (proj2 (proj2 (precommit_xct_outcome track_never track_read_same
                                  apply_keep sort_by_address sort_by_address_perm
                                  1%nat world_moved 0))) eq_refl eq_refl).
Defined.

Lemma readonly_commit_epoch_witness :
  (exists w', run_precommit 1%nat world_ro_empty 0 = Some (kErrorCodeOk, w', 1))
  /\ (forall w' commit_epoch',
        run_precommit 1%nat world_ro_reads 0 = Some (kErrorCodeOk, w', commit_epoch') ->
        commit_epoch' = 3)
  /\ (forall w' commit_epoch',
        run_precommit 1%nat world_ro_wrapped 0 = Some (kErrorCodeOk, w', commit_epoch') ->
        latest_observed_epoch (read_set_ (current_xct_ world_ro_wrapped)) commit_epoch').
Proof.
  split; [|split].
  - exact (proj1 (readonly_commit_epoch track_never track_read_same apply_keep
                    sort_by_address 1%nat world_ro_empty 0 eq_refl eq_refl) eq_refl).
  - intros w' ce' Hrun.
    refine (proj1 (proj2 (readonly_commit_epoch track_never track_read_same apply_keep
                            sort_by_address 1%nat world_ro_reads 0 eq_refl eq_refl))
              w' ce' Hrun _).
    repeat constructor; cbn; unfold Epoch.kEpochIntHalf; lia.
  - intros w' ce' Hrun.
    refine (proj2 (proj2 (readonly_commit_epoch track_never track_read_same apply_keep
                            sort_by_address 1%nat world_ro_wrapped 0 eq_refl eq_refl))
              4294967290 w' ce' Hrun _ _).
    + discriminate.
    + repeat constructor; vm_compute; done.
Defined.

Lemma abort_xct_witness :
  abort_xct world_idle = (kErrorCodeXctNoXct, world_idle)
  /\ exists w', abort_xct world_dup = (kErrorCodeOk, w')
       /\ is_active (current_xct_ w') = false
       /\ offset_tail_ (log_buffer_ w') = 64.
Proof.
  split.
  - exact (proj1 (abort_xct_inactive_noop_active_discards world_idle) eq_refl).
  - destruct (proj2 (abort_xct_inactive_noop_active_discards world_dup) eq_refl)
      as (w' & Hrun & Hinactive & Htail & _).
    exists w'. split; [exact Hrun|]. split; [exact Hinactive|exact Htail].
Defined.

Lemma run_world_stale :
  run_precommit 1%nat world_stale 0
  = Some (kErrorCodeXctRaceAbort,
          world_after (run_precommit 1%nat world_stale 0) world_stale, 3).
Proof. vm_compute. reflexivity. Qed.

Lemma run_world_dup :
  run_precommit 1%nat world_dup 0
  = Some (kErrorCodeOk, world_after (run_precommit 1%nat world_dup 0) world_dup, 3).
Proof. vm_compute. reflexivity. Qed.

Lemma precommit_xct_race_abort_witness :
  let w' := world_after (run_precommit 1%nat world_stale 0) world_stale in
  offset_tail_ (log_buffer_ world_stale) = 80
  /\ offset_tail_ (log_buffer_ w') = 64
  /\ offset_committed_ (log_buffer_ w') = 64
  /\ fst (begin_xct kSerializable w') = kErrorCodeOk.
Proof.
  cbn zeta. split; [reflexivity|].
  destruct (precommit_xct_race_abort_discards_log track_never track_read_same apply_keep
              sort_by_address 1%nat world_stale 0
              (world_after (run_precommit 1%nat world_stale 0) world_stale) 3
              kSerializable run_world_stale)
    as (_ & Htail & Hcommitted & _ & Hbegin).
  split; [rewrite Htail; exact Hcommitted|]. split; [exact Hcommitted|exact Hbegin].
Defined.

Lemma precommit_xct_unlocked_witness :
  (exists r, run_precommit 1%nat world_dup 0 = Some r)
  /\ Forall (fun e => mcs_block_ e = 0)
       (write_set_ (current_xct_ (world_after (run_precommit 1%nat world_dup 0) world_dup)))
  /\ Forall (fun e => mcs_block_ e = 0)
       (write_set_ (current_xct_ (world_after (run_precommit 1%nat world_stale 0) world_stale))).
Proof.
  destruct (precommit_xct_leaves_write_set_unlocked track_never track_read_same apply_keep
              sort_by_address sort_by_address_perm world_dup 0
              ltac:(cbn; lia) all_unlocked_world_dup) as [Hreturns Hdup].
  destruct (precommit_xct_leaves_write_set_unlocked track_never track_read_same apply_keep
              sort_by_address sort_by_address_perm world_stale 0
              ltac:(cbn; lia) all_unlocked_world_stale) as [_ Hstale].
  split; [exact (Hreturns (none_moved_memory0 _ _ _ _))|]. split.
  - exact (proj1 (proj2 (Hdup 1%nat kErrorCodeOk _ 3 run_world_dup))).
  - exact (proj1 (proj2 (Hstale 1%nat kErrorCodeXctRaceAbort _ 3 run_world_stale))).
Defined.

(** Two callers race for storage 7, a third asks for storage 9. *)
Lemma get_or_create_partitioner_witness :
  let calls :=
    [Gleaner.AtFirstLookup 7; Gleaner.AtFirstLookup 7; Gleaner.AtFirstLookup 9] in
  let st := Gleaner.run_schedule [0; 1; 0; 1; 1; 0; 2; 2; 2]%nat (calls, Gleaner.gleaner0) in
  st.1 = [Gleaner.Returned 7 2; Gleaner.Returned 7 2; Gleaner.Returned 9 3]
  /\ forall i j s p q,
       st.1 !! i = Some (Gleaner.Returned s p) ->
       st.1 !! j = Some (Gleaner.Returned s q) ->
       p = q.
Proof.
  cbn zeta. split; [reflexivity|].
  refine (proj1 (proj2 (get_or_create_partitioner_same_partitioner
            [Gleaner.AtFirstLookup 7; Gleaner.AtFirstLookup 7; Gleaner.AtFirstLookup 9]
            Gleaner.gleaner0 _ _ _ _ _))).
  - split; [reflexivity|]. split; [reflexivity|].
    intros p Hp. by apply not_elem_of_empty in Hp.
  - repeat constructor; by eexists.
  - rewrite <- surjective_pairing. apply (run_schedule_reachable _ (_, _)).
Defined.

(** ** Where the specification and the code part ways *)

(** C3, as the spec has it, fails: the only written record has moved and
    cannot be tracked, so Phase 1 fails and the call returns
    [kErrorCodeXctRaceAbort], although no verification has failed; the
    verification of this transaction passes. *)
Lemma precommit_xct_race_abort_without_failed_verification :
  is_active (current_xct_ world_moved) = true
  /\ precommit_xct_lock track_never sort_by_address 1%nat world_moved max_xct_id0
     = Some (false, world_moved, max_xct_id0)
  /\ fst (fst (precommit_xct_verify_readwrite track_read_same world_moved max_xct_id0)) = true
  /\ code_and_epoch (run_precommit 1%nat world_moved 0) = Some (kErrorCodeXctRaceAbort, 0).
Proof. repeat split. Qed.

(** C4, as the spec has it, fails twice: a read-only transaction with an
    empty read set aborts when a pointer it followed has changed, and a
    read-only transaction that read a never-written record commits with the
    durable global epoch 1, while the largest observed epoch is the invalid
    epoch 0. *)
Lemma readonly_commit_aborts_or_takes_durable_epoch :
  (is_active (current_xct_ world_ro_pointer) = true
   /\ is_read_only (current_xct_ world_ro_pointer) = true
   /\ read_set_ (current_xct_ world_ro_pointer) = []
   /\ code_and_epoch (run_precommit 1%nat world_ro_pointer 0)
      = Some (kErrorCodeXctRaceAbort, 1))
  /\ (is_active (current_xct_ world_ro_unwritten) = true
      /\ is_read_only (current_xct_ world_ro_unwritten) = true
      /\ read_set_ (current_xct_ world_ro_unwritten) <> []
      /\ code_and_epoch (run_precommit 1%nat world_ro_unwritten 0) = Some (kErrorCodeOk, 1)
      /\ max_observed_epoch (read_set_ (current_xct_ world_ro_unwritten)) = 0
      /\ get_durable_global_epoch_weak world_ro_unwritten = 1).
Proof. repeat split; done. Qed.

(** * Further properties of the commit protocol *)

(** ** What changes only lock words *)

Lemma same_records_refl (m : Memory) : same_records m m.
Proof. by repeat split. Qed.

Lemma same_records_trans (m1 m2 m3 : Memory) :
  same_records m1 m2 -> same_records m2 m3 -> same_records m1 m3.
Proof.
  intros (Ha & Hb & Hc & Hd) (Ha' & Hb' & Hc' & Hd').
  repeat split; intros; congruence.
Qed.

Lemma only_locks_refl (w : World) : only_locks w w.
Proof.
  split; [apply same_records_refl|]. repeat split.
  exists []. by rewrite app_nil_r.
Qed.

Lemma only_locks_trans (w1 w2 w3 : World) :
  only_locks w1 w2 -> only_locks w2 w3 -> only_locks w1 w3.
Proof.
  intros (Hm & Hb & Hc & Hd & Hs & evs & Hh & Hevs)
         (Hm' & Hb' & Hc' & Hd' & Hs' & evs' & Hh' & Hevs').
  split; [by eapply same_records_trans|].
  repeat split; try congruence.
  exists (evs ++ evs'). split; [|by apply Forall_app].
  by rewrite Hh', Hh, <- app_assoc.
Qed.

Lemma only_locks_with_xct (x : Xct) (w : World) : only_locks w (with_xct x w).
Proof.
  split; [apply same_records_refl|]. repeat split.
  exists []. cbn. by rewrite app_nil_r.
Qed.

Lemma only_locks_set_write_set (ws : list WriteXctAccess) (w : World) :
  only_locks w (set_write_set ws w).
Proof. apply only_locks_with_xct. Qed.

Lemma only_locks_set_read_set (rs : list XctAccess) (w : World) :
  only_locks w (set_read_set rs w).
Proof. apply only_locks_with_xct. Qed.

Lemma only_locks_set_in_commit_log_epoch (e : Z) (w : World) :
  only_locks w (set_in_commit_log_epoch e w).
Proof. apply only_locks_with_xct. Qed.

Lemma only_locks_mcs_acquire_lock (a : Z) (w : World) :
  only_locks w (mcs_acquire_lock a w).2.
Proof.
  unfold mcs_acquire_lock, record_event. cbn. repeat split; try done.
  - intros a'. cbn. unfold insert, fn_insert.
    destruct (decide (a = a')) as [->|]; done.
  - eexists. split; [done|]. by repeat constructor.
Qed.

Lemma only_locks_mcs_release_lock (a b : Z) (w : World) :
  only_locks w (mcs_release_lock a b w).
Proof.
  unfold mcs_release_lock, record_event. cbn. repeat split; try done.
  - intros a'. cbn. unfold insert, fn_insert.
    destruct (decide (a = a')) as [->|]; done.
  - eexists. split; [done|]. by repeat constructor.
Qed.

Lemma unlock_entries_only_locks (ws : list WriteXctAccess) :
  forall w : World, only_locks w (unlock_entries ws w).2.
Proof.
  induction ws as [|e ws IH]; intros w; cbn [unlock_entries].
  - apply only_locks_refl.
  - destruct (negb (mcs_block_ e =? 0)).
    + specialize (IH (mcs_release_lock (owner_id_address_ e) (mcs_block_ e) w)).
      destruct (unlock_entries ws _) as [rest' w2]. cbn in *.
      eapply only_locks_trans; [apply only_locks_mcs_release_lock|exact IH].
    + specialize (IH w). destruct (unlock_entries ws w) as [rest' w2]. exact IH.
Qed.

Lemma precommit_xct_unlock_only_locks (w : World) : only_locks w (precommit_xct_unlock w).
Proof.
  unfold precommit_xct_unlock.
  pose proof (unlock_entries_only_locks (get_write_set w) w) as H.
  destruct (unlock_entries _ _) as [ws w1].
  eapply only_locks_trans; [exact H|apply only_locks_set_write_set].
Qed.

Lemma lock_loop_only_locks (todo : nat) :
  forall (i : nat) (w : World) (mx : XctId), only_locks w (lock_loop todo i w mx).1.2.
Proof.
  induction todo as [|todo IH]; intros i w mx; cbn [lock_loop].
  { apply only_locks_refl. }
  destruct (get_write_set w !! i) as [e|]; [|apply only_locks_refl].
  destruct (same_address e _); [apply IH|].
  pose proof (only_locks_mcs_acquire_lock (owner_id_address_ e) w) as Hacq.
  destruct (mcs_acquire_lock _ w) as [block w1]. cbn [snd] in Hacq.
  match goal with |- context [is_moved (owner_at ?w2 _)] => set (w2' := w2) end.
  assert (H2 : only_locks w w2').
  { eapply only_locks_trans; [exact Hacq|apply only_locks_set_write_set]. }
  destruct (is_moved _).
  - eapply only_locks_trans; [exact H2|apply precommit_xct_unlock_only_locks].
  - eapply only_locks_trans; [exact H2|apply IH].
Qed.

(** ** The unlock pass *)

Lemma owner_at_mcs_release_lock (a b : Z) (w : World) (a' : Z) :
  owner_at (mcs_release_lock a b w) a'
  = if decide (a = a') then mkLockableXctId 0 (xct_id_ (owner_at w a)) else owner_at w a'.
Proof.
  unfold mcs_release_lock, record_event, owner_at. cbn. unfold insert, fn_insert.
  by destruct (decide (a = a')).
Qed.

Lemma owner_at_mcs_acquire_lock (a : Z) (w : World) (a' : Z) :
  owner_at (mcs_acquire_lock a w).2 a'
  = if decide (a = a')
    then mkLockableXctId (mcs_block_current_ (current_xct_ w) + 1) (xct_id_ (owner_at w a))
    else owner_at w a'.
Proof.
  unfold mcs_acquire_lock, record_event, owner_at. cbn. unfold insert, fn_insert.
  by destruct (decide (a = a')).
Qed.

Lemma unlock_entries_effect (ws : list WriteXctAccess) :
  forall w : World,
    (unlock_entries ws w).1 = erase_block <$> ws
    /\ history_ (unlock_entries ws w).2
       = history_ w ++ (release_event <$> List.filter locked ws)
    /\ (forall a, a ∈ owner_id_address_ <$> List.filter locked ws ->
          lock_ (owner_at (unlock_entries ws w).2 a) = 0)
    /\ (forall a, a ∉ owner_id_address_ <$> List.filter locked ws ->
          owner_at (unlock_entries ws w).2 a = owner_at w a).
Proof.
  induction ws as [|e ws IH]; intros w; cbn [unlock_entries List.filter].
  { cbn. rewrite app_nil_r. repeat split; try done. intros a Ha. by apply elem_of_nil in Ha. }
  change (negb (mcs_block_ e =? 0)) with (locked e).
  destruct (locked e) eqn:Hlocked.
  - specialize (IH (mcs_release_lock (owner_id_address_ e) (mcs_block_ e) w)).
    destruct (unlock_entries ws _) as [rest' w2]. cbn [fst snd] in *.
    destruct IH as (IH1 & IH2 & IH3 & IH4).
    split; [by rewrite IH1|].
    split.
    { rewrite IH2, history_mcs_release_lock, <- app_assoc. done. }
    split.
    + intros a Ha. cbn [fmap list_fmap] in Ha.
      destruct (decide (a ∈ owner_id_address_ <$> List.filter locked ws)) as [Hin|Hout].
      * by apply IH3.
      * rewrite (IH4 a Hout), owner_at_mcs_release_lock.
        apply elem_of_cons in Ha as [->|Ha]; [|done].
        by rewrite decide_True.
    + intros a Ha. cbn [fmap list_fmap] in Ha.
      apply not_elem_of_cons in Ha as [Hne Hout].
      rewrite (IH4 a Hout), owner_at_mcs_release_lock.
      by rewrite decide_False.
  - specialize (IH w). destruct (unlock_entries ws w) as [rest' w2]. cbn [fst snd] in *.
    destruct IH as (IH1 & IH2 & IH3 & IH4).
    split; [|done].
    rewrite IH1. cbn [fmap list_fmap]. f_equal.
    symmetry. apply erase_unlocked.
    unfold locked in Hlocked. apply negb_false_iff in Hlocked. by apply Z.eqb_eq.
Qed.

Lemma precommit_xct_unlock_noop (w : World) :
  all_unlocked (get_write_set w) -> precommit_xct_unlock w = w.
Proof.
  intros Hzero. unfold precommit_xct_unlock.
  assert (H : unlock_entries (get_write_set w) w = (get_write_set w, w)).
  { generalize (get_write_set w) Hzero. intros ws Hws.
    induction Hws as [|e ws He Hws IH]; cbn [unlock_entries]; [done|].
    rewrite He. cbn. by rewrite IH. }
  rewrite H. unfold set_write_set, get_write_set.
  destruct w as [x b m c d s h]. destruct x. done.
Qed.

Lemma precommit_xct_unlock_history (w : World) :
  history_ (precommit_xct_unlock w)
  = history_ w ++ (release_event <$> List.filter locked (get_write_set w)).
Proof.
  unfold precommit_xct_unlock.
  pose proof (unlock_entries_effect (get_write_set w) w) as (_ & H2 & _).
  destruct (unlock_entries _ _) as [ws w1]. cbn in H2. by rewrite history_set_write_set.
Qed.

(** X1: [precommit_xct_unlock] releases exactly the locks that the write set
    holds, each once and in write-set order, and forgets them: afterwards
    every entry has [mcs_block_] 0 and is otherwise unchanged, the history
    has grown by one release per locked entry, the lock word of every
    released record is free, every other owner word is untouched, no
    record has changed, and a second call changes nothing. *)
Theorem precommit_xct_unlock_releases_held_locks (w : World) :
  let w' := precommit_xct_unlock w in
  get_write_set w' = erase_block <$> get_write_set w
  /\ history_ w'
     = history_ w ++ (release_event <$> List.filter locked (get_write_set w))
  /\ (forall e, e ∈ get_write_set w -> locked e = true ->
        lock_ (owner_at w' (owner_id_address_ e)) = 0)
  /\ (forall a, a ∉ owner_id_address_ <$> List.filter locked (get_write_set w) ->
        owner_at w' a = owner_at w a)
  /\ same_records (memory_ w) (memory_ w')
  /\ log_buffer_ w' = log_buffer_ w
  /\ precommit_xct_unlock w' = w'.
Proof.
  cbn zeta.
  split_and!.
  - unfold precommit_xct_unlock.
    pose proof (unlock_entries_effect (get_write_set w) w) as (H1 & _).
    destruct (unlock_entries _ _) as [ws w1]. cbn in H1. by rewrite get_set_write_set.
  - apply precommit_xct_unlock_history.
  - intros e He Hlocked. unfold precommit_xct_unlock.
    pose proof (unlock_entries_effect (get_write_set w) w) as (_ & _ & H3 & _).
    destruct (unlock_entries _ _) as [ws w1]. cbn in H3.
    rewrite owner_at_set_write_set. apply H3.
    apply list_elem_of_fmap_2.
    apply list_elem_of_In, filter_In. split; [by apply list_elem_of_In|done].
  - intros a Ha. unfold precommit_xct_unlock.
    pose proof (unlock_entries_effect (get_write_set w) w) as (_ & _ & _ & H4).
    destruct (unlock_entries _ _) as [ws w1]. cbn in H4.
    rewrite owner_at_set_write_set. by apply H4.
  - apply precommit_xct_unlock_only_locks.
  - apply precommit_xct_unlock_log_buffer.
  - apply precommit_xct_unlock_noop, precommit_xct_unlock_all_unlocked.
Qed.


(** ** The locking loop pins the records *)

Lemma lock_loop_pins (todo : nat) :
  forall (i : nat) (w : World) (mx : XctId) (w' : World) (mx' : XctId),
    lock_loop todo i w mx = (false, w', mx') ->
    (i + todo)%nat = length (get_write_set w) ->
    0 <= mcs_block_current_ (current_xct_ w) ->
    (forall j e, (j < i)%nat -> get_write_set w !! j = Some e ->
       same_address e (get_write_set w !! i) = true \/ pinned w (owner_id_address_ e)) ->
    write_set_pinned w'.
Proof.
  induction todo as [|todo IH]; intros i w mx w' mx' Hrun Hlen Hcur Hinv;
    cbn [lock_loop] in Hrun.
  { injection Hrun as <- <-. intros e He.
    apply list_elem_of_lookup_1 in He as [j Hj].
    pose proof (lookup_lt_Some _ _ _ Hj) as Hlt.
    destruct (Hinv j e) as [Hs|Hp]; [lia|done| |done].
    rewrite lookup_ge_None_2 in Hs by lia. done. }
  destruct (get_write_set w !! i) as [e|] eqn:Hi.
  2:{ apply lookup_ge_None_1 in Hi. lia. }
  destruct (same_address e (get_write_set w !! S i)) eqn:Hsame.
  - eapply IH; [exact Hrun|lia|done|].
    intros j ej Hj Hlook.
    destruct (decide (j = i)) as [->|Hne].
    + left. rewrite Hi in Hlook. by injection Hlook as <-.
    + destruct (Hinv j ej) as [Hs|Hp]; [lia|done| |by right]. left.
      cbn in Hs.
      destruct (get_write_set w !! S i) as [e2|]; [|done]. cbn in *.
      apply Z.eqb_eq in Hs, Hsame. apply Z.eqb_eq. lia.
  - destruct (mcs_acquire_lock (owner_id_address_ e) w) as [block w1] eqn:Hacq.
    pose proof (mcs_acquire_lock_spec _ _ _ _ Hacq)
      as (Hblock & Hws1 & _ & Hcur1 & _ & _).
    pose proof (owner_at_mcs_acquire_lock (owner_id_address_ e) w) as Hown.
    rewrite Hacq in Hown. cbn [snd] in Hown. rewrite <- Hblock in Hown.
    rewrite Hws1 in Hrun.
    destruct (is_moved (owner_at _ (owner_id_address_ e))) eqn:Hmoved; [done|].
    rewrite owner_at_set_write_set in Hmoved.
    assert (Hpin : pinned w1 (owner_id_address_ e)).
    { split; [|done]. rewrite Hown, decide_True by done.
      unfold is_keylocked. cbn. apply negb_true_iff, Z.eqb_neq. lia. }
    eapply IH; [exact Hrun| | |].
    + rewrite get_set_write_set, length_insert. lia.
    + rewrite block_current_set_write_set. lia.
    + intros j ej Hj Hlook. right.
      rewrite get_set_write_set in Hlook.
      unfold pinned. rewrite owner_at_set_write_set.
      destruct (decide (j = i)) as [->|Hne].
      * rewrite list_lookup_insert_eq in Hlook by (by eapply lookup_lt_Some).
        injection Hlook as <-. exact Hpin.
      * rewrite list_lookup_insert_ne in Hlook by done.
        assert (Haddr : owner_id_address_ ej = owner_id_address_ e
                        \/ pinned w (owner_id_address_ ej)).
        { destruct (Hinv j ej) as [Hs|Hp]; [lia|done| |by right]. left.
          cbn in Hs. by apply Z.eqb_eq in Hs. }
        destruct (decide (owner_id_address_ ej = owner_id_address_ e)) as [->|Hother];
          [exact Hpin|].
        destruct Haddr as [?|Hp]; [done|].
        unfold pinned in *. rewrite Hown, decide_False by done. exact Hp.
Qed.

(** ** What Phase 3 does to the owner words *)

Lemma owner_at_stamp_log (l : Z) (x : XctId) (w : World) (a : Z) :
  owner_at (stamp_log l x w) a = owner_at w a.
Proof. done. Qed.

Lemma owner_at_record_event (ev : Event) (w : World) (a : Z) :
  owner_at (record_event ev w) a = owner_at w a.
Proof. done. Qed.

Lemma owner_at_store_owner_xct_id (a : Z) (x : XctId) (w : World) (a' : Z) :
  owner_at (store_owner_xct_id a x w) a'
  = if decide (a = a') then mkLockableXctId (lock_ (owner_at w a)) x else owner_at w a'.
Proof.
  unfold store_owner_xct_id, owner_at. cbn. unfold insert, fn_insert.
  by destruct (decide (a = a')).
Qed.

Lemma same_pages_and_epochs_refl (w : World) : same_pages_and_epochs w w.
Proof. by repeat split. Qed.

Lemma same_pages_and_epochs_trans (w1 w2 w3 : World) :
  same_pages_and_epochs w1 w2 -> same_pages_and_epochs w2 w3 ->
  same_pages_and_epochs w1 w3.
Proof.
  intros (Ha & Hb & Hc & Hd & He) (Ha' & Hb' & Hc' & Hd' & He').
  repeat split; intros; congruence.
Qed.

Lemma same_pages_and_epochs_stamp_log (l : Z) (x : XctId) (w : World) :
  same_pages_and_epochs w (stamp_log l x w).
Proof. by repeat split. Qed.

Lemma same_pages_and_epochs_store_owner_xct_id (a : Z) (x : XctId) (w : World) :
  same_pages_and_epochs w (store_owner_xct_id a x w).
Proof. by repeat split. Qed.

Lemma same_pages_and_epochs_record_event (ev : Event) (w : World) :
  same_pages_and_epochs w (record_event ev w).
Proof. by repeat split. Qed.

Lemma same_pages_and_epochs_mcs_release_lock (a b : Z) (w : World) :
  same_pages_and_epochs w (mcs_release_lock a b w).
Proof. by repeat split. Qed.

Lemma same_pages_and_epochs_set_write_set (ws : list WriteXctAccess) (w : World) :
  same_pages_and_epochs w (set_write_set ws w).
Proof. by repeat split. Qed.

Lemma same_address_addresses (e : WriteXctAccess) (ws : list WriteXctAccess) (k : nat) :
  same_address e (ws !! k) = true
  <-> (owner_id_address_ <$> ws) !! k = Some (owner_id_address_ e).
Proof.
  rewrite list_lookup_fmap. destruct (ws !! k) as [e'|]; cbn; [|done].
  rewrite Z.eqb_eq. split; [by intros ->|]. by intros [= ->].
Qed.

Section Phase3Owners.

Variable invoke_apply_record : Memory -> WriteXctAccess -> XctId.

Lemma apply_entry_owners (i : nat) (write : WriteXctAccess) (nid ndel : XctId) (w : World) :
  let w' := apply_entry invoke_apply_record i write nid ndel w in
  (forall a, a <> owner_id_address_ write -> owner_at w' a = owner_at w a)
  /\ (same_address write (get_write_set w !! S i) = false ->
      finalized nid ndel (owner_at w' (owner_id_address_ write)))
  /\ same_pages_and_epochs w w'.
Proof.
  cbn zeta. unfold apply_entry.
  set (w1 := stamp_log (log_entry_ write) nid w).
  set (w2 := if same_address write _ then w1 else _).
  set (w3 := store_owner_xct_id (owner_id_address_ write) _ w2).
  assert (H2 : (forall a, a <> owner_id_address_ write -> owner_at w2 a = owner_at w a)
               /\ same_pages_and_epochs w w2).
  { subst w2. destruct (same_address write _); [by split|]. split.
    - intros a Ha. by rewrite owner_at_store_owner_xct_id, decide_False.
    - eapply same_pages_and_epochs_trans; [apply same_pages_and_epochs_stamp_log|].
      apply same_pages_and_epochs_store_owner_xct_id. }
  destruct H2 as [Hframe2 Hsame2].
  assert (Hsame3 : same_pages_and_epochs w w3).
  { eapply same_pages_and_epochs_trans; [exact Hsame2|].
    apply same_pages_and_epochs_store_owner_xct_id. }
  assert (Hframe3 : forall a, a <> owner_id_address_ write -> owner_at w3 a = owner_at w a).
  { intros a Ha. subst w3. rewrite owner_at_store_owner_xct_id, decide_False by done.
    by apply Hframe2. }
  destruct (same_address write (get_write_set w !! S i)); [by split_and!|].
  split_and!.
  - intros a Ha.
    rewrite owner_at_set_write_set, owner_at_mcs_release_lock, decide_False by done.
    rewrite owner_at_record_event, owner_at_store_owner_xct_id, decide_False by done.
    by apply Hframe3.
  - intros _. unfold finalized.
    rewrite owner_at_set_write_set, owner_at_mcs_release_lock, decide_True by done.
    rewrite owner_at_record_event, owner_at_store_owner_xct_id, decide_True by done.
    cbn. split; [done|]. destruct (XctIdOps.is_deleted _); tauto.
  - eapply same_pages_and_epochs_trans; [exact Hsame3|].
    eapply same_pages_and_epochs_trans; [apply same_pages_and_epochs_store_owner_xct_id|].
    eapply same_pages_and_epochs_trans; [apply same_pages_and_epochs_record_event|].
    eapply same_pages_and_epochs_trans; [apply same_pages_and_epochs_mcs_release_lock|].
    apply same_pages_and_epochs_set_write_set.
Qed.

Lemma apply_entry_addresses (i : nat) (write : WriteXctAccess) (nid ndel : XctId) (w : World) :
  get_write_set w !! i = Some write ->
  owner_id_address_ <$> get_write_set (apply_entry invoke_apply_record i write nid ndel w)
  = owner_id_address_ <$> get_write_set w.
Proof.
  intros Hi.
  pose proof (apply_entry_spec invoke_apply_record i write nid ndel w) as Hspec.
  cbn zeta in Hspec. destruct Hspec as (Hws & _).
  destruct (same_address write _).
  - destruct Hws as [-> _]. done.
  - destruct Hws as [-> _]. by apply addresses_insert.
Qed.

Lemma apply_loop_owners (todo : nat) :
  forall (i : nat) (nid ndel : XctId) (w : World),
    (i + todo)%nat = length (get_write_set w) ->
    (forall j a, (j < i)%nat ->
       (owner_id_address_ <$> get_write_set w) !! j = Some a ->
       (owner_id_address_ <$> get_write_set w) !! i = Some a
       \/ finalized nid ndel (owner_at w a)) ->
    let w' := apply_loop invoke_apply_record todo i nid ndel w in
    (forall a, a ∈ owner_id_address_ <$> get_write_set w ->
       finalized nid ndel (owner_at w' a))
    /\ (forall a, a ∉ owner_id_address_ <$> drop i (get_write_set w) ->
          owner_at w' a = owner_at w a)
    /\ same_pages_and_epochs w w'
    /\ owner_id_address_ <$> get_write_set w' = owner_id_address_ <$> get_write_set w.
Proof.
  induction todo as [|todo IH]; intros i nid ndel w Hlen Hinv; cbn [apply_loop].
  { split_and!; [|done|apply same_pages_and_epochs_refl|done].
    intros a Ha. apply list_elem_of_lookup_1 in Ha as [j Hj].
    pose proof (lookup_lt_Some _ _ _ Hj) as Hlt. rewrite length_fmap in Hlt.
    destruct (Hinv j a) as [Hs|Hp]; [lia|done| |done].
    rewrite lookup_ge_None_2 in Hs; [done|]. rewrite length_fmap. lia. }
  destruct (get_write_set w !! i) as [write|] eqn:Hi.
  2:{ apply lookup_ge_None_1 in Hi. lia. }
  pose proof (apply_entry_owners i write nid ndel w) as Hentry. cbn zeta in Hentry.
  destruct Hentry as (Hframe & Hfinal & Hsame).
  pose proof (apply_entry_addresses i write nid ndel w Hi) as Haddr.
  set (w1 := apply_entry invoke_apply_record i write nid ndel w) in *.
  assert (Hai : (owner_id_address_ <$> get_write_set w) !! i
                = Some (owner_id_address_ write)).
  { by rewrite list_lookup_fmap, Hi. }
  destruct (IH (S i) nid ndel w1) as (IH1 & IH2 & IH3 & IH4).
  { apply (f_equal length) in Haddr. rewrite !length_fmap in Haddr. lia. }
  { rewrite Haddr. intros j a Hj Hlook.
    destruct (decide (a = owner_id_address_ write)) as [->|Hne].
    - destruct (same_address write (get_write_set w !! S i)) eqn:Hnext.
      + left. by apply same_address_addresses.
      + right. by apply Hfinal.
    - right. rewrite Hframe by done.
      assert (j <> i) by (intros ->; congruence).
      destruct (Hinv j a) as [Hs|Hp]; [lia|done| |done]. congruence. }
  split_and!.
  - intros a Ha. apply IH1. by rewrite Haddr.
  - intros a Ha. rewrite (drop_S _ _ _ Hi) in Ha. cbn [fmap list_fmap] in Ha.
    apply not_elem_of_cons in Ha as [Hne Hout].
    rewrite IH2, Hframe; [done|done|].
    rewrite fmap_drop, Haddr, <- fmap_drop. exact Hout.
  - by eapply same_pages_and_epochs_trans.
  - by rewrite IH4.
Qed.

Lemma apply_lock_free_owners (nid : XctId) (lfs : list LockFreeWriteXctAccess) :
  forall w : World,
    let w' := fold_left (fun acc write => stamp_log (lf_log_entry_ write) nid acc) lfs w in
    (forall a, owner_at w' a = owner_at w a)
    /\ same_pages_and_epochs w w'
    /\ get_write_set w' = get_write_set w.
Proof.
  induction lfs as [|lf lfs IH]; intros w; cbn [fold_left].
  { split_and!; [done|apply same_pages_and_epochs_refl|done]. }
  destruct (IH (stamp_log (lf_log_entry_ lf) nid w)) as (IH1 & IH2 & IH3).
  cbn zeta. split_and!.
  - intros a. by rewrite IH1.
  - eapply same_pages_and_epochs_trans; [apply same_pages_and_epochs_stamp_log|exact IH2].
  - by rewrite IH3.
Qed.

Lemma precommit_xct_apply_owners
    (w : World) (max_xct_id : XctId) (commit_epoch : Z) :
  let w' := (precommit_xct_apply invoke_apply_record w max_xct_id commit_epoch).1 in
  let new_xct_id := new_xct_id_of w max_xct_id commit_epoch in
  (forall e, e ∈ get_write_set w ->
     finalized new_xct_id (XctIdOps.set_deleted new_xct_id)
       (owner_at w' (owner_id_address_ e)))
  /\ (forall a, a ∉ owner_id_address_ <$> get_write_set w -> owner_at w' a = owner_at w a)
  /\ same_pages_and_epochs w w'
  /\ owner_id_address_ <$> get_write_set w' = owner_id_address_ <$> get_write_set w.
Proof.
  cbn zeta. unfold precommit_xct_apply, new_xct_id_of. cbn zeta. cbn [fst].
  set (w1 := with_xct (issue_next_id max_xct_id commit_epoch (current_xct_ w)).1 w).
  set (nid := XctIdOps.clear_status_bits (id_ (current_xct_ w1))).
  change (XctIdOps.clear_status_bits
            (id_ (issue_next_id max_xct_id commit_epoch (current_xct_ w)).1)) with nid.
  assert (Hws1 : get_write_set w1 = get_write_set w) by done.
  destruct (apply_loop_owners (length (get_write_set w1)) 0 nid (XctIdOps.set_deleted nid) w1)
    as (H1 & H2 & H3 & H4); [done|intros j a Hj; lia|].
  set (w2 := apply_loop invoke_apply_record _ 0 nid _ w1) in *.
  destruct (apply_lock_free_owners nid (lock_free_write_set_ (current_xct_ w2)) w2)
    as (Hf1 & Hf2 & Hf3).
  unfold apply_lock_free. split_and!.
  - intros e He. rewrite Hf1. apply H1. rewrite Hws1. by apply list_elem_of_fmap_2.
  - intros a Ha. rewrite Hf1, H2; [done|]. by rewrite drop_0, Hws1.
  - eapply same_pages_and_epochs_trans; [|exact Hf2].
    eapply same_pages_and_epochs_trans; [|exact H3]. by repeat split.
  - by rewrite Hf3, H4, Hws1.
Qed.

(** X2: Phase 3 leaves every written record free and stamped: after
    [precommit_xct_apply] the owner word of every entry of the write set
    has a free key lock and carries the new transaction id or, for a
    deleted record, its deleted variant, so that it has the commit epoch
    and the new ordinal and is neither being written nor moved; every
    owner word outside the
    write set is what it was; and no dual pointer, page version or epoch
    has changed. *)
Theorem precommit_xct_apply_finalizes_records
    (w : World) (max_xct_id : XctId) (commit_epoch : Z) :
  let w' := (precommit_xct_apply invoke_apply_record w max_xct_id commit_epoch).1 in
  let new_xct_id := new_xct_id_of w max_xct_id commit_epoch in
  (forall e, e ∈ get_write_set w ->
     let o := owner_at w' (owner_id_address_ e) in
     is_keylocked o = false
     /\ (xct_id_ o = new_xct_id \/ xct_id_ o = XctIdOps.set_deleted new_xct_id)
     /\ XctIdOps.get_epoch (xct_id_ o) = commit_epoch
     /\ XctIdOps.get_ordinal (xct_id_ o) = XctIdOps.get_ordinal new_xct_id
     /\ XctIdOps.is_being_written (xct_id_ o) = false
     /\ is_moved o = false)
  /\ (forall a, a ∉ owner_id_address_ <$> get_write_set w -> owner_at w' a = owner_at w a)
  /\ same_pages_and_epochs w w'
  /\ owner_id_address_ <$> get_write_set w' = owner_id_address_ <$> get_write_set w.
Proof.
  cbn zeta.
  pose proof (precommit_xct_apply_owners w max_xct_id commit_epoch) as Hown.
  cbn zeta in Hown. destruct Hown as (Hfinal & Hframe & Hsame & Haddr).
  split; [|done].
  intros e He. destruct (Hfinal e He) as [Hlock Hid].
  unfold is_keylocked, is_moved. rewrite Hlock.
  split; [done|]. split; [exact Hid|].
  destruct Hid as [-> | ->]; done.
Qed.

End Phase3Owners.

(** ** The order of lock acquisitions *)

Lemma ascending_acquisitions_app (h1 h2 : list Event) :
  forall held : list Z,
    ascending_acquisitions held (h1 ++ h2)
    <-> ascending_acquisitions held h1
        /\ ascending_acquisitions (held_after held h1) h2.
Proof.
  induction h1 as [|ev h1 IH]; intros held; cbn; [tauto|].
  destruct ev; rewrite ?IH; tauto.
Qed.

Lemma held_after_app (h1 h2 : list Event) :
  forall held : list Z,
    held_after held (h1 ++ h2) = held_after (held_after held h1) h2.
Proof.
  induction h1 as [|ev h1 IH]; intros held; cbn; [done|].
  destruct ev; by rewrite IH.
Qed.

Lemma ascending_acquisitions_forget_id (h : list Event) :
  forall held : list Z,
    ascending_acquisitions held (forget_id <$> h) <-> ascending_acquisitions held h.
Proof.
  induction h as [|ev h IH]; intros held; cbn; [done|].
  destruct ev; cbn; rewrite ?IH; tauto.
Qed.

Lemma held_after_forget_id (h : list Event) :
  forall held : list Z, held_after held (forget_id <$> h) = held_after held h.
Proof.
  induction h as [|ev h IH]; intros held; cbn; [done|].
  destruct ev; cbn; by rewrite IH.
Qed.

Lemma ascending_acquisitions_releases (l : list WriteXctAccess) :
  forall held : list Z, ascending_acquisitions held (release_event <$> l).
Proof. induction l as [|e l IH]; intros held; cbn; [done|apply IH]. Qed.

Lemma ascending_acquisitions_finalize_release (l : list WriteXctAccess) :
  forall held : list Z, ascending_acquisitions held (flat_map finalize_release l).
Proof. induction l as [|e l IH]; intros held; cbn; [done|apply IH]. Qed.

Lemma not_address_filter (a a' : Z) (held : list Z) :
  a' ∈ List.filter (fun x => negb (x =? a)) held <-> a' ∈ held /\ a' <> a.
Proof.
  rewrite !list_elem_of_In, filter_In, negb_true_iff, Z.eqb_neq. done.
Qed.

Lemma held_after_releases (l : list WriteXctAccess) :
  forall held : list Z,
    (forall a', a' ∈ held -> a' ∈ owner_id_address_ <$> l) ->
    held_after held (release_event <$> l) = [].
Proof.
  induction l as [|e l IH]; intros held Hsub; cbn.
  { destruct held as [|a held]; [done|].
    specialize (Hsub a (list_elem_of_here _ _)). by apply elem_of_nil in Hsub. }
  apply IH. intros a' [Hin Hne]%not_address_filter.
  specialize (Hsub a' Hin). cbn in Hsub. by apply elem_of_cons in Hsub as [?|?].
Qed.

Lemma held_after_finalize_release (l : list WriteXctAccess) :
  forall held : list Z,
    (forall a', a' ∈ held -> a' ∈ owner_id_address_ <$> l) ->
    held_after held (flat_map finalize_release l) = [].
Proof.
  induction l as [|e l IH]; intros held Hsub; cbn.
  { destruct held as [|a held]; [done|].
    specialize (Hsub a (list_elem_of_here _ _)). by apply elem_of_nil in Hsub. }
  apply IH. intros a' [Hin Hne]%not_address_filter.
  specialize (Hsub a' Hin). cbn in Hsub. by apply elem_of_cons in Hsub as [?|?].
Qed.

Lemma locked_address_insert_old
    (ws : list WriteXctAccess) (i : nat) (e : WriteXctAccess) (block a' : Z) :
  ws !! i = Some e ->
  mcs_block_ e = 0 ->
  a' ∈ owner_id_address_ <$> List.filter locked ws ->
  a' ∈ owner_id_address_ <$> List.filter locked (<[i := set_mcs_block block e]> ws).
Proof.
  intros Hi He (e0 & -> & Hin)%list_elem_of_fmap.
  apply list_elem_of_In, filter_In in Hin as [Hin Hlocked].
  apply list_elem_of_In, list_elem_of_lookup_1 in Hin as [j Hj].
  apply list_elem_of_fmap_2, list_elem_of_In, filter_In. split; [|done].
  apply list_elem_of_In. apply (list_elem_of_lookup_2 _ j).
  rewrite list_lookup_insert_ne; [done|]. intros ->.
  rewrite Hi in Hj. injection Hj as <-. unfold locked in Hlocked.
  rewrite He in Hlocked. done.
Qed.

Lemma locked_address_insert_new
    (ws : list WriteXctAccess) (i : nat) (e : WriteXctAccess) (block : Z) :
  ws !! i = Some e ->
  block <> 0 ->
  owner_id_address_ e
  ∈ owner_id_address_ <$> List.filter locked (<[i := set_mcs_block block e]> ws).
Proof.
  intros Hi Hblock.
  change (owner_id_address_ e) with (owner_id_address_ (set_mcs_block block e)).
  apply list_elem_of_fmap_2, list_elem_of_In, filter_In. split.
  - apply list_elem_of_In. apply (list_elem_of_lookup_2 _ i).
    apply list_lookup_insert_eq. by eapply lookup_lt_Some.
  - unfold locked. cbn. by apply negb_true_iff, Z.eqb_neq.
Qed.

Lemma lock_loop_order (todo : nat) :
  forall (i : nat) (w : World) (mx : XctId) (r : bool) (w' : World) (mx' : XctId)
         (held : list Z),
    lock_loop todo i w mx = (r, w', mx') ->
    (i + todo)%nat = length (get_write_set w) ->
    0 <= mcs_block_current_ (current_xct_ w) ->
    sorted_by_address (get_write_set w) ->
    all_unlocked (drop i (get_write_set w)) ->
    (forall a' e, a' ∈ held -> e ∈ drop i (get_write_set w) -> a' < owner_id_address_ e) ->
    (forall a', a' ∈ held ->
       a' ∈ owner_id_address_ <$> List.filter locked (get_write_set w)) ->
    exists evs,
      history_ w' = history_ w ++ evs
      /\ ascending_acquisitions held evs
      /\ if r then held_after held evs = []
         else forall a', a' ∈ held_after held evs ->
                a' ∈ owner_id_address_ <$> List.filter locked (get_write_set w').
Proof.
  induction todo as [|todo IH];
    intros i w mx r w' mx' held Hrun Hlen Hcur Hsorted Hzero Hbelow Hheld.
  { cbn in Hrun. injection Hrun as <- <- <-. exists []. by rewrite app_nil_r. }
  cbn [lock_loop] in Hrun.
  destruct (get_write_set w !! i) as [e|] eqn:Hi.
  2:{ apply lookup_ge_None in Hi. lia. }
  assert (He0 : mcs_block_ e = 0).
  { rewrite (drop_S _ _ _ Hi) in Hzero. by inversion Hzero. }
  assert (Hzero' : all_unlocked (drop (S i) (get_write_set w))).
  { rewrite (drop_S _ _ _ Hi) in Hzero. by inversion Hzero. }
  assert (Hbelow' : forall a' e', a' ∈ held -> e' ∈ drop (S i) (get_write_set w) ->
                                  a' < owner_id_address_ e').
  { intros a' e' Ha' He'. apply Hbelow; [done|].
    rewrite (drop_S _ _ _ Hi). by apply list_elem_of_further. }
  destruct (same_address e (get_write_set w !! S i)) eqn:Hsame.
  { eapply IH; [exact Hrun|lia|done|done|done|done|done]. }
  destruct (mcs_acquire_lock (owner_id_address_ e) w) as [block w1] eqn:Hacq.
  apply mcs_acquire_lock_spec in Hacq as (Hblock & Hws1 & Hh1 & Hc1 & _ & _).
  rewrite Hws1 in Hrun.
  assert (Hbelow_e : Forall (fun a' => a' < owner_id_address_ e) held).
  { apply Forall_forall. intros a' Ha'. apply Hbelow; [done|].
    rewrite (drop_S _ _ _ Hi). apply list_elem_of_here. }
  assert (Hheld2 : forall a', a' ∈ owner_id_address_ e :: held ->
            a' ∈ owner_id_address_
                 <$> List.filter locked (<[i := set_mcs_block block e]> (get_write_set w))).
  { intros a' [->|Ha']%elem_of_cons.
    - apply locked_address_insert_new; [done|lia].
    - apply locked_address_insert_old; [done|done|by apply Hheld]. }
  match type of Hrun with
  | (if is_moved ?o then _ else _) = _ => destruct (is_moved o) eqn:Hmoved
  end.
  - injection Hrun as <- <- <-.
    pose proof (precommit_xct_unlock_history
                  (set_write_set (<[i := set_mcs_block block e]> (get_write_set w)) w1))
      as Hh.
    rewrite get_set_write_set, history_set_write_set, Hh1 in Hh.
    eexists. split; [rewrite Hh, <- app_assoc; reflexivity|].
    cbn. split.
    + split; [done|]. apply ascending_acquisitions_releases.
    + by apply held_after_releases.
  - eapply (IH _ _ _ _ _ _ (owner_id_address_ e :: held)) in Hrun.
    + destruct Hrun as (evs & Hh & Hasc & Hafter).
      rewrite history_set_write_set, Hh1, <- app_assoc in Hh.
      eexists. split; [exact Hh|]. cbn. done.
    + rewrite get_set_write_set, length_insert. lia.
    + rewrite block_current_set_write_set. lia.
    + rewrite get_set_write_set. unfold sorted_by_address.
      by rewrite (addresses_insert _ _ _ _ Hi).
    + rewrite get_set_write_set, drop_insert_lt by lia. done.
    + rewrite get_set_write_set, drop_insert_lt by lia.
      intros a' e' [->|Ha']%elem_of_cons He'; [|by apply Hbelow'].
      apply list_elem_of_lookup_1 in He' as [k Hk]. rewrite lookup_drop in Hk.
      pose proof (sorted_by_address_lookup _ Hsorted i (S i + k) e e'
                    ltac:(lia) Hi Hk) as Hle.
      apply (run_end_last_occurrence _ _ _ Hsorted Hi) in Hsame
        as (e1 & He1 & Hlast).
      rewrite Hi in He1. injection He1 as <-.
      specialize (Hlast (S i + k)%nat e' ltac:(lia) Hk). lia.
    + rewrite get_set_write_set. exact Hheld2.
Qed.

(** ** What Phase 1 leaves of the observations *)

Lemma same_observations_refl (w : World) : same_observations w w.
Proof. by repeat split. Qed.

Lemma same_observations_trans (w1 w2 w3 : World) :
  same_observations w1 w2 -> same_observations w2 w3 -> same_observations w1 w3.
Proof. intros (Ha & Hb & Hc) (Ha' & Hb' & Hc'). repeat split; congruence. Qed.

Lemma same_observations_set_write_set (ws : list WriteXctAccess) (w : World) :
  same_observations w (set_write_set ws w).
Proof. by repeat split. Qed.

Lemma same_observations_mcs_acquire_lock (a : Z) (w : World) :
  same_observations w (mcs_acquire_lock a w).2.
Proof. by repeat split. Qed.

Lemma same_observations_mcs_release_lock (a b : Z) (w : World) :
  same_observations w (mcs_release_lock a b w).
Proof. by repeat split. Qed.

Lemma unlock_entries_same_observations (ws : list WriteXctAccess) :
  forall w : World, same_observations w (unlock_entries ws w).2.
Proof.
  induction ws as [|e ws IH]; intros w; cbn [unlock_entries].
  - apply same_observations_refl.
  - destruct (negb (mcs_block_ e =? 0)).
    + specialize (IH (mcs_release_lock (owner_id_address_ e) (mcs_block_ e) w)).
      destruct (unlock_entries ws _) as [rest' w2]. cbn in *.
      eapply same_observations_trans; [apply same_observations_mcs_release_lock|exact IH].
    + specialize (IH w). destruct (unlock_entries ws w) as [rest' w2]. exact IH.
Qed.

Lemma precommit_xct_unlock_same_observations (w : World) :
  same_observations w (precommit_xct_unlock w).
Proof.
  unfold precommit_xct_unlock.
  pose proof (unlock_entries_same_observations (get_write_set w) w) as H.
  destruct (unlock_entries _ _) as [ws w1].
  eapply same_observations_trans; [exact H|apply same_observations_set_write_set].
Qed.

Lemma lock_loop_same_observations (todo : nat) :
  forall (i : nat) (w : World) (mx : XctId),
    same_observations w (lock_loop todo i w mx).1.2.
Proof.
  induction todo as [|todo IH]; intros i w mx; cbn [lock_loop].
  { apply same_observations_refl. }
  destruct (get_write_set w !! i) as [e|]; [|apply same_observations_refl].
  destruct (same_address e _); [apply IH|].
  pose proof (same_observations_mcs_acquire_lock (owner_id_address_ e) w) as Hacq.
  destruct (mcs_acquire_lock _ w) as [block w1]. cbn [snd] in Hacq.
  match goal with |- context [is_moved (owner_at ?w2 _)] => set (w2' := w2) end.
  assert (H2 : same_observations w w2').
  { eapply same_observations_trans; [exact Hacq|apply same_observations_set_write_set]. }
  destruct (is_moved _).
  - eapply same_observations_trans; [exact H2|apply precommit_xct_unlock_same_observations].
  - eapply same_observations_trans; [exact H2|apply IH].
Qed.

Section Verification.

Variable track_moved_record_read : Memory -> Z -> Z -> Z.

(** ** Verification *)

Lemma read_unchanged_iff (m : Memory) (access : XctAccess) :
  read_unchanged m (track_read track_moved_record_read m access) = true
  <-> read_is_current track_moved_record_read m access.
Proof.
  unfold read_unchanged, read_is_current.
  by rewrite bool_decide_eq_true, observed_track_read.
Qed.

Lemma verify_read_set_readwrite_verdict (m : Memory) (rs : list XctAccess) :
  forall mx : XctId,
    (verify_read_set_readwrite track_moved_record_read m rs mx).1.1 = true
    <-> Forall (read_is_current track_moved_record_read m) rs.
Proof.
  induction rs as [|access rs IH]; intros mx; cbn [verify_read_set_readwrite].
  { split; [constructor|done]. }
  rewrite Forall_cons, <- read_unchanged_iff.
  destruct (read_unchanged m _); cbn [negb].
  - specialize (IH (XctIdOps.store_max mx
                      (observed_owner_id_ (track_read track_moved_record_read m access)))).
    destruct (verify_read_set_readwrite _ _ _ _) as [[ok rest'] mx']. cbn in *. tauto.
  - cbn. split; [done|]. by intros [? _].
Qed.

Lemma verify_read_set_readonly_verdict (m : Memory) (rs : list XctAccess) :
  forall ce : Z,
    (verify_read_set_readonly track_moved_record_read m rs ce).1.1 = true
    <-> Forall (read_is_current track_moved_record_read m) rs.
Proof.
  induction rs as [|access rs IH]; intros ce; cbn [verify_read_set_readonly].
  { split; [constructor|done]. }
  rewrite Forall_cons, <- read_unchanged_iff.
  destruct (read_unchanged m _); cbn [negb].
  - specialize (IH (Epoch.store_max ce
                      (XctIdOps.get_epoch
                         (observed_owner_id_ (track_read track_moved_record_read m access))))).
    destruct (verify_read_set_readonly _ _ _ _) as [[ok rest'] ce']. cbn in *. tauto.
  - cbn. split; [done|]. by intros [? _].
Qed.

Lemma precommit_xct_verify_pointer_set_verdict (w : World) :
  precommit_xct_verify_pointer_set w = true
  <-> Forall (pointer_is_current (memory_ w)) (pointer_set_ (current_xct_ w)).
Proof.
  unfold precommit_xct_verify_pointer_set.
  induction (pointer_set_ (current_xct_ w)) as [|access l IH]; cbn [forallb].
  { split; [constructor|done]. }
  rewrite Forall_cons, andb_true_iff, IH. unfold pointer_is_current. by rewrite Z.eqb_eq.
Qed.

Lemma precommit_xct_verify_page_version_set_verdict (w : World) :
  precommit_xct_verify_page_version_set w = true
  <-> Forall (page_version_is_current (memory_ w)) (page_version_set_ (current_xct_ w)).
Proof.
  unfold precommit_xct_verify_page_version_set.
  induction (page_version_set_ (current_xct_ w)) as [|access l IH]; cbn [forallb].
  { split; [constructor|done]. }
  rewrite Forall_cons, andb_true_iff, IH. unfold page_version_is_current.
  by rewrite Z.eqb_eq.
Qed.

Lemma precommit_xct_verify_readwrite_verdict (w : World) (max_xct_id : XctId) :
  (precommit_xct_verify_readwrite track_moved_record_read w max_xct_id).1.1 = true
  <-> nothing_changed track_moved_record_read w.
Proof.
  unfold nothing_changed.
  rewrite <- precommit_xct_verify_pointer_set_verdict,
    <- precommit_xct_verify_page_version_set_verdict.
  rewrite <- (verify_read_set_readwrite_verdict _ _ max_xct_id).
  unfold precommit_xct_verify_readwrite.
  destruct (verify_read_set_readwrite _ _ _ _) as [[ok rs] mx].
  change (precommit_xct_verify_pointer_set (set_read_set rs w))
    with (precommit_xct_verify_pointer_set w).
  change (precommit_xct_verify_page_version_set (set_read_set rs w))
    with (precommit_xct_verify_page_version_set w).
  destruct ok, (precommit_xct_verify_pointer_set w),
    (precommit_xct_verify_page_version_set w); cbn; tauto.
Qed.

Lemma precommit_xct_verify_readonly_verdict (w : World) (commit_epoch : Z) :
  (precommit_xct_verify_readonly track_moved_record_read w commit_epoch).1.1 = true
  <-> nothing_changed track_moved_record_read w.
Proof.
  unfold nothing_changed.
  rewrite <- precommit_xct_verify_pointer_set_verdict,
    <- precommit_xct_verify_page_version_set_verdict.
  rewrite <- (verify_read_set_readonly_verdict _ _ commit_epoch).
  unfold precommit_xct_verify_readonly.
  destruct (verify_read_set_readonly _ _ _ _) as [[ok rs] ce].
  change (precommit_xct_verify_pointer_set (set_read_set rs w))
    with (precommit_xct_verify_pointer_set w).
  change (precommit_xct_verify_page_version_set (set_read_set rs w))
    with (precommit_xct_verify_page_version_set w).
  destruct ok, (precommit_xct_verify_pointer_set w),
    (precommit_xct_verify_page_version_set w); cbn; tauto.
Qed.

(** X3: Phase 2 passes exactly when nothing that the transaction observed has
    changed: both [precommit_xct_verify_readwrite] and
    [precommit_xct_verify_readonly] return true if and only if every read
    access still sees the owner id it observed (at the address to which its
    record has moved, if it has), every pointer of the pointer set still
    holds the observed word and every page of the page-version set the
    observed version.  The two functions therefore give the same verdict
    on the same state, whatever [max_xct_id] and epoch they are given. *)
Theorem precommit_xct_verify_iff_nothing_changed
    (w : World) (max_xct_id : XctId) (commit_epoch : Z) :
  ((precommit_xct_verify_readwrite track_moved_record_read w max_xct_id).1.1 = true
   <-> nothing_changed track_moved_record_read w)
  /\ ((precommit_xct_verify_readonly track_moved_record_read w commit_epoch).1.1 = true
      <-> nothing_changed track_moved_record_read w)
  /\ forall (other_max_xct_id : XctId) (other_epoch : Z),
       (precommit_xct_verify_readwrite track_moved_record_read w other_max_xct_id).1.1
       = (precommit_xct_verify_readonly track_moved_record_read w other_epoch).1.1.
Proof.
  split; [apply precommit_xct_verify_readwrite_verdict|].
  split; [apply precommit_xct_verify_readonly_verdict|].
  intros mx ce.
  pose proof (precommit_xct_verify_readwrite_verdict w mx) as Hrw.
  pose proof (precommit_xct_verify_readonly_verdict w ce) as Hro.
  destruct (precommit_xct_verify_readwrite _ w mx).1.1,
    (precommit_xct_verify_readonly _ w ce).1.1; try done.
  - symmetry. by apply Hro, Hrw.
  - by apply Hrw, Hro.
Qed.

Lemma verify_read_set_readonly_shape (m : Memory) (rs : list XctAccess) :
  forall ce : Z,
    let rs' := (verify_read_set_readonly track_moved_record_read m rs ce).1.2 in
    observed_owner_id_ <$> rs' = observed_owner_id_ <$> rs
    /\ r_storage_id_ <$> rs' = r_storage_id_ <$> rs
    /\ (Forall (fun access => is_moved (owner_ids_ m (r_owner_id_address_ access)) = false) rs ->
        rs' = rs).
Proof.
  induction rs as [|access rs IH]; intros ce; cbn [verify_read_set_readonly]; [done|].
  assert (Hobs : observed_owner_id_ (track_read track_moved_record_read m access)
                 = observed_owner_id_ access) by apply observed_track_read.
  assert (Hsto : r_storage_id_ (track_read track_moved_record_read m access)
                 = r_storage_id_ access).
  { unfold track_read. by destruct (is_moved _). }
  assert (Hsame : is_moved (owner_ids_ m (r_owner_id_address_ access)) = false ->
                  track_read track_moved_record_read m access = access).
  { unfold track_read. by intros ->. }
  destruct (negb (read_unchanged m _)).
  - cbn. rewrite Hobs, Hsto. split; [done|]. split; [done|].
    intros [Hm _]%Forall_cons. by rewrite Hsame.
  - specialize (IH (Epoch.store_max ce
                      (XctIdOps.get_epoch
                         (observed_owner_id_ (track_read track_moved_record_read m access))))).
    destruct (verify_read_set_readonly _ _ _ _) as [[ok rest'] ce'].
    cbn in *. destruct IH as (IH1 & IH2 & IH3). rewrite Hobs, Hsto, IH1, IH2.
    split; [done|]. split; [done|].
    intros [Hm Hrest]%Forall_cons. by rewrite Hsame, IH3.
Qed.

End Verification.

Section FurtherCommit.

Variable track_moved_record : Memory -> Z -> WriteXctAccess -> option (Z * Z).
Variable track_moved_record_read : Memory -> Z -> Z -> Z.
Variable invoke_apply_record : Memory -> WriteXctAccess -> XctId.
Variable std_sort : list WriteXctAccess -> list WriteXctAccess.

#[local] Abbreviation commit :=
  (precommit_xct track_moved_record track_moved_record_read
     invoke_apply_record std_sort).

Lemma precommit_xct_lock_only_locks (fuel : nat) :
  forall (w : World) (mx : XctId) (ok : bool) (w' : World) (mx' : XctId),
    precommit_xct_lock track_moved_record std_sort fuel w mx = Some (ok, w', mx') ->
    only_locks w w'.
Proof.
  induction fuel as [|fuel IH]; intros w mx ok w' mx'; cbn [precommit_xct_lock]; [done|].
  destruct (track_moved_pass _ _ _) as [tracked_ok tracked].
  destruct tracked_ok; cbn [negb].
  2:{ intros [= <- <- <-]. apply only_locks_set_write_set. }
  pose proof (lock_loop_only_locks
                (length (get_write_set (set_write_set (std_sort tracked) w))) 0
                (set_write_set (std_sort tracked) w) mx) as Hloop.
  destruct (lock_loop _ _ _ _) as [[needs_retry w2] mx2]. cbn in Hloop.
  assert (H2 : only_locks w w2).
  { eapply only_locks_trans; [apply only_locks_set_write_set|exact Hloop]. }
  destruct needs_retry; cbn [negb].
  - intros Hrec. eapply only_locks_trans; [exact H2|]. by eapply IH.
  - by intros [= <- <- <-].
Qed.

(** X4: An aborted pre-commit changes no record: whenever [precommit_xct]
    returns [kErrorCodeXctRaceAbort], every owner transaction id, log
    header, dual pointer and page version is what it was before the call,
    the epochs are unchanged, and all that the call did to shared memory
    were calls to the lock interface. *)
Theorem precommit_xct_race_abort_changes_no_record
    (fuel : nat) (w : World) (commit_epoch : Z) (w' : World) (commit_epoch' : Z) :
  commit fuel w commit_epoch = Some (kErrorCodeXctRaceAbort, w', commit_epoch') ->
  same_records (memory_ w) (memory_ w')
  /\ current_global_epoch_ w' = current_global_epoch_ w
  /\ durable_global_epoch_ w' = durable_global_epoch_ w
  /\ exists evs, history_ w' = history_ w ++ evs
       /\ Forall (fun ev => is_lock_event ev = true) evs.
Proof.
  unfold precommit_xct.
  destruct (negb (is_active (current_xct_ w))); [done|].
  assert (Hgoal : forall (w1 : World),
    only_locks w w1 ->
    same_records (memory_ w) (memory_ w1)
    /\ current_global_epoch_ w1 = current_global_epoch_ w
    /\ durable_global_epoch_ w1 = durable_global_epoch_ w
    /\ exists evs, history_ w1 = history_ w ++ evs
         /\ Forall (fun ev => is_lock_event ev = true) evs).
  { intros w1 (Hm & _ & Hc & Hd & _ & Hh). done. }
  destruct (is_read_only (current_xct_ w)).
  - unfold precommit_xct_readonly.
    destruct (precommit_xct_verify_readonly _ _ _) as [[v w1] ce1] eqn:Hver.
    apply precommit_xct_verify_readonly_frame in Hver as [rs ->].
    destruct v; [done|]. intros [= <- <-].
    exact (Hgoal (set_read_set rs w) (only_locks_set_read_set rs w)).
  - rewrite precommit_xct_readwrite_unfold; cbn zeta.
    destruct (precommit_xct_lock _ _ _ _ _) as [[[ok w1] mx1]|] eqn:Hlock; [|done].
    apply precommit_xct_lock_only_locks in Hlock.
    destruct ok.
    2:{ intros [= <- <-]. exact (Hgoal w1 Hlock). }
    destruct (precommit_xct_verify_readwrite _ _ _) as [[verified w3] mx2] eqn:Hver.
    apply precommit_xct_verify_readwrite_frame in Hver as [rs ->].
    destruct verified; [done|]. intros [= <- <-].
    refine (Hgoal (set_in_commit_log_epoch Epoch.kEpochInvalid
                     (precommit_xct_unlock
                        (set_read_set rs
                           (set_in_commit_log_epoch (get_current_global_epoch_weak w1) w1))))
              _).
    eapply only_locks_trans; [exact Hlock|].
    eapply only_locks_trans; [apply only_locks_set_in_commit_log_epoch|].
    eapply only_locks_trans; [apply only_locks_set_read_set|].
    eapply only_locks_trans; [apply precommit_xct_unlock_only_locks|].
    apply only_locks_set_in_commit_log_epoch.
Qed.

(** ** The read-only path *)

(** X5: A read-only pre-commit takes no lock and writes nothing to shared
    memory: whatever it returns, the memory, the history of lock calls and
    stores, the epochs and the write set are what they were; of the read
    set only the addresses of moved records are rewritten (nothing at all
    when no read record has moved); the log buffer is left alone when the
    call returns [kErrorCodeOk]; and the retry loop of Phase 1 is never
    entered, so the call returns whatever the bound on that loop. *)
Theorem precommit_xct_readonly_takes_no_lock
    (fuel : nat) (w : World) (commit_epoch : Z)
    (code : ErrorCode) (w' : World) (commit_epoch' : Z) :
  is_active (current_xct_ w) = true ->
  is_read_only (current_xct_ w) = true ->
  commit fuel w commit_epoch = Some (code, w', commit_epoch') ->
  memory_ w' = memory_ w
  /\ history_ w' = history_ w
  /\ current_global_epoch_ w' = current_global_epoch_ w
  /\ durable_global_epoch_ w' = durable_global_epoch_ w
  /\ epoch_advance_wakeup_ w' = epoch_advance_wakeup_ w
  /\ get_write_set w' = get_write_set w
  /\ (code = kErrorCodeOk -> log_buffer_ w' = log_buffer_ w)
  /\ observed_owner_id_ <$> read_set_ (current_xct_ w')
     = observed_owner_id_ <$> read_set_ (current_xct_ w)
  /\ r_storage_id_ <$> read_set_ (current_xct_ w')
     = r_storage_id_ <$> read_set_ (current_xct_ w)
  /\ (Forall (fun access =>
                is_moved (owner_ids_ (memory_ w) (r_owner_id_address_ access)) = false)
        (read_set_ (current_xct_ w)) ->
      read_set_ (current_xct_ w') = read_set_ (current_xct_ w))
  /\ commit 0%nat w commit_epoch = Some (code, w', commit_epoch').
Proof.
  intros Hactive Hro. unfold precommit_xct. rewrite Hactive, Hro. cbn [negb].
  unfold precommit_xct_readonly, precommit_xct_verify_readonly.
  pose proof (verify_read_set_readonly_shape track_moved_record_read (memory_ w)
                (read_set_ (current_xct_ w))
                Epoch.kEpochInvalid) as Hshape.
  destruct (verify_read_set_readonly _ _ _ _) as [[ok rs] ce]. cbn in Hshape.
  destruct Hshape as (Hobs & Hsto & Hsame).
  assert (Hgoal : forall (v : bool) (ce1 : Z),
    (if v
     then Some (kErrorCodeOk,
                with_xct (deactivate (current_xct_ (set_read_set rs w))) (set_read_set rs w),
                ce1)
     else Some (kErrorCodeXctRaceAbort,
                with_log_buffer
                  (discard_current_xct_log
                     (log_buffer_
                        (with_xct (deactivate (current_xct_ (set_read_set rs w)))
                           (set_read_set rs w))))
                  (with_xct (deactivate (current_xct_ (set_read_set rs w)))
                     (set_read_set rs w)),
                ce1))
    = Some (code, w', commit_epoch') ->
    memory_ w' = memory_ w
    /\ history_ w' = history_ w
    /\ current_global_epoch_ w' = current_global_epoch_ w
    /\ durable_global_epoch_ w' = durable_global_epoch_ w
    /\ epoch_advance_wakeup_ w' = epoch_advance_wakeup_ w
    /\ get_write_set w' = get_write_set w
    /\ (code = kErrorCodeOk -> log_buffer_ w' = log_buffer_ w)
    /\ observed_owner_id_ <$> read_set_ (current_xct_ w')
       = observed_owner_id_ <$> read_set_ (current_xct_ w)
    /\ r_storage_id_ <$> read_set_ (current_xct_ w')
       = r_storage_id_ <$> read_set_ (current_xct_ w)
    /\ (Forall (fun access =>
                  is_moved (owner_ids_ (memory_ w) (r_owner_id_address_ access)) = false)
          (read_set_ (current_xct_ w)) ->
        read_set_ (current_xct_ w') = read_set_ (current_xct_ w))).
  { intros v ce1. destruct v; intros [= <- <- <-]; repeat split; try done. }
  destruct ok; cbn [negb].
  2:{ intros H. split_and!; try apply (Hgoal false ce H). exact H. }
  destruct (negb (precommit_xct_verify_pointer_set _)).
  { intros H. split_and!; try apply (Hgoal false _ H). exact H. }
  destruct (negb (precommit_xct_verify_page_version_set _)).
  { intros H. split_and!; try apply (Hgoal false _ H). exact H. }
  intros H. split_and!; try apply (Hgoal true _ H). exact H.
Qed.

(** ** Phase 1 *)

Lemma precommit_xct_lock_pins (fuel : nat) :
  forall (w : World) (mx : XctId) (w1 : World) (mx1 : XctId),
    0 <= mcs_block_current_ (current_xct_ w) ->
    precommit_xct_lock track_moved_record std_sort fuel w mx = Some (true, w1, mx1) ->
    write_set_pinned w1.
Proof.
  induction fuel as [|fuel IH]; intros w mx w1 mx1 Hcur; cbn [precommit_xct_lock]; [done|].
  destruct (track_moved_pass _ _ _) as [tracked_ok tracked].
  destruct tracked_ok; cbn [negb]; [|done].
  destruct (lock_loop _ _ _ _) as [[needs_retry w2] mx2] eqn:Hloop.
  destruct needs_retry; cbn [negb].
  - apply IH. apply lock_loop_block_current in Hloop.
    rewrite block_current_set_write_set in Hloop. lia.
  - intros [= <- <-]. eapply lock_loop_pins; [exact Hloop|done| |].
    + by rewrite block_current_set_write_set.
    + intros j e Hj. lia.
Qed.

(** X6: Phase 1 pins the write set: whenever [precommit_xct_lock] succeeds,
    the owner word of every entry of the write set is key-locked and does
    not carry the moved bit, and this is still so after Phase 2, whatever
    its verdict.  These are the conditions that [precommit_xct_lock] and
    [precommit_xct_readwrite] assert in debug builds. *)
Theorem precommit_xct_lock_pins_write_set
    (fuel : nat) (w : World) (mx : XctId) (w1 : World) (mx1 : XctId) :
  0 <= mcs_block_current_ (current_xct_ w) ->
  precommit_xct_lock track_moved_record std_sort fuel w mx = Some (true, w1, mx1) ->
  write_set_pinned w1
  /\ forall (e : Z) (mx2 : XctId),
       write_set_pinned
         (precommit_xct_verify_readwrite track_moved_record_read
            (set_in_commit_log_epoch e w1) mx2).1.2.
Proof.
  intros Hcur Hlock.
  pose proof (precommit_xct_lock_pins _ _ _ _ _ Hcur Hlock) as Hpin.
  split; [exact Hpin|]. intros e mx2.
  destruct (precommit_xct_verify_readwrite _ _ _) as [[verified w3] mx3] eqn:Hver.
  apply precommit_xct_verify_readwrite_frame in Hver as [rs ->].
  intros e0 He0. exact (Hpin e0 He0).
Qed.

Lemma track_moved_pass_verdict (m : Memory) (ws : list WriteXctAccess) :
  (track_moved_pass track_moved_record m ws).1 = false
  <-> Exists (untrackable track_moved_record m) ws.
Proof.
  induction ws as [|e ws IH]; cbn [track_moved_pass].
  { split; [done|]. intros H. by apply Exists_nil in H. }
  rewrite Exists_cons. unfold untrackable at 1.
  destruct (is_moved _).
  - destruct (track_moved_record m (storage_id_ e) e) as [[a p]|].
    + destruct (track_moved_pass _ m ws) as [ok rest']. cbn in *.
      rewrite IH. split; [by right|]. by intros [[_ ?]|?].
    + cbn. split; [by left|done].
  - destruct (track_moved_pass _ m ws) as [ok rest']. cbn in *.
    rewrite IH. split; [by right|]. by intros [[? _]|?].
Qed.

Lemma track_moved_pass_shape (m : Memory) (ws : list WriteXctAccess) :
  let tracked := (track_moved_pass track_moved_record m ws).2 in
  storage_id_ <$> tracked = storage_id_ <$> ws
  /\ log_entry_ <$> tracked = log_entry_ <$> ws
  /\ mcs_block_ <$> tracked = mcs_block_ <$> ws.
Proof.
  induction ws as [|e ws IH]; cbn [track_moved_pass]; [done|].
  destruct (is_moved _).
  - destruct (track_moved_record m (storage_id_ e) e) as [[a p]|]; [|done].
    destruct (track_moved_pass _ m ws) as [ok rest']. cbn in *.
    destruct IH as (-> & -> & ->). done.
  - destruct (track_moved_pass _ m ws) as [ok rest']. cbn in *.
    destruct IH as (-> & -> & ->). done.
Qed.

(** X7: Phase 1 gives up exactly when a written record has moved where the
    storage cannot follow.  If the write set holds such a record, then
    [precommit_xct_lock] returns false in its first pass, before it has
    sorted or locked anything: only addresses of the write set have been
    rewritten, [max_xct_id] is what it was, and [precommit_xct] on a
    read-write transaction returns [kErrorCodeXctRaceAbort] with the
    caller's [commit_epoch], the memory and the history untouched.  If the
    write set holds no such record, the first pass does not give up. *)
Theorem precommit_xct_lock_fails_on_untrackable_record
    (fuel : nat) (w : World) (mx : XctId) (commit_epoch : Z) :
  let tracked := (track_moved_pass track_moved_record (memory_ w) (get_write_set w)).2 in
  (Exists (untrackable track_moved_record (memory_ w)) (get_write_set w) ->
   precommit_xct_lock track_moved_record std_sort (S fuel) w mx
   = Some (false, set_write_set tracked w, mx)
   /\ storage_id_ <$> tracked = storage_id_ <$> get_write_set w
   /\ log_entry_ <$> tracked = log_entry_ <$> get_write_set w
   /\ mcs_block_ <$> tracked = mcs_block_ <$> get_write_set w
   /\ (is_active (current_xct_ w) = true ->
       is_read_only (current_xct_ w) = false ->
       exists w',
         commit (S fuel) w commit_epoch
         = Some (kErrorCodeXctRaceAbort, w', commit_epoch)
         /\ memory_ w' = memory_ w
         /\ history_ w' = history_ w
         /\ get_write_set w' = tracked))
  /\ (~ Exists (untrackable track_moved_record (memory_ w)) (get_write_set w) ->
      forall (w' : World) (mx' : XctId),
        precommit_xct_lock track_moved_record std_sort 1%nat w mx <> Some (false, w', mx')).
Proof.
  cbn zeta. split.
  - intros Hex. apply track_moved_pass_verdict in Hex.
    pose proof (track_moved_pass_shape (memory_ w) (get_write_set w)) as Hshape.
    cbn zeta in Hshape.
    assert (Hlock : forall mx0,
              precommit_xct_lock track_moved_record std_sort (S fuel) w mx0
              = Some (false,
                      set_write_set
                        (track_moved_pass track_moved_record (memory_ w)
                           (get_write_set w)).2 w, mx0)).
    { intros mx0. cbn [precommit_xct_lock].
      destruct (track_moved_pass _ _ _) as [ok tracked]. cbn in Hex. by subst ok. }
    split; [apply Hlock|]. split; [apply Hshape|]. split; [apply Hshape|].
    split; [apply Hshape|].
    intros Hactive Hro. unfold precommit_xct. rewrite precommit_xct_readwrite_unfold; cbn zeta.
    rewrite Hactive, Hro, Hlock. cbn [negb]. eexists. split; [reflexivity|]. done.
  - intros Hnone w' mx'. cbn [precommit_xct_lock].
    destruct (track_moved_pass _ _ _) as [ok tracked] eqn:Hpass.
    destruct ok; cbn [negb].
    + destruct (lock_loop _ _ _ _) as [[needs_retry w2] mx2].
      by destruct needs_retry.
    + exfalso. apply Hnone, track_moved_pass_verdict. by rewrite Hpass.
Qed.

(** ** The commit path of a read-write transaction *)

Lemma precommit_xct_commit_effect
    (fuel : nat) (w : World) (commit_epoch : Z) (w' : World) (commit_epoch' : Z) :
  is_read_only (current_xct_ w) = false ->
  commit fuel w commit_epoch = Some (kErrorCodeOk, w', commit_epoch') ->
  let new_xct_id := XctIdOps.clear_status_bits (id_ (current_xct_ w')) in
  commit_epoch' = current_global_epoch_ w
  /\ log_buffer_ w' = publish_committed_log commit_epoch' (log_buffer_ w)
  /\ in_commit_log_epoch_ (current_xct_ w') = Epoch.kEpochInvalid
  /\ is_active (current_xct_ w') = false
  /\ current_global_epoch_ w' = current_global_epoch_ w
  /\ durable_global_epoch_ w' = durable_global_epoch_ w
  /\ forall e, e ∈ get_write_set w' ->
       finalized new_xct_id (XctIdOps.set_deleted new_xct_id)
         (owner_at w' (owner_id_address_ e)).
Proof.
  intros Hrw. unfold precommit_xct.
  destruct (negb (is_active (current_xct_ w))); [done|].
  rewrite Hrw. rewrite precommit_xct_readwrite_unfold; cbn zeta.
  destruct (precommit_xct_lock _ _ _ _ _) as [[[ok w1] mx1]|] eqn:Hlock; [|done].
  apply precommit_xct_lock_only_locks in Hlock.
  destruct Hlock as (_ & Hbuf & Hcur & Hdur & _).
  destruct ok; [|done].
  destruct (precommit_xct_verify_readwrite _ _ _) as [[verified w3] mx2] eqn:Hver.
  apply precommit_xct_verify_readwrite_frame in Hver as [rs ->].
  destruct verified; [|done].
  set (w3 := set_read_set rs (set_in_commit_log_epoch (get_current_global_epoch_weak w1) w1)).
  set (ce := get_current_global_epoch_weak
               (set_in_commit_log_epoch (get_current_global_epoch_weak w1) w1)).
  pose proof (precommit_xct_apply_spec invoke_apply_record w3 mx2 ce) as Hspec.
  pose proof (precommit_xct_apply_owners invoke_apply_record w3 mx2 ce) as Hown.
  cbn zeta in Hspec, Hown.
  destruct Hspec as (_ & _ & _ & _ & _ & Hid & Hbuf3).
  destruct Hown as (Hfinal & _ & (_ & _ & Hcur3 & Hdur3 & _) & Haddr).
  set (w4 := (precommit_xct_apply invoke_apply_record w3 mx2 ce).1) in *.
  intros [= <- <-]. cbn zeta.
  assert (Hce : ce = current_global_epoch_ w) by (subst ce; cbn; done).
  split; [exact Hce|].
  split. { cbn. rewrite Hbuf3. subst w3. cbn. by rewrite Hbuf. }
  split; [done|]. split; [done|].
  split. { cbn. rewrite Hcur3. subst w3. cbn. done. }
  split. { cbn. rewrite Hdur3. subst w3. cbn. done. }
  intros e He.
  change (owner_at ?w0 (owner_id_address_ e)) with (owner_at w4 (owner_id_address_ e)).
  change (get_write_set _) with (get_write_set w4) in He.
  change (id_ (current_xct_ _)) with (id_ (current_xct_ w4)).
  rewrite Hid.
  assert (Hin : owner_id_address_ e ∈ owner_id_address_ <$> get_write_set w3).
  { rewrite <- Haddr. by apply list_elem_of_fmap_2. }
  apply list_elem_of_fmap in Hin as (e3 & -> & He3).
  by apply Hfinal.
Qed.

(** X8: A committed read-write transaction is published and stamped: whenever
    [precommit_xct] returns [kErrorCodeOk] for a transaction that is not
    read-only, the commit epoch is the current global epoch, which the call
    has not changed; the log buffer is the one it started with after
    [publish_committed_log] for that epoch, so that the log of the
    transaction is committed and none is pending; [in_commit_log_epoch_] is
    invalid again and the context is inactive; and every record of the
    write set is free and carries the id that the context has issued, or
    its deleted variant. *)
Theorem precommit_xct_commit_publishes_log
    (fuel : nat) (w : World) (commit_epoch : Z) (w' : World) (commit_epoch' : Z) :
  is_read_only (current_xct_ w) = false ->
  commit fuel w commit_epoch = Some (kErrorCodeOk, w', commit_epoch') ->
  let new_xct_id := XctIdOps.clear_status_bits (id_ (current_xct_ w')) in
  commit_epoch' = current_global_epoch_ w
  /\ log_buffer_ w' = publish_committed_log commit_epoch' (log_buffer_ w)
  /\ offset_committed_ (log_buffer_ w') = offset_tail_ (log_buffer_ w)
  /\ log_buffer_clean w'
  /\ in_commit_log_epoch_ (current_xct_ w') = Epoch.kEpochInvalid
  /\ is_active (current_xct_ w') = false
  /\ current_global_epoch_ w' = current_global_epoch_ w
  /\ durable_global_epoch_ w' = durable_global_epoch_ w
  /\ forall e, e ∈ get_write_set w' ->
       is_keylocked (owner_at w' (owner_id_address_ e)) = false
       /\ (xct_id_ (owner_at w' (owner_id_address_ e)) = new_xct_id
           \/ xct_id_ (owner_at w' (owner_id_address_ e))
              = XctIdOps.set_deleted new_xct_id).
Proof.
  intros Hrw Hrun.
  pose proof (precommit_xct_commit_effect _ _ _ _ _ Hrw Hrun) as Heff.
  cbn zeta in *. destruct Heff as (Hce & Hbuf & Hguard & Hinactive & Hcur & Hdur & Hfinal).
  split; [exact Hce|]. split; [exact Hbuf|].
  split; [by rewrite Hbuf|]. split; [unfold log_buffer_clean; by rewrite Hbuf|].
  split; [exact Hguard|]. split; [exact Hinactive|].
  split; [exact Hcur|]. split; [exact Hdur|].
  intros e He. destruct (Hfinal e He) as [Hlock Hid].
  split; [|exact Hid]. unfold is_keylocked. by rewrite Hlock.
Qed.

(** ** The life cycle of a transaction *)

Lemma precommit_xct_abort_effect
    (fuel : nat) (w : World) (commit_epoch : Z) (w' : World) (commit_epoch' : Z) :
  commit fuel w commit_epoch = Some (kErrorCodeXctRaceAbort, w', commit_epoch') ->
  is_active (current_xct_ w') = false
  /\ log_buffer_ w' = discard_current_xct_log (log_buffer_ w).
Proof.
  unfold precommit_xct.
  destruct (negb (is_active (current_xct_ w))); [done|].
  assert (Hgoal : forall (w1 : World),
    only_locks w w1 ->
    discard_current_xct_log (log_buffer_ w1) = discard_current_xct_log (log_buffer_ w)).
  { intros w1 (_ & -> & _). done. }
  destruct (is_read_only (current_xct_ w)).
  - unfold precommit_xct_readonly.
    destruct (precommit_xct_verify_readonly _ _ _) as [[v w1] ce1] eqn:Hver.
    apply precommit_xct_verify_readonly_frame in Hver as [rs ->].
    destruct v; [done|]. intros [= <- <-]. split; [done|].
    exact (Hgoal (set_read_set rs w) (only_locks_set_read_set rs w)).
  - rewrite precommit_xct_readwrite_unfold; cbn zeta.
    destruct (precommit_xct_lock _ _ _ _ _) as [[[ok w1] mx1]|] eqn:Hlock; [|done].
    apply precommit_xct_lock_only_locks in Hlock.
    destruct ok.
    2:{ intros [= <- <-]. split; [done|]. exact (Hgoal w1 Hlock). }
    destruct (precommit_xct_verify_readwrite _ _ _) as [[verified w3] mx2] eqn:Hver.
    apply precommit_xct_verify_readwrite_frame in Hver as [rs ->].
    destruct verified; [done|]. intros [= <- <-]. split; [done|].
    refine (Hgoal (set_in_commit_log_epoch Epoch.kEpochInvalid
                     (precommit_xct_unlock
                        (set_read_set rs
                           (set_in_commit_log_epoch (get_current_global_epoch_weak w1) w1))))
              _).
    eapply only_locks_trans; [exact Hlock|].
    eapply only_locks_trans; [apply only_locks_set_in_commit_log_epoch|].
    eapply only_locks_trans; [apply only_locks_set_read_set|].
    eapply only_locks_trans; [apply precommit_xct_unlock_only_locks|].
    apply only_locks_set_in_commit_log_epoch.
Qed.

Lemma precommit_xct_readonly_effect
    (fuel : nat) (w : World) (commit_epoch : Z) (w' : World) (commit_epoch' : Z) :
  is_read_only (current_xct_ w) = true ->
  commit fuel w commit_epoch = Some (kErrorCodeOk, w', commit_epoch') ->
  is_active (current_xct_ w') = false /\ log_buffer_ w' = log_buffer_ w.
Proof.
  intros Hro. unfold precommit_xct.
  destruct (negb (is_active (current_xct_ w))); [done|].
  rewrite Hro. unfold precommit_xct_readonly.
  destruct (precommit_xct_verify_readonly _ _ _) as [[v w1] ce1] eqn:Hver.
  apply precommit_xct_verify_readonly_frame in Hver as [rs ->].
  destruct v; [|done]. by intros [= <- <-].
Qed.

Lemma precommit_xct_codes
    (fuel : nat) (w : World) (commit_epoch : Z)
    (code : ErrorCode) (w' : World) (commit_epoch' : Z) :
  commit fuel w commit_epoch = Some (code, w', commit_epoch') ->
  (code = kErrorCodeXctNoXct /\ w' = w /\ is_active (current_xct_ w) = false)
  \/ code = kErrorCodeOk \/ code = kErrorCodeXctRaceAbort.
Proof.
  unfold precommit_xct.
  destruct (is_active (current_xct_ w)); cbn [negb].
  2:{ intros [= <- <- <-]. by left. }
  destruct (if is_read_only (current_xct_ w) then _ else _) as [[[success w1] ce1]|];
    [|done].
  destruct success; intros [= <- <- <-]; tauto.
Qed.

(** X9: The assertions at the head of [begin_xct] hold from one transaction to
    the next: if the log buffer holds no uncommitted log whenever no
    transaction is running, and a read-only transaction has logged
    nothing (as [precommit_xct_readonly] asserts), then this is so again
    after [begin_xct], [abort_xct] or [precommit_xct] has returned, with
    whatever code; [abort_xct] and [precommit_xct] leave no transaction
    running; a [begin_xct] that returns [kErrorCodeOk] starts with a clean
    log buffer, a zero MCS block counter and empty read, write and
    lock-free write sets; and one that returns
    [kErrorCodeXctAlreadyRunning] has changed nothing. *)
Theorem begin_xct_starts_clean (w : World) :
  idle_clean w ->
  (is_active (current_xct_ w) = true ->
   is_read_only (current_xct_ w) = true -> log_buffer_clean w) ->
  (forall (level : IsolationLevel) (code : ErrorCode) (w1 : World),
     begin_xct level w = (code, w1) ->
     idle_clean w1
     /\ (code = kErrorCodeOk ->
         is_active (current_xct_ w) = false
         /\ is_active (current_xct_ w1) = true
         /\ log_buffer_clean w1
         /\ mcs_block_current_ (current_xct_ w1) = 0
         /\ read_set_ (current_xct_ w1) = []
         /\ write_set_ (current_xct_ w1) = []
         /\ lock_free_write_set_ (current_xct_ w1) = [])
     /\ (code = kErrorCodeXctAlreadyRunning ->
         is_active (current_xct_ w) = true /\ w1 = w)
     /\ (code = kErrorCodeOk \/ code = kErrorCodeXctAlreadyRunning))
  /\ (forall (code : ErrorCode) (w1 : World),
        abort_xct w = (code, w1) ->
        idle_clean w1 /\ is_active (current_xct_ w1) = false)
  /\ (forall (fuel : nat) (commit_epoch : Z) (code : ErrorCode) (w1 : World)
             (commit_epoch1 : Z),
        commit fuel w commit_epoch = Some (code, w1, commit_epoch1) ->
        idle_clean w1 /\ is_active (current_xct_ w1) = false).
Proof.
  intros Hidle Hro. split_and!.
  - intros level code w1. unfold begin_xct.
    destruct (is_active (current_xct_ w)) eqn:Hactive; intros [= <- <-].
    + split; [done|]. split; [done|]. split; [done|]. by right.
    + split; [done|]. split; [|split; [done|by left]].
      intros _. split_and!; try done. by apply Hidle.
  - intros code w1. unfold abort_xct.
    destruct (is_active (current_xct_ w)) eqn:Hactive; cbn [negb]; intros [= <- <-].
    + split; [|done]. intros _. done.
    + split; [|done]. done.
  - intros fuel ce code w1 ce1 Hrun.
    destruct (precommit_xct_codes _ _ _ _ _ _ Hrun) as [(-> & -> & Hinactive) | [ -> | -> ]].
    + done.
    + destruct (is_read_only (current_xct_ w)) eqn:Hreadonly.
      * destruct (precommit_xct_readonly_effect _ _ _ _ _ Hreadonly Hrun) as [Hin Hbuf].
        split; [|done]. intros _. unfold log_buffer_clean. rewrite Hbuf.
        apply Hro; [|done].
        unfold precommit_xct in Hrun.
        destruct (is_active (current_xct_ w)); [done|]. by cbn in Hrun.
      * pose proof (precommit_xct_commit_effect _ _ _ _ _ Hreadonly Hrun) as Heff.
        cbn zeta in Heff. destruct Heff as (_ & Hbuf & _ & Hin & _).
        split; [|done]. intros _. unfold log_buffer_clean. by rewrite Hbuf.
    + destruct (precommit_xct_abort_effect _ _ _ _ _ Hrun) as [Hin Hbuf].
      split; [|done]. intros _. unfold log_buffer_clean. by rewrite Hbuf.
Qed.

End FurtherCommit.

Section LockOrder.

Variable track_moved_record : Memory -> Z -> WriteXctAccess -> option (Z * Z).
Variable track_moved_record_read : Memory -> Z -> Z -> Z.
Variable invoke_apply_record : Memory -> WriteXctAccess -> XctId.
Variable std_sort : list WriteXctAccess -> list WriteXctAccess.
Hypothesis std_sort_perm : forall l, std_sort l ≡ₚ l.
Hypothesis std_sort_sorted : forall l, sorted_by_address (std_sort l).

Lemma precommit_xct_lock_order (fuel : nat) :
  forall (w : World) (mx : XctId) (ok : bool) (w' : World) (mx' : XctId),
    precommit_xct_lock track_moved_record std_sort fuel w mx = Some (ok, w', mx') ->
    0 <= mcs_block_current_ (current_xct_ w) ->
    all_unlocked (get_write_set w) ->
    exists evs,
      history_ w' = history_ w ++ evs
      /\ ascending_acquisitions [] evs
      /\ if ok
         then forall a', a' ∈ held_after [] evs ->
                a' ∈ owner_id_address_ <$> List.filter locked (get_write_set w')
         else held_after [] evs = [].
Proof.
  induction fuel as [|fuel IH]; intros w mx ok w' mx' Hrun Hcur Hzero;
    cbn [precommit_xct_lock] in Hrun; [done|].
  pose proof (track_moved_pass_all_unlocked track_moved_record (memory_ w) _ Hzero) as Hzero1.
  destruct (track_moved_pass _ _ _) as [tracked_ok tracked]. cbn [snd] in Hzero1.
  destruct tracked_ok; cbn [negb] in Hrun.
  2:{ injection Hrun as <- <- <-. exists []. by rewrite history_set_write_set, app_nil_r. }
  apply (std_sort_all_unlocked std_sort std_sort_perm) in Hzero1.
  destruct (lock_loop _ _ _ _) as [[needs_retry w2] mx2] eqn:Hloop.
  pose proof (lock_loop_order _ _ _ _ _ _ _ [] Hloop) as Horder.
  rewrite get_set_write_set, block_current_set_write_set, history_set_write_set in Horder.
  destruct Horder as (evs1 & Hh1 & Hasc1 & Hafter1);
    [done|done|apply std_sort_sorted|done| | |].
  { intros a' e Ha'. by apply elem_of_nil in Ha'. }
  { intros a' Ha'. by apply elem_of_nil in Ha'. }
  destruct needs_retry; cbn [negb] in Hrun.
  - pose proof (lock_loop_block_current _ _ _ _ _ _ _ Hloop) as Hcur2.
    rewrite block_current_set_write_set in Hcur2.
    apply lock_loop_spec in Hloop; [|by rewrite get_set_write_set
                                     |by rewrite block_current_set_write_set
                                     |by rewrite get_set_write_set].
    apply IH in Hrun as (evs2 & Hh2 & Hasc2 & Hafter2); [|lia|done].
    exists (evs1 ++ evs2). split; [by rewrite Hh2, Hh1, app_assoc|].
    split; [apply ascending_acquisitions_app; by rewrite Hafter1|].
    by rewrite held_after_app, Hafter1.
  - injection Hrun as <- <- <-. by exists evs1.
Qed.

(** X10: [precommit_xct] takes its locks in ascending order of address, in
    every pass of Phase 1: whenever it acquires a key lock, the address is
    above the address of every lock that the worker holds at that time; and
    when the call returns, with whatever code, it holds none of the locks
    it has taken.  This is what rules out a deadlock between committing
    workers. *)
Theorem precommit_xct_locks_in_address_order
    (fuel : nat) (w : World) (commit_epoch : Z)
    (code : ErrorCode) (w' : World) (commit_epoch' : Z) :
  0 <= mcs_block_current_ (current_xct_ w) ->
  all_unlocked (get_write_set w) ->
  precommit_xct track_moved_record track_moved_record_read invoke_apply_record std_sort
    fuel w commit_epoch = Some (code, w', commit_epoch') ->
  exists evs,
    history_ w' = history_ w ++ evs
    /\ ascending_acquisitions [] evs
    /\ held_after [] evs = [].
Proof.
  intros Hcur Hzero. unfold precommit_xct.
  destruct (negb (is_active (current_xct_ w))).
  { intros [= <- <- <-]. exists []. by rewrite app_nil_r. }
  assert (Hgoal : forall (success : bool) (w1 : World) (ce1 : Z),
    (exists evs, history_ w1 = history_ w ++ evs
       /\ ascending_acquisitions [] evs /\ held_after [] evs = []) ->
    (if success
     then Some (kErrorCodeOk, with_xct (deactivate (current_xct_ w1)) w1, ce1)
     else Some (kErrorCodeXctRaceAbort,
                with_log_buffer
                  (discard_current_xct_log
                     (log_buffer_ (with_xct (deactivate (current_xct_ w1)) w1)))
                  (with_xct (deactivate (current_xct_ w1)) w1), ce1))
    = Some (code, w', commit_epoch') ->
    exists evs, history_ w' = history_ w ++ evs
      /\ ascending_acquisitions [] evs /\ held_after [] evs = []).
  { intros success w1 ce1 H. by destruct success; intros [= <- <- <-]. }
  destruct (is_read_only (current_xct_ w)).
  - unfold precommit_xct_readonly.
    destruct (precommit_xct_verify_readonly _ _ _) as [[v w1] ce1] eqn:Hver.
    apply precommit_xct_verify_readonly_frame in Hver as [rs ->].
    apply Hgoal. exists []. by rewrite history_set_read_set, app_nil_r.
  - rewrite precommit_xct_readwrite_unfold; cbn zeta.
    destruct (precommit_xct_lock _ _ _ _ _) as [[[ok w1] mx1]|] eqn:Hlock; [|done].
    pose proof (precommit_xct_lock_order _ _ _ _ _ _ Hlock Hcur Hzero)
      as (evs1 & Hh1 & Hasc1 & Hafter1).
    apply (precommit_xct_lock_spec _ _ std_sort_perm) in Hlock; [|done|done].
    destruct ok.
    2:{ apply (Hgoal false). by exists evs1. }
    destruct Hlock as (_ & Hruns & _ & _).
    destruct (precommit_xct_verify_readwrite _ _ _) as [[verified w3] mx2] eqn:Hver.
    apply precommit_xct_verify_readwrite_frame in Hver as [rs ->].
    set (w3 := set_read_set rs
                 (set_in_commit_log_epoch (get_current_global_epoch_weak w1) w1)).
    assert (Hws3 : get_write_set w3 = get_write_set w1) by done.
    assert (Hh3 : history_ w3 = history_ w1) by done.
    apply Hgoal. destruct verified.
    + pose proof (precommit_xct_apply_spec invoke_apply_record w3 mx2
                    (get_current_global_epoch_weak
                       (set_in_commit_log_epoch (get_current_global_epoch_weak w1) w1)))
        as Happly.
      cbn zeta in Happly. destruct Happly as (_ & _ & (evs & Hh & Hshape & _) & _).
      exists (evs1 ++ evs). split.
      { change (history_ (set_in_commit_log_epoch ?e (with_log_buffer ?b ?w0)))
          with (history_ w0).
        by rewrite Hh, Hh3, Hh1, app_assoc. }
      rewrite Hws3 in Hshape.
      split.
      * apply ascending_acquisitions_app. split; [done|].
        apply ascending_acquisitions_forget_id. rewrite Hshape.
        apply ascending_acquisitions_finalize_release.
      * rewrite held_after_app, <- held_after_forget_id, Hshape.
        apply held_after_finalize_release.
        rewrite <- (locked_at_run_ends_filter _ Hruns). exact Hafter1.
    + pose proof (precommit_xct_unlock_history w3) as Hh.
      exists (evs1 ++ (release_event <$> List.filter locked (get_write_set w3))). split.
      { change (history_ (set_in_commit_log_epoch ?e ?w0)) with (history_ w0).
        by rewrite Hh, Hh3, Hh1, app_assoc. }
      split.
      * apply ascending_acquisitions_app. split; [done|].
        apply ascending_acquisitions_releases.
      * rewrite held_after_app. apply held_after_releases. by rewrite Hws3.
Qed.

(** ** When a transaction commits *)

Lemma precommit_xct_lock_same_observations (fuel : nat) :
  forall (w : World) (mx : XctId) (ok : bool) (w' : World) (mx' : XctId),
    precommit_xct_lock track_moved_record std_sort fuel w mx = Some (ok, w', mx') ->
    same_observations w w'.
Proof.
  induction fuel as [|fuel IH]; intros w mx ok w' mx'; cbn [precommit_xct_lock]; [done|].
  destruct (track_moved_pass _ _ _) as [tracked_ok tracked].
  destruct tracked_ok; cbn [negb].
  2:{ intros [= <- <- <-]. apply same_observations_set_write_set. }
  pose proof (lock_loop_same_observations
                (length (get_write_set (set_write_set (std_sort tracked) w))) 0
                (set_write_set (std_sort tracked) w) mx) as Hloop.
  destruct (lock_loop _ _ _ _) as [[needs_retry w2] mx2]. cbn in Hloop.
  assert (H2 : same_observations w w2).
  { eapply same_observations_trans; [apply same_observations_set_write_set|exact Hloop]. }
  destruct needs_retry; cbn [negb].
  - intros Hrec. eapply same_observations_trans; [exact H2|]. by eapply IH.
  - by intros [= <- <- <-].
Qed.

Lemma nothing_changed_same (w w' : World) :
  same_records (memory_ w) (memory_ w') ->
  same_observations w w' ->
  no_read_moved w ->
  nothing_changed track_moved_record_read w' <-> nothing_changed track_moved_record_read w.
Proof.
  intros (Hids & _ & Hptr & Hver) (Hrs & Hps & Hvs) Hnm.
  unfold nothing_changed. rewrite Hrs, Hps, Hvs.
  assert (Hreads :
    Forall (read_is_current track_moved_record_read (memory_ w')) (read_set_ (current_xct_ w))
    <-> Forall (read_is_current track_moved_record_read (memory_ w))
          (read_set_ (current_xct_ w))).
  { unfold no_read_moved in Hnm. rewrite !Forall_forall. rewrite Forall_forall in Hnm.
    assert (Hone : forall access, access ∈ read_set_ (current_xct_ w) ->
              read_is_current track_moved_record_read (memory_ w') access
              <-> read_is_current track_moved_record_read (memory_ w) access).
    { intros access Hin. specialize (Hnm access Hin).
      unfold read_is_current, track_read.
      assert (Hnm' : is_moved (owner_ids_ (memory_ w') (r_owner_id_address_ access)) = false).
      { unfold is_moved in *. by rewrite Hids. }
      by rewrite Hnm, Hnm', Hids. }
    split; intros H access Hin; apply (Hone access Hin), H, Hin. }
  assert (Hpointers :
    Forall (pointer_is_current (memory_ w')) (pointer_set_ (current_xct_ w))
    <-> Forall (pointer_is_current (memory_ w)) (pointer_set_ (current_xct_ w))).
  { apply Forall_iff. intros access. unfold pointer_is_current. by rewrite Hptr. }
  assert (Hpages :
    Forall (page_version_is_current (memory_ w')) (page_version_set_ (current_xct_ w))
    <-> Forall (page_version_is_current (memory_ w)) (page_version_set_ (current_xct_ w))).
  { apply Forall_iff. intros access. unfold page_version_is_current. by rewrite Hver. }
  tauto.
Qed.

(** X11: A transaction commits exactly when nothing it observed has changed:
    when no record of its read or write set has moved, [precommit_xct]
    returns after one pass of Phase 1, with [kErrorCodeOk] if every read
    access still sees the owner id it observed, every pointer of the
    pointer set the observed word and every page of the page-version set
    the observed version, as the memory stood when the call began, and with
    [kErrorCodeXctRaceAbort] otherwise; the locks that a read-write
    transaction takes in between do not alter the verdict. *)
Theorem precommit_xct_commits_iff_nothing_changed (w : World) (commit_epoch : Z) :
  is_active (current_xct_ w) = true ->
  none_moved w ->
  no_read_moved w ->
  exists (code : ErrorCode) (w' : World) (commit_epoch' : Z),
    precommit_xct track_moved_record track_moved_record_read invoke_apply_record std_sort
      1%nat w commit_epoch = Some (code, w', commit_epoch')
    /\ (code = kErrorCodeOk <-> nothing_changed track_moved_record_read w)
    /\ (code = kErrorCodeXctRaceAbort <-> ~ nothing_changed track_moved_record_read w).
Proof.
  intros Hactive Hnm Hnrm. unfold precommit_xct. rewrite Hactive. cbn [negb].
  assert (Hgoal : forall (v : bool) (w1 w2 : World) (ce1 : Z),
    (v = true <-> nothing_changed track_moved_record_read w) ->
    exists (code : ErrorCode) (w' : World) (commit_epoch' : Z),
      (if v then Some (kErrorCodeOk, w1, ce1) else Some (kErrorCodeXctRaceAbort, w2, ce1))
      = Some (code, w', commit_epoch')
      /\ (code = kErrorCodeOk <-> nothing_changed track_moved_record_read w)
      /\ (code = kErrorCodeXctRaceAbort <-> ~ nothing_changed track_moved_record_read w)).
  { intros v w1 w2 ce1 Hv. destruct v.
    - exists kErrorCodeOk, w1, ce1. split; [done|].
      split; [split; [intros _; by apply Hv|done]|].
      split; [done|]. intros Hn. exfalso. by apply Hn, Hv.
    - exists kErrorCodeXctRaceAbort, w2, ce1. split; [done|].
      split; [split; [done|]; intros Hn; by apply Hv in Hn|].
      split; [|done]. intros _ Hn. by apply Hv in Hn. }
  destruct (is_read_only (current_xct_ w)).
  - unfold precommit_xct_readonly.
    pose proof (precommit_xct_verify_readonly_verdict track_moved_record_read w
                  Epoch.kEpochInvalid) as Hv.
    destruct (precommit_xct_verify_readonly _ _ _) as [[v w1] ce1]. cbn [fst] in Hv.
    by apply Hgoal.
  - rewrite precommit_xct_readwrite_unfold; cbn zeta.
    destruct (precommit_xct_lock_returns track_moved_record std_sort std_sort_perm 0 w
                (XctIdOps.set Epoch.kEpochInitialDurable 1) Hnm) as (w1 & mx1 & Hlock).
    rewrite Hlock.
    pose proof (precommit_xct_lock_only_locks _ _ _ _ _ _ _ _ Hlock) as (Hrecords & _).
    pose proof (precommit_xct_lock_same_observations _ _ _ _ _ _ Hlock) as Hobs.
    set (w2 := set_in_commit_log_epoch (get_current_global_epoch_weak w1) w1).
    pose proof (precommit_xct_verify_readwrite_verdict track_moved_record_read w2 mx1) as Hv.
    assert (Hsame : nothing_changed track_moved_record_read w2
                    <-> nothing_changed track_moved_record_read w).
    { apply nothing_changed_same; [exact Hrecords|exact Hobs|exact Hnrm]. }
    destruct (precommit_xct_verify_readwrite _ _ _) as [[v w3] mx2]. cbn [fst] in Hv.
    apply Hgoal. by rewrite Hv.
Qed.

End LockOrder.

(** * Further properties of HashMetadata::set_capacity *)

Section BinBitsExact.

Import HashMetadata.

Lemma count_bits_exact (todo : nat) :
  forall bits bin_count : Z,
    0 <= bits <= 64 ->
    64 - bits < Z.of_nat todo ->
    bits = 0 \/ 2 ^ (bits - 1) < bin_count ->
    let r := count_bits todo bits bin_count in
    (r = 0 \/ 2 ^ (r - 1) < bin_count) /\ (r < 64 -> bin_count <= 2 ^ r).
Proof.
  induction todo as [|todo IH]; intros bits bin_count Hb Ht Hlow; cbn [count_bits]; [lia|].
  destruct (Z.ltb_spec bits 64); cbn [andb].
  - rewrite Z.shiftl_1_l.
    destruct (Z.ltb_spec (2 ^ bits) bin_count) as [Hlt|Hge].
    + apply IH; [lia|lia|]. right. by replace (bits + 1 - 1) with bits by lia.
    + cbn zeta. split; [done|lia].
  - cbn zeta. split; [done|lia].
Qed.

Lemma bin_bits_of_exact (bin_count : Z) :
  bin_count <= 2 ^ 64 ->
  8 <= bin_bits_of bin_count <= 64
  /\ bin_count <= 2 ^ bin_bits_of bin_count
  /\ (8 < bin_bits_of bin_count -> 2 ^ (bin_bits_of bin_count - 1) < bin_count).
Proof.
  intros Hmax. split; [apply bin_bits_of_range|].
  unfold bin_bits_of.
  pose proof (count_bits_range 65 0 bin_count ltac:(lia)) as Hr.
  pose proof (count_bits_exact 65 0 bin_count ltac:(lia) ltac:(lia) ltac:(by left)) as He.
  cbn zeta in He. destruct He as [Hlow Hhigh].
  destruct (Z.ltb_spec (count_bits 65 0 bin_count) 8) as [Hsmall|Hbig].
  - split; [|lia]. specialize (Hhigh ltac:(lia)).
    assert (2 ^ count_bits 65 0 bin_count <= 2 ^ 8) by (apply Z.pow_le_mono_r; lia). lia.
  - split; [|lia].
    destruct (Z.eq_dec (count_bits 65 0 bin_count) 64) as [->|Hne]; [done|].
    apply Hhigh. lia.
Qed.

(** X12: The number of hash bins is the smallest sufficient power of two, and
    never less than 2^8: for a bin count within the 64-bit range, the
    value that [set_capacity] stores in [bin_bits_] lies between 8 and 64,
    2^bin_bits_ bins are enough for the bin count, and, unless the minimum
    of 8 bits applies, half as many would not be.  A larger bin count
    never gets fewer bits. *)
Theorem bin_bits_is_smallest_sufficient_power (bin_count : Z) :
  bin_count <= 2 ^ 64 ->
  let bits := bin_bits_of bin_count in
  8 <= bits <= 64
  /\ bin_count <= 2 ^ bits
  /\ (8 < bits -> 2 ^ (bits - 1) < bin_count)
  /\ forall smaller : Z, smaller <= bin_count -> bin_bits_of smaller <= bits.
Proof.
  intros Hmax. cbn zeta.
  destruct (bin_bits_of_exact bin_count Hmax) as (Hr & Hhigh & Hlow).
  split; [done|]. split; [done|]. split; [done|].
  intros smaller Hle.
  destruct (bin_bits_of_exact smaller ltac:(lia)) as (Hr' & _ & Hlow').
  destruct (Z.le_gt_cases (bin_bits_of smaller) (bin_bits_of bin_count)) as [|Hgt]; [done|].
  exfalso.
  assert (2 ^ bin_bits_of bin_count <= 2 ^ (bin_bits_of smaller - 1))
    by (apply Z.pow_le_mono_r; lia).
  specialize (Hlow' ltac:(lia)). lia.
Qed.

End BinBitsExact.

Lemma bin_bits_is_smallest_sufficient_power_witness :
  HashMetadata.bin_bits_of 257 = 9
  /\ 257 <= 2 ^ HashMetadata.bin_bits_of 257
  /\ 2 ^ (HashMetadata.bin_bits_of 257 - 1) < 257.
Proof.
  destruct (bin_bits_is_smallest_sufficient_power 257 ltac:(lia)) as (_ & Hhigh & Hlow & _).
  split; [reflexivity|]. split; [exact Hhigh|]. apply Hlow. vm_compute. reflexivity.
Defined.

(** * Further properties of the log gleaner *)

Section GleanerTopology.

Import GleanerInit.

Variable numa_nodes : Z.
Variable loggers_per_node : Z.
Variable to_logger_id : Z -> Z.

Hypothesis numa_nodes_range : 0 <= numa_nodes.
Hypothesis loggers_per_node_range : 0 <= loggers_per_node < 2 ^ 16.

Lemma mapper_loop_spec (fuel : nat) :
  forall (node ordinal : Z) (g : LogGleaner),
    0 <= node ->
    0 <= ordinal <= loggers_per_node ->
    loggers_per_node - ordinal < Z.of_nat fuel ->
    Z.of_nat (length (mappers_ g)) = loggers_per_node * node + ordinal ->
    indexed_by_logger loggers_per_node to_logger_id (mappers_ g) ->
    exists g',
      mapper_loop loggers_per_node to_logger_id fuel node ordinal g = Some g'
      /\ reducers_ g' = reducers_ g
      /\ Z.of_nat (length (mappers_ g')) = loggers_per_node * (node + 1)
      /\ indexed_by_logger loggers_per_node to_logger_id (mappers_ g').
Proof.
  induction fuel as [|fuel IH]; intros node ordinal g Hnode Hord Hfuel Hlen Hidx;
    cbn [mapper_loop]; [lia|].
  destruct (Z.ltb_spec ordinal loggers_per_node) as [Hlt|Hge].
  2:{ exists g. split; [done|]. split; [done|]. split; [lia|done]. }
  rewrite (Z.mod_small (ordinal + 1)) by lia.
  destruct (IH node (ordinal + 1)
              (mkLogGleaner
                 (mappers_ g
                  ++ [mkLogMapper (to_logger_id (loggers_per_node * node + ordinal)) node])
                 (reducers_ g))) as (g' & Hrun & Hred & Hlen' & Hidx').
  - done.
  - lia.
  - lia.
  - cbn. rewrite length_app. cbn. lia.
  - cbn. intros k m Hk.
    apply lookup_app_Some in Hk as [Hk|[Hge Hk]]; [by apply Hidx|].
    apply list_lookup_singleton_Some in Hk as [Hk0 <-]. cbn.
    assert (Hkz : Z.of_nat k = loggers_per_node * node + ordinal) by lia.
    rewrite Hkz. split; [done|].
    apply (Z.div_unique _ _ node ordinal); lia.
  - exists g'. by rewrite Hrun.
Qed.

Lemma node_loop_spec (fuel : nat) :
  forall (node : Z) (g : LogGleaner),
    0 <= node <= numa_nodes ->
    (numa_nodes - node) + loggers_per_node < Z.of_nat fuel ->
    Z.of_nat (length (mappers_ g)) = loggers_per_node * node ->
    Z.of_nat (length (reducers_ g)) = node ->
    indexed_by_logger loggers_per_node to_logger_id (mappers_ g) ->
    indexed_by_node (reducers_ g) ->
    exists g',
      node_loop numa_nodes loggers_per_node to_logger_id fuel node g = Some g'
      /\ Z.of_nat (length (mappers_ g')) = loggers_per_node * numa_nodes
      /\ Z.of_nat (length (reducers_ g')) = numa_nodes
      /\ indexed_by_logger loggers_per_node to_logger_id (mappers_ g')
      /\ indexed_by_node (reducers_ g').
Proof.
  induction fuel as [|fuel IH]; intros node g Hnode Hfuel Hlen Hlenr Hidx Hidxr;
    cbn [node_loop]; [lia|].
  destruct (Z.ltb_spec node numa_nodes) as [Hlt|Hge].
  2:{ exists g. assert (node = numa_nodes) as -> by lia. done. }
  destruct (mapper_loop_spec (S fuel) node 0 g) as (g1 & -> & Hred1 & Hlen1 & Hidx1);
    [lia|lia|lia|lia|done|].
  apply IH; cbn; [lia|lia|done| |done|].
  - rewrite length_app, Hred1. cbn. lia.
  - rewrite Hred1. intros n r Hn.
    apply lookup_app_Some in Hn as [Hn|[Hge Hn]]; [by apply Hidxr|].
    apply list_lookup_singleton_Some in Hn as [Hn0 <-]. cbn. lia.
Qed.

(** X13: [initialize_once] creates one mapper per logger and one reducer per
    NUMA node: with [numa_nodes] nodes and [loggers_per_node] loggers on
    each, the loops end and leave [numa_nodes * loggers_per_node] mappers
    and [numa_nodes] reducers; the mapper at index [k] reads logger [k]
    and runs on node [k / loggers_per_node], so that each node gets the
    mappers of its own loggers, and the reducer at index [n] runs on node
    [n]; and no two mappers read the same logger, as long as the
    conversion to [log::LoggerId] keeps the logger numbers apart. *)
Theorem initialize_once_creates_mappers_per_logger (fuel : nat) :
  numa_nodes + loggers_per_node < Z.of_nat fuel ->
  exists g,
    initialize_once numa_nodes loggers_per_node to_logger_id fuel (mkLogGleaner [] [])
    = Some g
    /\ Z.of_nat (length (mappers_ g)) = loggers_per_node * numa_nodes
    /\ Z.of_nat (length (reducers_ g)) = numa_nodes
    /\ indexed_by_logger loggers_per_node to_logger_id (mappers_ g)
    /\ indexed_by_node (reducers_ g)
    /\ ((forall a b : Z,
           0 <= a < loggers_per_node * numa_nodes ->
           0 <= b < loggers_per_node * numa_nodes ->
           to_logger_id a = to_logger_id b -> a = b) ->
        NoDup (logger_id_ <$> mappers_ g)).
Proof.
  intros Hfuel. unfold initialize_once.
  destruct (node_loop_spec fuel 0 (mkLogGleaner [] []))
    as (g & Hrun & Hlen & Hlenr & Hidx & Hidxr); cbn; try lia.
  { intros k m Hk. done. }
  { intros n r Hn. done. }
  exists g. split; [done|]. split; [done|]. split; [done|]. split; [done|].
  split; [done|]. intros Hinj. apply NoDup_alt. intros i j x Hi Hj.
  rewrite list_lookup_fmap in Hi, Hj.
  destruct (mappers_ g !! i) as [mi|] eqn:Hmi; [|done].
  destruct (mappers_ g !! j) as [mj|] eqn:Hmj; [|done].
  cbn in Hi, Hj.
  pose proof (lookup_lt_Some _ _ _ Hmi). pose proof (lookup_lt_Some _ _ _ Hmj).
  destruct (Hidx i mi Hmi) as [Hidi _]. destruct (Hidx j mj Hmj) as [Hidj _].
  assert (Z.of_nat i = Z.of_nat j); [|lia].
  apply Hinj; [lia|lia|]. congruence.
Qed.

End GleanerTopology.

Section RegistryEnd.

Import Gleaner GleanerRegistry.

Lemma fresh_accounted (calls : list Call) (g : LogGleaner) :
  fresh g -> all_starting calls -> accounted g calls calls g.
Proof.
  intros (Hempty & Hnext & Halloc) Hstart.
  assert (Hno : forall i c, calls !! i = Some c -> exists s, c = AtFirstLookup s).
  { intros i c Hi. unfold all_starting in Hstart. rewrite Forall_forall in Hstart.
    apply Hstart. by eapply list_elem_of_lookup_2. }
  split.
  - done.
  - intros p Hp. by apply Halloc.
  - done.
  - intros s p. by rewrite Hempty, lookup_empty.
  - intros i s p Hi. by destruct (Hno _ _ Hi).
  - intros s1 s2 p. by rewrite Hempty, lookup_empty.
  - intros p Hp. by left.
  - intros s p. by rewrite Hempty, lookup_empty.
  - done.
Qed.

Lemma step_call_storage_id (c : Call) (g : LogGleaner) :
  call_storage_id (step_call c g).1 = call_storage_id c.
Proof.
  destruct c as [s|s|s p|s p]; cbn [step_call]; try done.
  - by destruct (partitioners_ g !! s).
  - by destruct (partitioners_ g !! s).
Qed.

Lemma step_storage_ids (calls : list Call) (i : nat) (c : Call) (g : LogGleaner) :
  calls !! i = Some c ->
  call_storage_id <$> <[i := (step_call c g).1]> calls = call_storage_id <$> calls.
Proof.
  intros Hi. rewrite list_fmap_insert, step_call_storage_id.
  apply list_insert_id. by rewrite list_lookup_fmap, Hi.
Qed.

Lemma step_accounted (g0 : LogGleaner) (calls0 calls : list Call) (g : LogGleaner)
    (calls' : list Call) (g' : LogGleaner) :
  step (calls, g) (calls', g') ->
  registry_inv calls g ->
  accounted g0 calls0 calls g ->
  accounted g0 calls0 calls' g'.
Proof.
  intros (i & c & Hi & Hpending & -> & ->)%step_inv
    [Hnext Halloc Hreg Hret Hspec Hdist]
    [Hn Hold Hinit Hnewr Hnews Hinj Hacc Hreq Hids].
  pose proof (step_storage_ids calls i c g Hi) as Hsame.
  assert (Hpending_kept : forall p,
            (exists j s, calls !! j = Some (AtSecondLookup s p)) ->
            (forall s, c <> AtSecondLookup s p) ->
            exists j s, <[i := (step_call c g).1]> calls !! j = Some (AtSecondLookup s p)).
  { intros p (j & s & Hj) Hc. exists j, s.
    rewrite list_lookup_insert_ne; [done|]. intros ->.
    rewrite Hi in Hj. injection Hj as ->. by eapply Hc. }
  destruct c as [s|s|s p|s p]; cbn [is_returned] in *; [| | |done].
  - (* first critical section *)
    assert (Hg : (step_call (AtFirstLookup s) g).2 = g).
    { cbn [step_call]. by destruct (partitioners_ g !! s). }
    rewrite Hg. split.
    + done.
    + done.
    + done.
    + done.
    + intros j s' p' Hj.
      destruct (lookup_after_step _ _ _ _ _ _ Hi Hj) as [[-> Heq]|[_ Hj']]; [|eauto].
      cbn [step_call] in Heq. by destruct (partitioners_ g !! s).
    + done.
    + intros p Hp. destruct (Hacc p Hp) as [?|[?|Hpend]]; [by left|by right; left|].
      right. right. by apply Hpending_kept.
    + intros s' p' Hs'. rewrite Hsame. eauto.
    + by rewrite Hsame.
  - (* creation, outside the critical sections *)
    cbn [step_call create_partitioner fst snd] in *.
    split; cbn [next_ allocated_ partitioners_].
    + lia.
    + done.
    + intros p Hp. apply elem_of_union. right. eauto.
    + done.
    + intros j s' p' Hj.
      destruct (lookup_after_step _ _ _ _ _ _ Hi Hj) as [[-> [= -> ->]]|[_ Hj']]; [lia|eauto].
    + done.
    + intros p [->%elem_of_singleton|Hp]%elem_of_union.
      * right. right. exists i, s.
        apply list_lookup_insert_eq. by eapply lookup_lt_Some.
      * destruct (Hacc p Hp) as [?|[?|Hpend]]; [by left|by right; left|].
        right. right. by apply Hpending_kept.
    + intros s' p' Hs'. rewrite Hsame. eauto.
    + by rewrite Hsame.
  - (* second critical section *)
    destruct (Hspec _ _ _ Hi) as [Hpin Hpnot].
    cbn [step_call] in *.
    destruct (partitioners_ g !! s) as [q|] eqn:Hs; cbn [fst snd] in *.
    + (* lost the race: delete the speculative partitioner *)
      split; cbn [delete_partitioner next_ allocated_ partitioners_].
      * done.
      * done.
      * intros r Hr. apply elem_of_difference. split; [eauto|].
        intros ->%elem_of_singleton. specialize (Hnews _ _ _ Hi).
        specialize (Hold _ Hr). lia.
      * done.
      * intros j s' p' Hj.
        destruct (lookup_after_step _ _ _ _ _ _ Hi Hj) as [[-> ?]|[_ Hj']]; [done|eauto].
      * done.
      * intros r [Hr Hne%not_elem_of_singleton]%elem_of_difference.
        destruct (Hacc r Hr) as [?|[?|Hpend]]; [by left|by right; left|].
        right. right. apply Hpending_kept; [done|]. by intros s0 [= _ ->].
      * intros s' p' Hs'. rewrite Hsame. eauto.
      * by rewrite Hsame.
    + (* won the race: register the partitioner *)
      split; cbn [insert_partitioner next_ allocated_ partitioners_].
      * done.
      * done.
      * done.
      * intros s' r. rewrite lookup_insert. case_decide as Heq; [|eauto].
        intros [= <-]. eauto.
      * intros j s' p' Hj.
        destruct (lookup_after_step _ _ _ _ _ _ Hi Hj) as [[-> ?]|[_ Hj']]; [done|eauto].
      * intros s1 s2 r. rewrite !lookup_insert.
        repeat case_decide; subst; try done.
        -- intros [= <-] Hs2. by destruct (Hpnot s2).
        -- intros Hs1 [= <-]. by destruct (Hpnot s1).
        -- eauto.
      * intros r Hr.
        destruct (decide (r = p)) as [->|Hne].
        { right. left. exists s. by rewrite lookup_insert_eq. }
        destruct (Hacc r Hr) as [?|[[s0 Hs0]|Hpend]]; [by left| |].
        -- right. left. exists s0. rewrite lookup_insert_ne; [done|]. intros ->. congruence.
        -- right. right. apply Hpending_kept; [done|]. by intros s0 [= _ ->].
      * intros s' r. rewrite Hsame, lookup_insert. case_decide as Heq; [|eauto].
        intros _. subst s'. apply list_elem_of_fmap. exists (AtSecondLookup s p).
        split; [done|]. by eapply list_elem_of_lookup_2.
      * by rewrite Hsame.
Qed.

Lemma reachable_accounted (g0 : LogGleaner) (calls0 : list Call)
    (st st' : list Call * LogGleaner) :
  rtc step st st' ->
  registry_inv st.1 st.2 ->
  accounted g0 calls0 st.1 st.2 ->
  registry_inv st'.1 st'.2 /\ accounted g0 calls0 st'.1 st'.2.
Proof.
  induction 1 as [|[c1 g1] [c2 g2] st3 Hstep _ IH]; [done|].
  intros Hinv Hacc. apply IH; [by eapply step_registry_inv|by eapply step_accounted].
Qed.

Lemma allocated_foldr_delete (l : list Z) (g : LogGleaner) (p : Z) :
  p ∈ allocated_ (foldr delete_partitioner g l) <-> p ∈ allocated_ g /\ p ∉ l.
Proof.
  induction l as [|q l IH]; cbn [foldr delete_partitioner allocated_].
  - split; [|by intros [? _]]. intros Hp. split; [done|apply not_elem_of_nil].
  - rewrite elem_of_difference, IH, elem_of_singleton, not_elem_of_cons. tauto.
Qed.

Lemma elem_of_registered (g : LogGleaner) (p : Z) :
  p ∈ registered g <-> exists s, partitioners_ g !! s = Some p.
Proof.
  unfold registered. rewrite list_elem_of_fmap. split.
  - intros ([s p'] & -> & Hin). exists s. by apply elem_of_map_to_list.
  - intros [s Hs]. exists (s, p). split; [done|]. by apply elem_of_map_to_list.
Qed.

Lemma quiescent_no_speculative (calls : list Call) (i : nat) (s p : Z) :
  quiescent calls -> calls !! i <> Some (AtSecondLookup s p).
Proof.
  intros Hq Hi. unfold quiescent in Hq. rewrite Forall_forall in Hq.
  by specialize (Hq _ (list_elem_of_lookup_2 _ _ _ Hi)).
Qed.

(** X14: [uninitialize_once] deletes every partitioner once and leaks none:
    in every state that concurrent callers of [get_or_create_partitioner]
    can reach from a gleaner with an empty registry, no two storages share
    a partitioner, so that the loop deletes no object twice; every object
    it deletes is allocated and was created by one of the calls; the
    registry is empty afterwards; no object that existed before the calls
    is deleted; and once every call has returned, the objects left are
    exactly those that existed before: the partitioners of the callers
    that lost a race were deleted by the callers, all others by
    [uninitialize_once]. *)
Theorem uninitialize_once_deletes_each_partitioner_once
    (calls : list Call) (g : LogGleaner) (calls' : list Call) (g' : LogGleaner) :
  fresh g ->
  all_starting calls ->
  rtc step (calls, g) (calls', g') ->
  NoDup (registered g')
  /\ (forall p, p ∈ registered g' -> p ∈ allocated_ g' /\ p ∉ allocated_ g)
  /\ partitioners_ (uninitialize_once g') = ∅
  /\ (forall p, p ∈ allocated_ g -> p ∈ allocated_ (uninitialize_once g'))
  /\ (quiescent calls' -> allocated_ (uninitialize_once g') = allocated_ g).
Proof.
  intros Hfresh Hstart Hreach.
  destruct (reachable_accounted g calls _ _ Hreach
              (fresh_registry_inv _ _ Hfresh Hstart) (fresh_accounted _ _ Hfresh Hstart))
    as [[Hnext Halloc Hreg Hret Hspec Hdist]
        [Hn Hold Hinit Hnewr Hnews Hinj Hacc Hreq Hids]].
  cbn [fst snd] in *.
  assert (Hnew : forall p, p ∈ registered g' -> p ∉ allocated_ g).
  { intros p [s Hs]%elem_of_registered Hp.
    specialize (Hnewr _ _ Hs). specialize (Hold _ Hp). lia. }
  split_and!.
  - unfold registered. apply NoDup_fmap_2_strong; [|apply NoDup_map_to_list].
    intros [s1 p1] [s2 p2] H1%elem_of_map_to_list H2%elem_of_map_to_list Heq.
    cbn in Heq. subst p2. by rewrite (Hinj _ _ _ H1 H2).
  - intros p Hp. split; [|by apply Hnew].
    apply elem_of_registered in Hp as [s Hs]. eauto.
  - done.
  - intros p Hp. unfold uninitialize_once. cbn [allocated_].
    apply allocated_foldr_delete. split; [eauto|].
    intros Hr. by apply (Hnew p).
  - intros Hq. unfold uninitialize_once. cbn [allocated_].
    apply set_eq. intros p. rewrite allocated_foldr_delete. split.
    + intros [Hp Hnot]. destruct (Hacc p Hp) as [?|[Hr|(i & s & Hi)]]; [done| |].
      * by apply elem_of_registered in Hr.
      * by apply quiescent_no_speculative in Hi.
    + intros Hp. split; [eauto|]. intros Hr. by apply (Hnew p).
Qed.

(** X15: The registry holds one partitioner for each requested storage and
    nothing else: in every state that concurrent callers of
    [get_or_create_partitioner] can reach from a gleaner with an empty
    registry, every registered storage is the argument of one of the
    calls and no two storages share a partitioner; and once every call has
    returned, the registered storages are exactly the arguments of the
    calls. *)
Theorem registry_holds_the_requested_storages
    (calls : list Call) (g : LogGleaner) (calls' : list Call) (g' : LogGleaner) :
  fresh g ->
  all_starting calls ->
  rtc step (calls, g) (calls', g') ->
  (forall s p, partitioners_ g' !! s = Some p -> s ∈ call_storage_id <$> calls)
  /\ (forall s1 s2 p,
        partitioners_ g' !! s1 = Some p -> partitioners_ g' !! s2 = Some p -> s1 = s2)
  /\ call_storage_id <$> calls' = call_storage_id <$> calls
  /\ (quiescent calls' ->
      forall s, s ∈ call_storage_id <$> calls <-> is_Some (partitioners_ g' !! s)).
Proof.
  intros Hfresh Hstart Hreach.
  destruct (reachable_accounted g calls _ _ Hreach
              (fresh_registry_inv _ _ Hfresh Hstart) (fresh_accounted _ _ Hfresh Hstart))
    as [[Hnext Halloc Hreg Hret Hspec Hdist]
        [Hn Hold Hinit Hnewr Hnews Hinj Hacc Hreq Hids]].
  cbn [fst snd] in *.
  split_and!.
  - intros s p Hs. rewrite <- Hids. eauto.
  - done.
  - done.
  - intros Hq s. split.
    + rewrite <- Hids. intros (c & -> & Hc)%list_elem_of_fmap.
      unfold quiescent in Hq. rewrite Forall_forall in Hq. specialize (Hq c Hc).
      apply list_elem_of_lookup_1 in Hc as [i Hi].
      destruct c as [s|s|s p|s p]; try done. cbn. eauto.
    + intros [p Hs]. rewrite <- Hids. eauto.
Qed.

End RegistryEnd.

Section NonrecordLogBuffer.

Import NonrecordLog.

Variable kEngineLogs : Z.
Variable kStorageLogs : Z.
Hypothesis kinds_differ : kEngineLogs <> kStorageLogs.

Lemma kind_accepted_always (kind : Z) : kind_accepted kEngineLogs kStorageLogs kind = true.
Proof.
  unfold kind_accepted.
  destruct (Z.eqb_spec kind kEngineLogs) as [->|]; [|done].
  destruct (Z.eqb_spec kEngineLogs kStorageLogs); done.
Qed.

Lemma add_nonrecord_log_fits (header : LogHeader) (g : LogGleaner) :
  well_formed header ->
  0 <= nonrecord_log_buffer_pos_ g ->
  nonrecord_log_buffer_pos_ g + log_length_ header
  <= Z.of_nat (length (nonrecord_log_buffer_ g)) ->
  exists g',
    add_nonrecord_log kEngineLogs kStorageLogs header g = Some g'
    /\ nonrecord_log_buffer_pos_ g' = nonrecord_log_buffer_pos_ g + log_length_ header
    /\ nonrecord_log_buffer_ g'
       = take (Z.to_nat (nonrecord_log_buffer_pos_ g)) (nonrecord_log_buffer_ g)
         ++ image_ header
         ++ drop (Z.to_nat (nonrecord_log_buffer_pos_ g + log_length_ header))
              (nonrecord_log_buffer_ g)
    /\ length (nonrecord_log_buffer_ g') = length (nonrecord_log_buffer_ g).
Proof.
  intros Hwf Hpos Hfits. unfold add_nonrecord_log.
  rewrite kind_accepted_always. cbn [negb].
  destruct (Z.leb_spec (nonrecord_log_buffer_pos_ g + log_length_ header)
              (Z.of_nat (length (nonrecord_log_buffer_ g)))); [|lia].
  cbn [negb]. eexists. split; [reflexivity|]. cbn.
  unfold well_formed in Hwf.
  rewrite (take_ge (image_ header)) by lia.
  split; [done|]. split; [done|].
  rewrite !length_app, length_take, length_drop. lia.
Qed.

Lemma add_nonrecord_log_overflow (header : LogHeader) (g : LogGleaner) :
  Z.of_nat (length (nonrecord_log_buffer_ g))
  < nonrecord_log_buffer_pos_ g + log_length_ header ->
  add_nonrecord_log kEngineLogs kStorageLogs header g = None.
Proof.
  intros Hover. unfold add_nonrecord_log.
  rewrite kind_accepted_always. cbn [negb].
  destruct (Z.leb_spec (nonrecord_log_buffer_pos_ g + log_length_ header)
              (Z.of_nat (length (nonrecord_log_buffer_ g)))); [lia|done].
Qed.

Lemma total_length_nonneg (headers : list LogHeader) :
  Forall well_formed headers -> 0 <= total_length headers.
Proof.
  induction 1 as [|header headers Hwf _ IH]; cbn [total_length foldr]; [done|].
  fold (total_length headers). unfold well_formed in Hwf. lia.
Qed.

(** X16: The non-record logs lie end to end in the buffer: calls of
    [add_nonrecord_log] for well-formed records, one after the other, all
    succeed when the records fit between the current position and the end
    of the buffer; the position has then advanced by their total length,
    the buffer holds their bytes in the order of the calls from the old
    position on, and everything before and after is untouched, so that no
    call overwrites what an earlier one has stored.  When the records do
    not fit, one of the calls fails its size assertion.  The assertion on
    the kind of the record holds for every kind and rejects nothing. *)
Theorem add_nonrecord_log_stores_end_to_end
    (headers : list LogHeader) (g : LogGleaner) :
  Forall well_formed headers ->
  0 <= nonrecord_log_buffer_pos_ g
  <= Z.of_nat (length (nonrecord_log_buffer_ g)) ->
  (nonrecord_log_buffer_pos_ g + total_length headers
   <= Z.of_nat (length (nonrecord_log_buffer_ g)) ->
   exists g',
     add_nonrecord_logs kEngineLogs kStorageLogs headers g = Some g'
     /\ nonrecord_log_buffer_pos_ g'
        = nonrecord_log_buffer_pos_ g + total_length headers
     /\ nonrecord_log_buffer_ g'
        = take (Z.to_nat (nonrecord_log_buffer_pos_ g)) (nonrecord_log_buffer_ g)
          ++ images headers
          ++ drop (Z.to_nat (nonrecord_log_buffer_pos_ g + total_length headers))
               (nonrecord_log_buffer_ g))
  /\ (Z.of_nat (length (nonrecord_log_buffer_ g))
      < nonrecord_log_buffer_pos_ g + total_length headers ->
      add_nonrecord_logs kEngineLogs kStorageLogs headers g = None)
  /\ forall kind, kind_accepted kEngineLogs kStorageLogs kind = true.
Proof.
  intros Hwf. revert g.
  induction Hwf as [|header headers Hh Hwf IH]; intros g Hpos.
  { cbn. split_and!.
    - intros _. exists g. split; [done|]. split; [lia|].
      rewrite Z.add_0_r, take_drop. done.
    - lia.
    - apply kind_accepted_always. }
  pose proof (total_length_nonneg _ Hwf) as Htotal.
  assert (Hlen : 0 <= log_length_ header) by (unfold well_formed in Hh; lia).
  cbn [add_nonrecord_logs total_length foldr]. fold (total_length headers).
  split_and!; [| |apply kind_accepted_always].
  - intros Hfits.
    destruct (add_nonrecord_log_fits header g Hh ltac:(lia) ltac:(lia))
      as (g1 & -> & Hpos1 & Hbuf1 & Hlen1).
    destruct (IH g1) as (IHfits & _); [rewrite Hpos1, Hlen1; lia|].
    destruct IHfits as (g' & -> & Hpos' & Hbuf'); [rewrite Hpos1, Hlen1; lia|].
    exists g'. split; [done|]. split; [rewrite Hpos', Hpos1; lia|].
    rewrite Hbuf', Hpos1, Hbuf1. unfold images. cbn [fmap list_fmap concat].
    set (pos := nonrecord_log_buffer_pos_ g) in *.
    set (buf := nonrecord_log_buffer_ g) in *.
    unfold well_formed in Hh.
    assert (Hp : length (take (Z.to_nat pos) buf) = Z.to_nat pos).
    { rewrite length_take. lia. }
    rewrite take_app_ge by lia. rewrite Hp.
    rewrite take_app_ge by lia.
    replace (Z.to_nat (pos + log_length_ header) - Z.to_nat pos
             - length (image_ header))%nat with 0%nat by lia.
    rewrite take_0, app_nil_r.
    rewrite drop_app_ge by lia. rewrite Hp.
    rewrite drop_app_ge by lia.
    rewrite drop_drop.
    replace (Z.to_nat (pos + log_length_ header)
             + (Z.to_nat (pos + log_length_ header + total_length headers)
                - Z.to_nat pos - length (image_ header)))%nat
      with (Z.to_nat (pos + (log_length_ header + total_length headers))) by lia.
    by rewrite <- !app_assoc.
  - intros Hover.
    destruct (Z.le_gt_cases
                (nonrecord_log_buffer_pos_ g + log_length_ header)
                (Z.of_nat (length (nonrecord_log_buffer_ g)))) as [Hfits|Hnot].
    + destruct (add_nonrecord_log_fits header g Hh ltac:(lia) Hfits)
        as (g1 & -> & Hpos1 & Hbuf1 & Hlen1).
      destruct (IH g1) as (_ & IHover & _); [rewrite Hpos1, Hlen1; lia|].
      apply IHover. rewrite Hpos1, Hlen1. lia.
    + by rewrite add_nonrecord_log_overflow by lia.
Qed.

End NonrecordLogBuffer.

(** * Instances of the further properties *)

#[local] Abbreviation run_commit :=
  (precommit_xct track_never track_read_same apply_keep sort_by_address).

Lemma run_world_ro_reads :
  run_commit 1%nat world_ro_reads 0
  = Some (kErrorCodeOk, world_after (run_commit 1%nat world_ro_reads 0) world_ro_reads, 3).
Proof. vm_compute. reflexivity. Qed.

Lemma precommit_xct_race_abort_changes_no_record_witness :
  same_records (memory_ world_stale)
    (memory_ (world_after (run_commit 1%nat world_stale 0) world_stale)).
Proof.
  exact (proj1 (precommit_xct_race_abort_changes_no_record track_never track_read_same
                  apply_keep sort_by_address 1%nat world_stale 0 _ 3 run_world_stale)).
Defined.

Lemma precommit_xct_readonly_takes_no_lock_witness :
  let w' := world_after (run_commit 1%nat world_ro_reads 0) world_ro_reads in
  memory_ w' = memory_ world_ro_reads /\ history_ w' = history_ world_ro_reads.
Proof.
  cbn zeta.
  destruct (precommit_xct_readonly_takes_no_lock track_never track_read_same apply_keep
              sort_by_address 1%nat world_ro_reads 0 kErrorCodeOk _ 3
              eq_refl eq_refl run_world_ro_reads) as (Hm & Hh & _).
  split; [exact Hm|exact Hh].
Defined.

Lemma precommit_xct_lock_pins_write_set_witness :
  exists w1 mx1,
    precommit_xct_lock track_never sort_by_address 1%nat world_dup max_xct_id0
    = Some (true, w1, mx1)
    /\ write_set_pinned w1.
Proof.
  destruct (precommit_xct_lock_returns track_never sort_by_address sort_by_address_perm
              0 world_dup max_xct_id0 (none_moved_memory0 _ _ _ _)) as (w1 & mx1 & Hrun).
  exists w1, mx1. split; [exact Hrun|].
  exact (proj1 (precommit_xct_lock_pins_write_set track_never track_read_same
                  sort_by_address 1%nat world_dup max_xct_id0 w1 mx1
                  ltac:(cbn; lia) Hrun)).
Defined.

Lemma precommit_xct_lock_fails_on_untrackable_record_witness :
  precommit_xct_lock track_never sort_by_address 1%nat world_moved max_xct_id0
  = Some (false, world_moved, max_xct_id0).
Proof.
  refine (proj1 (proj1 (precommit_xct_lock_fails_on_untrackable_record track_never
                          track_read_same apply_keep sort_by_address
                          0%nat world_moved max_xct_id0 0) _)).
  apply Exists_cons_hd. split; reflexivity.
Defined.

Lemma precommit_xct_commit_publishes_log_witness :
  let w' := world_after (run_commit 1%nat world_dup 0) world_dup in
  offset_tail_ (log_buffer_ world_dup) = 80
  /\ log_buffer_ w' = publish_committed_log 3 (log_buffer_ world_dup)
  /\ forall e, e ∈ get_write_set w' ->
       is_keylocked (owner_at w' (owner_id_address_ e)) = false.
Proof.
  cbn zeta. split; [reflexivity|].
  pose proof (precommit_xct_commit_publishes_log track_never track_read_same apply_keep
                sort_by_address 1%nat world_dup 0 _ 3 eq_refl run_world_dup) as H.
  cbn zeta in H. destruct H as (_ & Hbuf & _ & _ & _ & _ & _ & _ & Hfinal).
  split; [exact Hbuf|]. intros e He. exact (proj1 (Hfinal e He)).
Defined.

Lemma precommit_xct_locks_in_address_order_witness :
  exists evs,
    history_ (world_after (run_commit 1%nat world_dup 0) world_dup)
    = history_ world_dup ++ evs
    /\ ascending_acquisitions [] evs
    /\ held_after [] evs = [].
Proof.
  exact (precommit_xct_locks_in_address_order track_never track_read_same apply_keep
           sort_by_address sort_by_address_perm sort_by_address_sorted
           1%nat world_dup 0 kErrorCodeOk _ 3
           ltac:(cbn; lia) all_unlocked_world_dup run_world_dup).
Defined.

Lemma none_moved_memory_epochs (x : Xct) (current durable pending : Z) :
  none_moved (world_of x memory_epochs current durable pending).
Proof.
  intros a _. unfold owner_at. cbn. by destruct (a =? 5), (a =? 6).
Qed.

Lemma precommit_xct_commits_iff_nothing_changed_witness :
  exists (code : ErrorCode) (w' : World) (commit_epoch' : Z),
    run_commit 1%nat world_stale 0 = Some (code, w', commit_epoch')
    /\ (code = kErrorCodeOk <-> nothing_changed track_read_same world_stale)
    /\ (code = kErrorCodeXctRaceAbort <-> ~ nothing_changed track_read_same world_stale).
Proof.
  apply (precommit_xct_commits_iff_nothing_changed track_never track_read_same apply_keep
           sort_by_address sort_by_address_perm world_stale 0 eq_refl
           (none_moved_memory_epochs _ _ _ _)).
  repeat constructor.
Defined.

Lemma begin_xct_starts_clean_witness :
  exists w1,
    begin_xct kSerializable world_idle = (kErrorCodeOk, w1)
    /\ log_buffer_clean w1
    /\ mcs_block_current_ (current_xct_ w1) = 0.
Proof.
  eexists. split; [reflexivity|].
  destruct (proj1 (begin_xct_starts_clean track_never track_read_same apply_keep
                     sort_by_address world_idle
                     (fun _ => eq_refl) (fun _ _ => eq_refl))
              kSerializable kErrorCodeOk _ eq_refl) as (_ & Hok & _).
  destruct (Hok eq_refl) as (_ & _ & Hclean & Hblock & _).
  split; [exact Hclean|exact Hblock].
Defined.

Lemma initialize_once_creates_mappers_per_logger_witness :
  exists g,
    GleanerInit.initialize_once 2 3 (fun k => k mod 2 ^ 16) 6
      (GleanerInit.mkLogGleaner [] []) = Some g
    /\ Z.of_nat (length (GleanerInit.mappers_ g)) = 6
    /\ NoDup (GleanerInit.logger_id_ <$> GleanerInit.mappers_ g).
Proof.
  destruct (initialize_once_creates_mappers_per_logger 2 3 (fun k => k mod 2 ^ 16)
              ltac:(lia) ltac:(lia) 6 ltac:(lia))
    as (g & Hrun & Hlen & _ & _ & _ & Hnodup).
  exists g. split; [exact Hrun|]. split; [exact Hlen|].
  apply Hnodup. intros a b Ha Hb.
  rewrite !Z.mod_small by lia. done.
Defined.

Lemma uninitialize_once_deletes_each_partitioner_once_witness :
  let calls :=
    [Gleaner.AtFirstLookup 7; Gleaner.AtFirstLookup 7; Gleaner.AtFirstLookup 9] in
  let st := Gleaner.run_schedule [0; 1; 0; 1; 1; 0; 2; 2; 2]%nat (calls, Gleaner.gleaner0) in
  NoDup (GleanerRegistry.registered st.2)
  /\ Gleaner.allocated_ (GleanerRegistry.uninitialize_once st.2)
     = Gleaner.allocated_ Gleaner.gleaner0.
Proof.
  cbn zeta.
  destruct (uninitialize_once_deletes_each_partitioner_once
              [Gleaner.AtFirstLookup 7; Gleaner.AtFirstLookup 7; Gleaner.AtFirstLookup 9]
              Gleaner.gleaner0
              (Gleaner.run_schedule [0; 1; 0; 1; 1; 0; 2; 2; 2]%nat
                 ([Gleaner.AtFirstLookup 7; Gleaner.AtFirstLookup 7; Gleaner.AtFirstLookup 9],
                  Gleaner.gleaner0)).1
              (Gleaner.run_schedule [0; 1; 0; 1; 1; 0; 2; 2; 2]%nat
                 ([Gleaner.AtFirstLookup 7; Gleaner.AtFirstLookup 7; Gleaner.AtFirstLookup 9],
                  Gleaner.gleaner0)).2)
    as (Hnodup & _ & _ & _ & Hleak).
  - split; [reflexivity|]. split; [reflexivity|].
    intros p Hp. by apply not_elem_of_empty in Hp.
  - repeat constructor; by eexists.
  - rewrite <- surjective_pairing. apply (run_schedule_reachable _ (_, _)).
  - split; [exact Hnodup|]. apply Hleak. repeat constructor.
Defined.

Lemma registry_holds_the_requested_storages_witness :
  let calls :=
    [Gleaner.AtFirstLookup 7; Gleaner.AtFirstLookup 7; Gleaner.AtFirstLookup 9] in
  let st := Gleaner.run_schedule [0; 1; 0; 1; 1; 0; 2; 2; 2]%nat (calls, Gleaner.gleaner0) in
  is_Some (Gleaner.partitioners_ st.2 !! 7)
  /\ is_Some (Gleaner.partitioners_ st.2 !! 9)
  /\ ~ is_Some (Gleaner.partitioners_ st.2 !! 8).
Proof.
  cbn zeta.
  destruct (registry_holds_the_requested_storages
              [Gleaner.AtFirstLookup 7; Gleaner.AtFirstLookup 7; Gleaner.AtFirstLookup 9]
              Gleaner.gleaner0
              (Gleaner.run_schedule [0; 1; 0; 1; 1; 0; 2; 2; 2]%nat
                 ([Gleaner.AtFirstLookup 7; Gleaner.AtFirstLookup 7; Gleaner.AtFirstLookup 9],
                  Gleaner.gleaner0)).1
              (Gleaner.run_schedule [0; 1; 0; 1; 1; 0; 2; 2; 2]%nat
                 ([Gleaner.AtFirstLookup 7; Gleaner.AtFirstLookup 7; Gleaner.AtFirstLookup 9],
                  Gleaner.gleaner0)).2)
    as (_ & _ & _ & Hdom).
  - split; [reflexivity|]. split; [reflexivity|].
    intros p Hp. by apply not_elem_of_empty in Hp.
  - repeat constructor; by eexists.
  - rewrite <- surjective_pairing. apply (run_schedule_reachable _ (_, _)).
  - assert (Hq : GleanerRegistry.quiescent
                   (Gleaner.run_schedule [0; 1; 0; 1; 1; 0; 2; 2; 2]%nat
                      ([Gleaner.AtFirstLookup 7; Gleaner.AtFirstLookup 7;
                        Gleaner.AtFirstLookup 9], Gleaner.gleaner0)).1)
      by repeat constructor.
    split; [apply (Hdom Hq 7); cbn; apply list_elem_of_here|].
    split; [apply (Hdom Hq 9); cbn; do 2 apply list_elem_of_further; apply list_elem_of_here|].
    intros H8. apply (Hdom Hq 8) in H8. cbn in H8.
    repeat (apply elem_of_cons in H8 as [H8|H8]; [done|]).
    by apply elem_of_nil in H8.
Defined.

Lemma add_nonrecord_log_stores_end_to_end_witness :
  NonrecordLog.add_nonrecord_logs 1 2
    [NonrecordLog.mkLogHeader 1 2 [11; 12]; NonrecordLog.mkLogHeader 7 3 [21; 22; 23]]
    (NonrecordLog.mkLogGleaner [0; 0; 0; 0; 0; 0; 0; 0] 1)
  = Some (NonrecordLog.mkLogGleaner [0; 11; 12; 21; 22; 23; 0; 0] 6).
Proof.
  destruct (proj1 (add_nonrecord_log_stores_end_to_end 1 2 ltac:(lia)
                     [NonrecordLog.mkLogHeader 1 2 [11; 12];
                      NonrecordLog.mkLogHeader 7 3 [21; 22; 23]]
                     (NonrecordLog.mkLogGleaner [0; 0; 0; 0; 0; 0; 0; 0] 1)
                     ltac:(repeat constructor) ltac:(cbn; lia))
              ltac:(cbn; lia)) as (g' & Hrun & Hpos & Hbuf).
  rewrite Hrun. f_equal. destruct g' as [buf pos]. cbn in Hpos, Hbuf. by subst.
Defined.

(** * The owner words during Phase 3 *)

Section Phase3Entries.

Variable invoke_apply_record : Memory -> WriteXctAccess -> XctId.

(** An entry that is followed by one of the same address leaves the lock
    words alone. *)
Lemma apply_entry_keeps_lock (i : nat) (write : WriteXctAccess) (nid ndel : XctId) (w : World) :
  same_address write (get_write_set w !! S i) = true ->
  forall a,
    lock_ (owner_at (apply_entry invoke_apply_record i write nid ndel w) a)
    = lock_ (owner_at w a).
Proof.
  intros Hsame a. unfold apply_entry. cbn zeta. rewrite Hsame. clear Hsame.
  set (w1 := stamp_log (log_entry_ write) nid w).
  set (w2 := if same_address write _ then w1 else _).
  assert (H2 : forall a', lock_ (owner_at w2 a') = lock_ (owner_at w a')).
  { intros a'. subst w2 w1. destruct (same_address write _).
    - by rewrite owner_at_stamp_log.
    - rewrite owner_at_store_owner_xct_id.
      destruct (decide _) as [->|]; cbn [lock_]; by rewrite owner_at_stamp_log. }
  rewrite owner_at_store_owner_xct_id.
  destruct (decide _) as [->|]; cbn [lock_]; apply H2.
Qed.

(** An entry that ends its run stores the final id: the new id, or its
    deleted variant when the record is in deleted state after the log has
    been applied.  The log is applied with its header stamped already. *)
Lemma apply_entry_final (i : nat) (write : WriteXctAccess) (nid ndel : XctId) (w : World) :
  same_address write (get_write_set w !! S i) = false ->
  exists m,
    log_headers_ m (log_entry_ write) = nid
    /\ owner_at (apply_entry invoke_apply_record i write nid ndel w)
         (owner_id_address_ write)
       = mkLockableXctId 0
           (if XctIdOps.is_deleted (invoke_apply_record m write) then ndel else nid).
Proof.
  intros Hsame. unfold apply_entry. cbn zeta. rewrite Hsame. clear Hsame.
  set (w1 := stamp_log (log_entry_ write) nid w).
  set (w2 := if same_address write _ then w1 else _).
  exists (memory_ w2). split.
  - subst w2. destruct (same_address write _); [apply fn_lookup_insert|].
    rewrite log_headers_store_owner_xct_id. apply fn_lookup_insert.
  - rewrite owner_at_set_write_set, owner_at_mcs_release_lock, decide_True by done.
    rewrite owner_at_record_event, owner_at_store_owner_xct_id, decide_True by done.
    rewrite owner_at_store_owner_xct_id, decide_True by done. done.
Qed.

Lemma apply_entry_lookup (i j : nat) (write : WriteXctAccess) (nid ndel : XctId) (w : World) :
  i <> j ->
  get_write_set (apply_entry invoke_apply_record i write nid ndel w) !! j
  = get_write_set w !! j.
Proof.
  intros Hne.
  pose proof (apply_entry_spec invoke_apply_record i write nid ndel w) as Hspec.
  cbn zeta in Hspec. destruct Hspec as (Hws & _).
  destruct (same_address write _).
  - by destruct Hws as [-> _].
  - destruct Hws as [-> _]. by apply list_lookup_insert_ne.
Qed.

(** The loop touches the owner words of the entries it visits only. *)
Lemma apply_loop_frame (todo : nat) :
  forall (i : nat) (nid ndel : XctId) (w : World) (a : Z),
    a ∉ owner_id_address_ <$> drop i (get_write_set w) ->
    owner_at (apply_loop invoke_apply_record todo i nid ndel w) a = owner_at w a.
Proof.
  induction todo as [|todo IH]; intros i nid ndel w a Ha; cbn [apply_loop]; [done|].
  destruct (get_write_set w !! i) as [write|] eqn:Hi; [|done].
  rewrite (drop_S _ _ _ Hi) in Ha. cbn [fmap list_fmap] in Ha.
  apply not_elem_of_cons in Ha as [Hne Hout].
  pose proof (apply_entry_owners invoke_apply_record i write nid ndel w) as (Hframe & _).
  rewrite IH; [by apply Hframe|].
  rewrite fmap_drop, (apply_entry_addresses _ _ _ _ _ _ Hi), <- fmap_drop. exact Hout.
Qed.

(** After the loop has passed the last entry of an address, the owner word
    at that address has a free lock and the id that this entry stored. *)
Lemma apply_loop_last_entry (todo : nat) :
  forall (i : nat) (nid ndel : XctId) (w : World) (j : nat) (e : WriteXctAccess),
    (i <= j < i + todo)%nat ->
    get_write_set w !! j = Some e ->
    (forall j' e', (j < j')%nat -> get_write_set w !! j' = Some e' ->
       owner_id_address_ e' <> owner_id_address_ e) ->
    exists m,
      log_headers_ m (log_entry_ e) = nid
      /\ owner_at (apply_loop invoke_apply_record todo i nid ndel w) (owner_id_address_ e)
         = mkLockableXctId 0
             (if XctIdOps.is_deleted (invoke_apply_record m e) then ndel else nid).
Proof.
  induction todo as [|todo IH]; intros i nid ndel w j e Hj Hlook Hlast; [lia|].
  cbn [apply_loop].
  destruct (get_write_set w !! i) as [write|] eqn:Hi.
  2:{ apply lookup_ge_None_1 in Hi. apply lookup_lt_Some in Hlook. lia. }
  destruct (decide (i = j)) as [->|Hne].
  - rewrite Hlook in Hi. injection Hi as <-.
    assert (Hsame : same_address e (get_write_set w !! S j) = false).
    { apply same_address_false_iff. intros e' He'. by apply (Hlast (S j)); [lia|]. }
    destruct (apply_entry_final j e nid ndel w Hsame) as (m & Hm & Hfinal).
    exists m. split; [done|].
    rewrite apply_loop_frame; [done|].
    rewrite fmap_drop, (apply_entry_addresses _ _ _ _ _ _ Hlook), <- fmap_drop.
    intros Hin. apply list_elem_of_fmap in Hin as (e' & Heq & Hin).
    apply list_elem_of_lookup_1 in Hin as [k Hk]. rewrite lookup_drop in Hk.
    by apply (Hlast (S j + k)%nat e'); [lia| |].
  - apply (IH (S i) nid ndel _ j e); [lia| |].
    + by rewrite apply_entry_lookup.
    + intros j' e' Hj' Hlook'. rewrite apply_entry_lookup in Hlook' by lia.
      by apply (Hlast j').
Qed.

(** As long as the loop has not reached the end of the run of an address,
    the lock word at that address is what it was. *)
Lemma apply_loop_keeps_lock (todo : nat) :
  forall (i : nat) (nid ndel : XctId) (w : World) (a : Z),
    (forall j e, (i <= j < i + todo)%nat -> get_write_set w !! j = Some e ->
       owner_id_address_ e = a -> same_address e (get_write_set w !! S j) = true) ->
    lock_ (owner_at (apply_loop invoke_apply_record todo i nid ndel w) a)
    = lock_ (owner_at w a).
Proof.
  induction todo as [|todo IH]; intros i nid ndel w a Hruns; cbn [apply_loop]; [done|].
  destruct (get_write_set w !! i) as [write|] eqn:Hi; [|done].
  rewrite IH.
  - destruct (decide (owner_id_address_ write = a)) as [Ha|Hne].
    + apply apply_entry_keeps_lock. by apply Hruns; [lia| |].
    + pose proof (apply_entry_owners invoke_apply_record i write nid ndel w) as (Hframe & _).
      by rewrite Hframe.
  - intros j e Hj Hlook Ha.
    rewrite !apply_entry_lookup in * by lia. by apply Hruns; [lia| |].
Qed.

End Phase3Entries.

(** * Entries of the same address in Phase 1 and Phase 3 *)

Section SameAddressEntries.

Variable track_moved_record : Memory -> Z -> WriteXctAccess -> option (Z * Z).
Variable invoke_apply_record : Memory -> WriteXctAccess -> XctId.
Variable std_sort : list WriteXctAccess -> list WriteXctAccess.
Hypothesis std_sort_perm : forall l, std_sort l ≡ₚ l.
Hypothesis std_sort_sorted : forall l, sorted_by_address (std_sort l).

(** In a sorted write set, an entry that precedes the last entry of its
    address is followed by an entry of that address. *)
Lemma sorted_run_continues (ws : list WriteXctAccess) (j' j : nat) (e' e : WriteXctAccess) :
  sorted_by_address ws ->
  (j' < j)%nat -> ws !! j' = Some e' -> ws !! j = Some e ->
  owner_id_address_ e' = owner_id_address_ e ->
  same_address e' (ws !! S j') = true.
Proof.
  intros Hs Hlt Hj' Hj Heq.
  destruct (ws !! S j') as [x|] eqn:Hx.
  2:{ apply lookup_ge_None_1 in Hx. apply lookup_lt_Some in Hj. lia. }
  cbn. apply Z.eqb_eq.
  pose proof (sorted_by_address_lookup ws Hs j' (S j') e' x ltac:(lia) Hj' Hx) as Hlow.
  destruct (decide (S j' = j)) as [<-|Hne]; [congruence|].
  pose proof (sorted_by_address_lookup ws Hs (S j') j x e ltac:(lia) Hx Hj) as Hhigh.
  lia.
Qed.


End SameAddressEntries.

(** * The id that Phase 3 issues and where it is stored *)

Section NewXctId.

Variable invoke_apply_record : Memory -> WriteXctAccess -> XctId.


End NewXctId.

(** * The [double] arithmetic of HashMetadata::set_capacity *)

(** ** Number of binary digits *)

Lemma digits2_pos_size (p : positive) : digits2_pos p = Pos.size p.
Proof. induction p as [p IH|p IH|]; cbn; by rewrite ?IH. Qed.

Lemma Zdigits2_log2 (m : Z) : 0 < m -> Zdigits2 m = Z.log2 m + 1.
Proof.
  destruct m as [|p|p]; [lia| |lia]. intros _. cbn [Zdigits2].
  destruct p as [p|p|]; cbn; rewrite ?digits2_pos_size; lia.
Qed.

Lemma Zdigits2_nonneg (m : Z) : 0 <= Zdigits2 m.
Proof. destruct m; cbn; lia. Qed.

Lemma Zdigits2_pos (m : Z) : 0 < m -> 0 < Zdigits2 m.
Proof. destruct m; cbn; lia. Qed.

Lemma Zdigits2_bounds (m : Z) :
  0 < m -> 2 ^ (Zdigits2 m - 1) <= m < 2 ^ Zdigits2 m.
Proof.
  intros Hm. rewrite Zdigits2_log2 by done.
  replace (Z.log2 m + 1 - 1) with (Z.log2 m) by lia.
  replace (Z.log2 m + 1) with (Z.succ (Z.log2 m)) by lia.
  by apply Z.log2_spec.
Qed.

Lemma Zdigits2_unique (m d : Z) :
  0 < d -> 2 ^ (d - 1) <= m < 2 ^ d -> Zdigits2 m = d.
Proof.
  intros Hd Hm.
  assert (0 < m) by (pose proof (Z.pow_pos_nonneg 2 (d - 1)); lia).
  rewrite Zdigits2_log2 by done.
  rewrite (Z.log2_unique m (d - 1)); [lia|lia|].
  by replace (Z.succ (d - 1)) with d by lia.
Qed.

Lemma Zdigits2_le (m m' : Z) : 0 <= m <= m' -> Zdigits2 m <= Zdigits2 m'.
Proof.
  intros [Hm Hle]. destruct (decide (m = 0)) as [->|Hne]; [apply Zdigits2_nonneg|].
  rewrite !Zdigits2_log2 by lia. pose proof (Z.log2_le_mono m m' Hle). lia.
Qed.

Lemma Zdigits2_lt_pow2 (m d : Z) : 0 <= m -> 0 <= d -> m < 2 ^ d -> Zdigits2 m <= d.
Proof.
  intros Hm Hd Hlt. destruct (decide (m = 0)) as [->|Hne]; [done|].
  pose proof (Zdigits2_bounds m ltac:(lia)) as [Hlow _].
  destruct (Z.le_gt_cases (Zdigits2 m) d) as [|Hgt]; [done|].
  pose proof (Z.pow_le_mono_r 2 d (Zdigits2 m - 1)). lia.
Qed.

Lemma Zdigits2_div_pow2 (m k : Z) :
  0 <= k -> 2 ^ k <= m -> Zdigits2 (m / 2 ^ k) = Zdigits2 m - k.
Proof.
  intros Hk Hle.
  assert (Hpos : 0 < 2 ^ k) by (apply Z.pow_pos_nonneg; lia).
  pose proof (Zdigits2_bounds m ltac:(lia)) as [Hlow Hhigh].
  assert (Hd : k < Zdigits2 m).
  { destruct (Z.le_gt_cases (Zdigits2 m) k) as [Hge|]; [|done].
    pose proof (Z.pow_le_mono_r 2 (Zdigits2 m) k). lia. }
  apply Zdigits2_unique; [lia|].
  replace (2 ^ (Zdigits2 m - 1)) with (2 ^ (Zdigits2 m - k - 1) * 2 ^ k) in Hlow
    by (rewrite <- Z.pow_add_r by lia; f_equal; lia).
  replace (2 ^ Zdigits2 m) with (2 ^ (Zdigits2 m - k) * 2 ^ k) in Hhigh
    by (rewrite <- Z.pow_add_r by lia; f_equal; lia).
  split.
  - apply Z.div_le_lower_bound; lia.
  - apply Z.div_lt_upper_bound; lia.
Qed.

Lemma Zdigits2_succ (m : Z) :
  0 <= m ->
  Zdigits2 (m + 1) = Zdigits2 m
  \/ (m + 1 = 2 ^ Zdigits2 m /\ Zdigits2 (m + 1) = Zdigits2 m + 1).
Proof.
  intros Hm. destruct (decide (m = 0)) as [->|Hne]; [right; done|].
  pose proof (Zdigits2_bounds m ltac:(lia)) as [Hlow Hhigh].
  pose proof (Zdigits2_pos m ltac:(lia)) as Hd.
  destruct (decide (m + 1 = 2 ^ Zdigits2 m)) as [Heq|Hlt].
  - right. split; [done|]. apply Zdigits2_unique; [lia|].
    replace (Zdigits2 m + 1 - 1) with (Zdigits2 m) by lia.
    rewrite Z.pow_add_r by lia. lia.
  - left. apply Zdigits2_unique; lia.
Qed.

(** ** Shifting a mantissa to the right *)

Lemma shr_record_of_loc_inv (n d : Z) (l : location) :
  (n mod d = 0 -> l = loc_Exact) -> shr_inv n d (shr_record_of_loc (n / d) l).
Proof.
  intros Hl. split.
  - by destruct l as [|[]].
  - intros Hex. by rewrite (Hl Hex).
Qed.

Lemma shr_1_inv (n d : Z) (r : shr_record) :
  0 <= n -> 0 < d -> shr_inv n d r -> shr_inv n (d * 2) (shr_1 r).
Proof.
  intros Hn Hd [Hm Hexact].
  assert (Hq : 0 <= n / d) by (apply Z.div_pos; lia).
  assert (Hhalf : shr_m (shr_1 r) = shr_m r / 2
                  /\ shr_r (shr_1 r) = Z.odd (shr_m r)
                  /\ shr_s (shr_1 r) = shr_r r || shr_s r).
  { destruct r as [m b s]. cbn [shr_m] in *.
    destruct m as [|[p|p|]|p]; cbn [shr_1 shr_m shr_r shr_s]; [done| | |done|lia].
    - split; [|done]. rewrite Pos2Z.inj_xI. apply (Z.div_unique _ 2 _ 1); lia.
    - split; [|done]. rewrite Pos2Z.inj_xO. apply (Z.div_unique _ 2 _ 0); lia. }
  destruct Hhalf as (Hm1 & Hr1 & Hs1). split.
  - rewrite Hm1, Hm. apply Z.div_div; lia.
  - intros Hmod.
    assert (Hn2 : n = d * 2 * (n / (d * 2))).
    { pose proof (Z.div_mod n (d * 2) ltac:(lia)). lia. }
    assert (Hnd : n / d = 2 * (n / (d * 2))).
    { rewrite Hn2 at 1. replace (d * 2 * (n / (d * 2))) with (2 * (n / (d * 2)) * d) by lia.
      apply Z.div_mul. lia. }
    assert (Hmod' : n mod d = 0).
    { rewrite Hn2. replace (d * 2 * (n / (d * 2))) with (2 * (n / (d * 2)) * d) by lia.
      apply Z.mod_mul. lia. }
    destruct (Hexact Hmod') as [Hr Hs].
    rewrite Hr1, Hs1, Hr, Hs, Hm, Hnd. split; [|done].
    by rewrite Z.odd_mul.
Qed.

Lemma iter_pos_shr_1_inv (p : positive) :
  forall (n d : Z) (r : shr_record),
    0 <= n -> 0 < d -> shr_inv n d r ->
    shr_inv n (d * 2 ^ Z.pos p) (SpecFloat.iter_pos shr_1 p r).
Proof.
  induction p as [p IH|p IH|]; intros n d r Hn Hd Hinv; cbn [SpecFloat.iter_pos].
  - replace (d * 2 ^ Z.pos p~1) with (d * 2 * 2 ^ Z.pos p * 2 ^ Z.pos p).
    2:{ assert (Z.pos p~1 = 1 + Z.pos p + Z.pos p) as -> by lia.
        rewrite !Z.pow_add_r by lia. lia. }
    assert (0 < 2 ^ Z.pos p) by (apply Z.pow_pos_nonneg; lia).
    apply IH; [done|nia|]. apply IH; [done|lia|]. by apply shr_1_inv.
  - replace (d * 2 ^ Z.pos p~0) with (d * 2 ^ Z.pos p * 2 ^ Z.pos p).
    2:{ assert (Z.pos p~0 = Z.pos p + Z.pos p) as -> by lia.
        rewrite !Z.pow_add_r by lia. lia. }
    assert (0 < 2 ^ Z.pos p) by (apply Z.pow_pos_nonneg; lia).
    apply IH; [done|nia|]. by apply IH.
  - by apply shr_1_inv.
Qed.

Lemma shr_inv_shift (n d : Z) (r : shr_record) (e k : Z) :
  0 <= n -> 0 < d -> 0 <= k -> shr_inv n d r ->
  exists r', shr r e k = (r', e + k) /\ shr_inv n (d * 2 ^ k) r'.
Proof.
  intros Hn Hd Hk Hinv. destruct k as [|p|p]; [| |lia].
  - exists r. cbn. rewrite Z.add_0_r, Z.mul_1_r. done.
  - exists (SpecFloat.iter_pos shr_1 p r). split; [done|]. by apply iter_pos_shr_1_inv.
Qed.

Lemma round_nearest_even_bounds (n d : Z) (r : shr_record) :
  shr_inv n d r ->
  let m := round_nearest_even (shr_m r) (loc_of_shr_record r) in
  n / d <= m <= n / d + 1 /\ (n mod d = 0 -> m = n / d).
Proof.
  intros [Hm Hexact]. cbn zeta. rewrite <- Hm. split.
  - destruct r as [m [] []]; cbn; try destruct (Z.even m); lia.
  - intros Hmod. destruct (Hexact Hmod) as [Hr Hs].
    destruct r as [m b s]. cbn in *. by subst.
Qed.

(** ** Rounding to nearest, ties to even *)

Section Rounding.

Variables prec emax : Z.
Hypothesis prec_pos : 0 < prec.

#[local] Abbreviation fexp := (SpecFloat.fexp prec emax).
#[local] Abbreviation emin := (SpecFloat.emin prec emax).

Lemma fexp_le (a b : Z) : a <= b -> fexp a <= fexp b.
Proof. unfold SpecFloat.fexp. lia. Qed.

Lemma fexp_succ (a : Z) : fexp (a + 1) = fexp a \/ fexp (a + 1) = fexp a + 1.
Proof. unfold SpecFloat.fexp. lia. Qed.

Lemma fexp_ge_emin (a : Z) : emin <= fexp a.
Proof. unfold SpecFloat.fexp. lia. Qed.

(** The second shift of [binary_round_aux] moves by at most one place, and
    then the mantissa is even. *)
Lemma second_shift (m e m_r : Z) :
  0 <= m -> e <= fexp (Zdigits2 m + e) ->
  let e_t := fexp (Zdigits2 m + e) in
  m / 2 ^ (e_t - e) <= m_r <= m / 2 ^ (e_t - e) + 1 ->
  fexp (Zdigits2 m_r + e_t) = e_t
  \/ (fexp (Zdigits2 m_r + e_t) = e_t + 1
      /\ exists h, m_r = 2 * h /\ 0 < h /\ Zdigits2 h = Zdigits2 m_r - 1).
Proof.
  intros Hm He e_t Hr.
  set (k := e_t - e) in *.
  assert (Hk : 0 <= k) by (unfold k, e_t; lia).
  assert (Hpow : 0 < 2 ^ k) by (apply Z.pow_pos_nonneg; lia).
  destruct (Z.lt_ge_cases m (2 ^ k)) as [Hsmall|Hbig].
  - rewrite Z.div_small in Hr by lia.
    pose proof (Zdigits2_lt_pow2 m k Hm Hk Hsmall) as Hd.
    assert (Het : e_t = emin) by (unfold e_t, k, SpecFloat.fexp in *; lia).
    left. assert (Hdr : 0 <= Zdigits2 m_r <= 1).
    { split; [apply Zdigits2_nonneg|]. apply (Zdigits2_lt_pow2 m_r 1); lia. }
    rewrite Het. unfold SpecFloat.fexp. lia.
  - assert (Hmt : 0 < m / 2 ^ k).
    { apply Z.div_str_pos. lia. }
    pose proof (Zdigits2_div_pow2 m k Hk Hbig) as Hdt.
    assert (Hsame : Zdigits2 (m / 2 ^ k) + e_t = Zdigits2 m + e) by (unfold k in *; lia).
    destruct (decide (m_r = m / 2 ^ k)) as [->|Hne].
    { left. by rewrite Hsame. }
    assert (Hmr : m_r = m / 2 ^ k + 1) by lia.
    destruct (Zdigits2_succ (m / 2 ^ k) ltac:(lia)) as [Hd|[Hp Hd]]; rewrite <- Hmr in *.
    { left. by rewrite Hd, Hsame. }
    replace (Zdigits2 m_r + e_t) with (Zdigits2 m + e + 1) by lia.
    destruct (fexp_succ (Zdigits2 m + e)) as [Hf|Hf]; [by left|right].
    split; [exact Hf|].
    pose proof (Zdigits2_pos _ Hmt) as Hdpos.
    exists (2 ^ (Zdigits2 (m / 2 ^ k) - 1)). split_and!.
    + rewrite Hp. rewrite <- (Z.pow_succ_r 2) by lia. f_equal. lia.
    + apply Z.pow_pos_nonneg; lia.
    + rewrite Hd. apply Zdigits2_unique; [lia|].
      replace (Zdigits2 (m / 2 ^ k) + 1 - 1 - 1) with (Zdigits2 (m / 2 ^ k) - 1) by lia.
      replace (Zdigits2 (m / 2 ^ k) + 1 - 1) with (Z.succ (Zdigits2 (m / 2 ^ k) - 1)) by lia.
      rewrite Z.pow_succ_r by lia.
      pose proof (Z.pow_pos_nonneg 2 (Zdigits2 (m / 2 ^ k) - 1)). lia.
Qed.

(** [binary_round_aux] on the integer part [n / d] of a quotient, with the
    location of the quotient within its unit: the exponent becomes
    [fexp (digits + e)], the mantissa the quotient at that exponent rounded
    down or up, and down when it is exact. *)
Lemma binary_round_aux_spec (n d e : Z) (l : location) :
  0 <= n -> 0 < d -> (n mod d = 0 -> l = loc_Exact) ->
  e <= fexp (Zdigits2 (n / d) + e) ->
  let e_t := fexp (Zdigits2 (n / d) + e) in
  let scale := d * 2 ^ (e_t - e) in
  exists m_r,
    n / scale <= m_r <= n / scale + 1
    /\ (n mod scale = 0 -> m_r = n / scale)
    /\ rounds_to prec emax m_r e_t (binary_round_aux prec emax false (n / d) e l).
Proof.
  intros Hn Hd Hl He e_t scale.
  assert (Hm : 0 <= n / d) by (apply Z.div_pos; lia).
  assert (Hk : 0 <= e_t - e) by (unfold e_t; lia).
  assert (Hpow : 0 < 2 ^ (e_t - e)) by (apply Z.pow_pos_nonneg; lia).
  unfold binary_round_aux, shr_fexp. fold e_t.
  destruct (shr_inv_shift n d (shr_record_of_loc (n / d) l) e (e_t - e) Hn Hd Hk
              (shr_record_of_loc_inv n d l Hl)) as (r1 & -> & Hinv1).
  fold scale in Hinv1.
  pose proof (round_nearest_even_bounds n scale r1 Hinv1) as [Hbounds Hexact].
  cbn zeta in Hbounds, Hexact.
  set (m_r := round_nearest_even (shr_m r1) (loc_of_shr_record r1)) in *.
  replace (e + (e_t - e)) with e_t by lia.
  exists m_r. split; [done|]. split; [done|].
  assert (Hmr : 0 <= m_r).
  { assert (0 <= n / scale) by (apply Z.div_pos; unfold scale; nia). lia. }
  assert (Hdiv : n / scale = n / d / 2 ^ (e_t - e)).
  { unfold scale. symmetry. apply Z.div_div; lia. }
  rewrite Hdiv in Hbounds.
  pose proof (second_shift (n / d) e m_r Hm He Hbounds) as Hsecond. fold e_t in Hsecond.
  assert (Hinv2 : shr_inv m_r 1 (shr_record_of_loc m_r loc_Exact)).
  { split; cbn; [by rewrite Z.div_1_r|done]. }
  destruct Hsecond as [Hf|(Hf & h & Hh & Hhpos & Hdh)].
  - rewrite Hf, Z.sub_diag. cbn [shr shr_record_of_loc shr_m].
    destruct m_r as [|p|p]; [by left| |lia].
    right. exists p, e_t. rewrite Z.sub_diag, Z.mul_1_r.
    split_and!; [lia|done| |done].
    unfold canonical_mantissa. apply Z.eqb_eq. exact Hf.
  - rewrite Hf. replace (e_t + 1 - e_t) with 1 by lia.
    cbn [shr SpecFloat.iter_pos].
    pose proof (shr_1_inv m_r 1 _ Hmr ltac:(lia) Hinv2) as [Hm2 _].
    rewrite Hm2. replace (m_r / (1 * 2)) with h.
    2:{ rewrite Hh. symmetry. replace (2 * h) with (h * (1 * 2)) by lia.
        apply Z.div_mul. lia. }
    destruct h as [|p|p]; [lia| |lia].
    right. exists p, (e_t + 1). replace (e_t + 1 - e_t) with 1 by lia.
    split_and!; [lia|lia| |done].
    unfold canonical_mantissa. apply Z.eqb_eq.
    change (Z.pos (digits2_pos p)) with (Zdigits2 (Z.pos p)). rewrite Hdh.
    replace (Zdigits2 m_r - 1 + (e_t + 1)) with (Zdigits2 m_r + e_t) by lia. exact Hf.
Qed.

(** *** Bounds that rounding respects *)

Lemma canonical_mantissa_spec (m : positive) (e : Z) :
  canonical_mantissa prec emax m e = true ->
  emin <= e /\ Zdigits2 (Z.pos m) <= prec /\ (emin < e -> Zdigits2 (Z.pos m) = prec).
Proof.
  unfold canonical_mantissa. intros H%Z.eqb_eq.
  change (Z.pos (digits2_pos m)) with (Zdigits2 (Z.pos m)) in H.
  unfold SpecFloat.fexp in H. lia.
Qed.

Lemma bounded_spec (m : positive) (e : Z) :
  bounded prec emax m e = true <->
  canonical_mantissa prec emax m e = true /\ e <= emax - prec.
Proof. unfold bounded. rewrite andb_true_iff, Z.leb_le. done. Qed.

(** Of two canonical numbers, the smaller one has the smaller exponent. *)
Lemma canonical_le_exponent (c : Z) (m1 : positive) (e1 : Z) (m2 : positive) (e2 : Z) :
  canonical_mantissa prec emax m1 e1 = true ->
  canonical_mantissa prec emax m2 e2 = true ->
  c <= e2 ->
  scaled c (Z.pos m1) e1 <= scaled c (Z.pos m2) e2 ->
  e1 <= e2.
Proof.
  intros (_ & _ & H1)%canonical_mantissa_spec (Hmin & H2 & _)%canonical_mantissa_spec Hc Hle.
  destruct (Z.le_gt_cases e1 e2) as [|Hgt]; [done|exfalso].
  specialize (H1 ltac:(lia)).
  pose proof (Zdigits2_bounds (Z.pos m1) ltac:(lia)) as [Hlow _].
  pose proof (Zdigits2_bounds (Z.pos m2) ltac:(lia)) as [_ Hhigh].
  rewrite H1 in Hlow.
  assert (Hhigh' : Z.pos m2 < 2 ^ prec).
  { pose proof (Z.pow_le_mono_r 2 (Zdigits2 (Z.pos m2)) prec). lia. }
  unfold scaled in Hle.
  assert (He : 2 ^ (e1 - c) = 2 ^ (e1 - e2 - 1) * 2 * 2 ^ (e2 - c)).
  { replace (e1 - c) with (e1 - e2 - 1 + 1 + (e2 - c)) by lia.
    rewrite !Z.pow_add_r by lia. done. }
  assert (Hp : 2 ^ prec = 2 * 2 ^ (prec - 1)).
  { rewrite <- (Z.pow_succ_r 2) by lia. f_equal. lia. }
  pose proof (Z.pow_pos_nonneg 2 (e1 - e2 - 1) ltac:(lia) ltac:(lia)).
  pose proof (Z.pow_pos_nonneg 2 (e2 - c) ltac:(lia) ltac:(lia)).
  pose proof (Z.pow_pos_nonneg 2 (prec - 1) ltac:(lia) ltac:(lia)).
  rewrite He in Hle. nia.
Qed.

Lemma rounds_to_scaled (c m_r e_t : Z) (m : positive) (e : Z) :
  c <= e_t -> e_t <= e -> Z.pos m * 2 ^ (e - e_t) = m_r ->
  scaled c (Z.pos m) e = scaled c m_r e_t.
Proof.
  intros Hc He <-. unfold scaled.
  replace (e - c) with (e - e_t + (e_t - c)) by lia.
  rewrite Z.pow_add_r by lia. lia.
Qed.

(** A quotient that is at most a number of the format is rounded to at
    most that number. *)
Lemma binary_round_aux_at_most (c n d e : Z) (l : location) (M : positive) (E : Z) :
  0 <= n -> 0 < d -> (n mod d = 0 -> l = loc_Exact) ->
  e <= fexp (Zdigits2 (n / d) + e) ->
  c <= e -> c <= E ->
  bounded prec emax M E = true ->
  n * 2 ^ (e - c) <= d * scaled c (Z.pos M) E ->
  at_most prec emax c (Z.pos M) E (binary_round_aux prec emax false (n / d) e l).
Proof.
  intros Hn Hd Hl He Hc HcE [HM HE]%bounded_spec Hle.
  pose proof (canonical_mantissa_spec M E HM) as (HEmin & HMd & _).
  destruct (binary_round_aux_spec n d e l Hn Hd Hl He) as (m_r & Hbounds & Hexact & Hr).
  set (e_t := fexp (Zdigits2 (n / d) + e)) in *.
  set (K := 2 ^ (e_t - e)) in *.
  assert (HK : 0 < K) by (apply Z.pow_pos_nonneg; lia).
  assert (HP : 0 < 2 ^ (e - c)) by (apply Z.pow_pos_nonneg; lia).
  assert (Hm : 0 <= n / d) by (apply Z.div_pos; lia).
  assert (Het : 2 ^ (e_t - c) = K * 2 ^ (e - c)).
  { unfold K. rewrite <- Z.pow_add_r by lia. f_equal. lia. }
  assert (Hmain : scaled c m_r e_t <= scaled c (Z.pos M) E).
  { unfold scaled in *. rewrite Het.
    destruct (Z.le_gt_cases e_t E) as [Hcase|Hcase].
    - set (J := 2 ^ (E - e_t)).
      assert (HJ : 0 < J) by (apply Z.pow_pos_nonneg; lia).
      assert (HEc : 2 ^ (E - c) = J * K * 2 ^ (e - c)).
      { unfold J, K. rewrite <- !Z.pow_add_r by lia. f_equal. lia. }
      rewrite HEc in *.
      assert (Hn' : n <= d * K * (Z.pos M * J)) by nia.
      pose proof (Z.div_mod n (d * K) ltac:(nia)) as Hdm.
      pose proof (Z.mod_pos_bound n (d * K) ltac:(nia)) as Hmod.
      assert (Hq : m_r <= Z.pos M * J).
      { destruct (decide (n mod (d * K) = 0)) as [H0|Hne].
        - rewrite (Hexact H0). nia.
        - assert (n / (d * K) < Z.pos M * J) by nia. lia. }
      nia.
    - exfalso.
      assert (Hmpos : 0 < n / d).
      { destruct (decide (n / d = 0)) as [Hz|]; [|lia].
        assert (Zdigits2 (n / d) = 0) by (by rewrite Hz).
        unfold e_t, SpecFloat.fexp in *. lia. }
      pose proof (Zdigits2_bounds (n / d) Hmpos) as [Hlow _].
      pose proof (Zdigits2_bounds (Z.pos M) ltac:(lia)) as [_ Hhigh].
      assert (Hhigh' : Z.pos M < 2 ^ prec).
      { pose proof (Z.pow_le_mono_r 2 (Zdigits2 (Z.pos M)) prec). lia. }
      assert (Hdig : Zdigits2 (n / d) - 1 = prec - 1 + (e_t - e)).
      { unfold e_t, SpecFloat.fexp in *. lia. }
      rewrite Hdig, Z.pow_add_r in Hlow by lia. fold K in Hlow.
      assert (Hp : 2 ^ prec = 2 * 2 ^ (prec - 1)).
      { rewrite <- (Z.pow_succ_r 2) by lia. f_equal. lia. }
      assert (HEle : 2 * 2 ^ (E - c) <= 2 ^ (e_t - c)).
      { rewrite <- (Z.pow_succ_r 2) by lia. apply Z.pow_le_mono_r; lia. }
      rewrite Het in HEle.
      pose proof (Z.pow_pos_nonneg 2 (prec - 1) ltac:(lia) ltac:(lia)).
      pose proof (Z.pow_pos_nonneg 2 (E - c) ltac:(lia) ltac:(lia)).
      pose proof (Z.div_mod n d ltac:(lia)) as Hdm.
      pose proof (Z.mod_pos_bound n d Hd) as Hmod.
      assert (d * (2 ^ (prec - 1) * K) <= n) by nia.
      assert (Z.pos M * 2 ^ (E - c) < 2 ^ (prec - 1) * (2 * 2 ^ (E - c))) by nia.
      assert (2 ^ (prec - 1) * (2 * 2 ^ (E - c)) <= 2 ^ (prec - 1) * (K * 2 ^ (e - c)))
        by (apply Z.mul_le_mono_nonneg_l; lia).
      assert (d * (2 ^ (prec - 1) * K) * 2 ^ (e - c) <= n * 2 ^ (e - c))
        by (apply Z.mul_le_mono_nonneg_r; lia).
      assert (d * (Z.pos M * 2 ^ (E - c)) < d * (2 ^ (prec - 1) * (K * 2 ^ (e - c))))
        by (apply Z.mul_lt_mono_pos_l; lia).
      lia. }
  destruct Hr as [[-> ->]|(m & e' & He' & Hval & Hcan & ->)]; [done|].
  pose proof (rounds_to_scaled c m_r e_t m e' ltac:(unfold e_t; lia) He' Hval)
    as Hsc.
  rewrite <- Hsc in Hmain.
  pose proof (canonical_le_exponent c m e' M E Hcan HM ltac:(lia) Hmain) as Hexp.
  rewrite (proj2 (Z.leb_le e' (emax - prec))) by lia.
  cbn. split; [|done]. apply bounded_spec. split; [done|lia].
Qed.

(** A quotient that is at least a number of the format is rounded to at
    least that number. *)
Lemma binary_round_aux_at_least (c n d e : Z) (l : location) (M : positive) (E : Z) :
  0 <= n -> 0 < d -> (n mod d = 0 -> l = loc_Exact) ->
  e <= fexp (Zdigits2 (n / d) + e) ->
  c <= e -> c <= E ->
  canonical_mantissa prec emax M E = true ->
  d * scaled c (Z.pos M) E <= n * 2 ^ (e - c) ->
  at_least prec emax c (Z.pos M) E (binary_round_aux prec emax false (n / d) e l).
Proof.
  intros Hn Hd Hl He Hc HcE HM Hle.
  pose proof (canonical_mantissa_spec M E HM) as (HEmin & HMd & _).
  destruct (binary_round_aux_spec n d e l Hn Hd Hl He) as (m_r & Hbounds & Hexact & Hr).
  set (e_t := fexp (Zdigits2 (n / d) + e)) in *.
  set (K := 2 ^ (e_t - e)) in *.
  assert (HK : 0 < K) by (apply Z.pow_pos_nonneg; lia).
  assert (HP : 0 < 2 ^ (e - c)) by (apply Z.pow_pos_nonneg; lia).
  assert (HPE : 0 < 2 ^ (E - c)) by (apply Z.pow_pos_nonneg; lia).
  assert (Hm : 0 <= n / d) by (apply Z.div_pos; lia).
  assert (Het : 2 ^ (e_t - c) = K * 2 ^ (e - c)).
  { unfold K. rewrite <- Z.pow_add_r by lia. f_equal. lia. }
  assert (Hmain : scaled c (Z.pos M) E <= scaled c (n / (d * K)) e_t).
  { unfold scaled in *. rewrite Het.
    destruct (Z.le_gt_cases e_t E) as [Hcase|Hcase].
    - set (J := 2 ^ (E - e_t)).
      assert (HJ : 0 < J) by (apply Z.pow_pos_nonneg; lia).
      assert (HEc : 2 ^ (E - c) = J * K * 2 ^ (e - c)).
      { unfold J, K. rewrite <- !Z.pow_add_r by lia. f_equal. lia. }
      rewrite HEc in *.
      assert (Hn' : d * K * (Z.pos M * J) <= n) by nia.
      assert (Z.pos M * J <= n / (d * K)).
      { apply Z.div_le_lower_bound; [nia|lia]. }
      nia.
    - assert (Hmpos : 0 < n / d).
      { destruct (decide (n / d = 0)) as [Hz|]; [|lia].
        assert (Zdigits2 (n / d) = 0) by (by rewrite Hz).
        unfold e_t, SpecFloat.fexp in *. lia. }
      pose proof (Zdigits2_bounds (n / d) Hmpos) as [Hlow _].
      pose proof (Zdigits2_bounds (Z.pos M) ltac:(lia)) as [_ Hhigh].
      assert (Hhigh' : Z.pos M < 2 ^ prec).
      { pose proof (Z.pow_le_mono_r 2 (Zdigits2 (Z.pos M)) prec). lia. }
      assert (Hk : e_t - e = Zdigits2 (n / d) - prec).
      { unfold e_t, SpecFloat.fexp in *. lia. }
      assert (Hbig : K <= n / d).
      { unfold K. rewrite Hk.
        pose proof (Z.pow_le_mono_r 2 (Zdigits2 (n / d) - prec) (Zdigits2 (n / d) - 1)). lia. }
      pose proof (Zdigits2_div_pow2 (n / d) (e_t - e) ltac:(lia) Hbig) as Hdt.
      fold K in Hdt. rewrite Z.div_div in Hdt by lia.
      assert (Hmt : 0 < n / (d * K)).
      { rewrite <- Z.div_div by lia. apply Z.div_str_pos. lia. }
      pose proof (Zdigits2_bounds _ Hmt) as [Hlow' _].
      rewrite Hdt, Hk in Hlow'.
      replace (Zdigits2 (n / d) - (Zdigits2 (n / d) - prec) - 1) with (prec - 1) in Hlow' by lia.
      assert (Hp : 2 ^ prec = 2 * 2 ^ (prec - 1)).
      { rewrite <- (Z.pow_succ_r 2) by lia. f_equal. lia. }
      assert (HEle : 2 * 2 ^ (E - c) <= 2 ^ (e_t - c)).
      { rewrite <- (Z.pow_succ_r 2) by lia. apply Z.pow_le_mono_r; lia. }
      rewrite Het in HEle.
      pose proof (Z.pow_pos_nonneg 2 (prec - 1) ltac:(lia) ltac:(lia)).
      nia. }
  assert (Hmr : scaled c (Z.pos M) E <= scaled c m_r e_t).
  { etrans; [exact Hmain|]. unfold scaled.
    pose proof (Z.pow_pos_nonneg 2 (e_t - c) ltac:(lia) ltac:(unfold e_t; lia)). nia. }
  destruct Hr as [[-> ->]|(m & e' & He' & Hval & Hcan & ->)].
  { unfold scaled in Hmr. lia. }
  pose proof (rounds_to_scaled c m_r e_t m e' ltac:(unfold e_t; lia) He' Hval)
    as Hsc.
  rewrite <- Hsc in Hmr.
  destruct (e' <=? emax - prec) eqn:Hrange; [|done].
  cbn. split; [|done]. apply bounded_spec. split; [done|]. by apply Z.leb_le.
Qed.

(** *** Conversion of an integer *)

Lemma shl_align_spec (p : positive) (e e' : Z) :
  let '(mz, ez) := shl_align p e e' in
  ez = Z.min e e' /\ Z.pos mz = Z.pos p * 2 ^ (e - ez).
Proof.
  unfold shl_align. destruct (e' - e) as [|d|d] eqn:Hd.
  - split; [lia|]. by rewrite Z.sub_diag, Z.mul_1_r.
  - split; [lia|]. by rewrite Z.sub_diag, Z.mul_1_r.
  - split; [lia|]. replace (e - e') with (Z.pos d) by lia.
    clear Hd. induction d as [|d IH] using Pos.peano_ind.
    + cbn. lia.
    + rewrite Pos.iter_succ, Pos2Z.inj_xO, IH, Pos2Z.inj_succ, Z.pow_succ_r by lia. lia.
Qed.

Lemma Zdigits2_mul_pow2 (m k : Z) :
  0 < m -> 0 <= k -> Zdigits2 (m * 2 ^ k) = Zdigits2 m + k.
Proof.
  intros Hm Hk. pose proof (Zdigits2_bounds m Hm) as [Hlow Hhigh].
  pose proof (Zdigits2_pos m Hm).
  assert (0 < 2 ^ k) by (apply Z.pow_pos_nonneg; lia).
  apply Zdigits2_unique; [lia|].
  replace (Zdigits2 m + k - 1) with (Zdigits2 m - 1 + k) by lia.
  rewrite !Z.pow_add_r by lia. nia.
Qed.

(** [binary_round] hands [binary_round_aux] the same value with enough
    digits. *)
Lemma binary_round_aligned (p : positive) (e : Z) :
  exists (mz : positive) (ez : Z),
    binary_round prec emax false p e
    = binary_round_aux prec emax false (Z.pos mz / 1) ez loc_Exact
    /\ ez = Z.min e (fexp (Zdigits2 (Z.pos p) + e))
    /\ Z.pos mz = Z.pos p * 2 ^ (e - ez)
    /\ ez <= fexp (Zdigits2 (Z.pos mz / 1) + ez).
Proof.
  unfold binary_round.
  change (Z.pos (digits2_pos p)) with (Zdigits2 (Z.pos p)).
  pose proof (shl_align_spec p e (fexp (Zdigits2 (Z.pos p) + e))) as Hal.
  destruct (shl_align p e _) as [mz ez]. destruct Hal as [Hez Hmz].
  exists mz, ez. rewrite Z.div_1_r. split_and!; [done|done|done|].
  rewrite Hmz, Zdigits2_mul_pow2 by lia.
  replace (Zdigits2 (Z.pos p) + (e - ez) + ez) with (Zdigits2 (Z.pos p) + e) by lia. lia.
Qed.

Lemma binary_normalize_at_most (c n e : Z) (M : positive) (E : Z) :
  0 < n -> c <= e -> c <= emin -> c <= E ->
  bounded prec emax M E = true ->
  scaled c n e <= scaled c (Z.pos M) E ->
  at_most prec emax c (Z.pos M) E (binary_normalize prec emax n e false).
Proof.
  intros Hn Hc Hcmin HcE HM Hle. destruct n as [|p|p]; [lia| |lia].
  cbn [binary_normalize].
  destruct (binary_round_aligned p e) as (mz & ez & -> & Hez & Hmz & Hfexp).
  pose proof (fexp_ge_emin (Zdigits2 (Z.pos p) + e)).
  apply binary_round_aux_at_most; [lia|lia|done|done|lia|done|done|].
  rewrite Hmz, Z.mul_1_l, <- Z.mul_assoc, <- Z.pow_add_r by lia.
  replace (e - ez + (ez - c)) with (e - c) by lia. exact Hle.
Qed.

Lemma binary_normalize_at_least (c n e : Z) (M : positive) (E : Z) :
  0 < n -> c <= e -> c <= emin -> c <= E ->
  canonical_mantissa prec emax M E = true ->
  scaled c (Z.pos M) E <= scaled c n e ->
  at_least prec emax c (Z.pos M) E (binary_normalize prec emax n e false).
Proof.
  intros Hn Hc Hcmin HcE HM Hle. destruct n as [|p|p]; [lia| |lia].
  cbn [binary_normalize].
  destruct (binary_round_aligned p e) as (mz & ez & -> & Hez & Hmz & Hfexp).
  pose proof (fexp_ge_emin (Zdigits2 (Z.pos p) + e)).
  apply binary_round_aux_at_least; [lia|lia|done|done|lia|done|done|].
  rewrite Hmz, Z.mul_1_l, <- Z.mul_assoc, <- Z.pow_add_r by lia.
  replace (e - ez + (ez - c)) with (e - c) by lia. exact Hle.
Qed.

(** *** Division *)

Lemma new_location_exact (nb_steps k : Z) : k = 0 -> new_location nb_steps k = loc_Exact.
Proof.
  intros ->. unfold new_location, new_location_even, new_location_odd.
  by destruct (Z.even nb_steps).
Qed.

(** [SFdiv_core_binary] yields the integer part of a quotient with enough
    digits, and the location of the quotient. *)
Lemma SFdiv_core_binary_spec (mx : positive) (ex : Z) (my : positive) (ey : Z) :
  exists (e' s : Z),
    SFdiv_core_binary prec emax (Z.pos mx) ex (Z.pos my) ey
    = (Z.pos mx * 2 ^ s / Z.pos my, e',
       new_location (Z.pos my) ((Z.pos mx * 2 ^ s) mod Z.pos my))
    /\ 0 <= s /\ s + e' = ex - ey
    /\ Z.min emin (ex - ey) <= e'
    /\ e' <= fexp (Zdigits2 (Z.pos mx * 2 ^ s / Z.pos my) + e').
Proof.
  unfold SFdiv_core_binary.
  set (d1 := Zdigits2 (Z.pos mx)). set (d2 := Zdigits2 (Z.pos my)).
  set (e' := Z.min (fexp (d1 + ex - (d2 + ey))) (ex - ey)).
  set (s := ex - ey - e').
  assert (Hs : 0 <= s) by (unfold s, e'; lia).
  exists e', s.
  assert (Hm' : match s with Z.pos _ => Z.shiftl (Z.pos mx) s | 0 => Z.pos mx | Z.neg _ => 0 end
                = Z.pos mx * 2 ^ s).
  { destruct s as [|p|p] eqn:Hsp; [lia| |lia]. by rewrite Z.shiftl_mul_pow2. }
  rewrite Hm'. unfold Z.div, Z.modulo.
  destruct (Z.div_eucl (Z.pos mx * 2 ^ s) (Z.pos my)) as [q r] eqn:Hqr.
  split; [done|]. split; [done|]. split; [unfold s; lia|].
  pose proof (fexp_ge_emin (d1 + ex - (d2 + ey))). split; [unfold e'; lia|].
  assert (Hq : q = Z.pos mx * 2 ^ s / Z.pos my) by (unfold Z.div; by rewrite Hqr).
  cbn [fst]. rewrite Hq.
  assert (Hdig : d1 + s - d2 <= Zdigits2 (Z.pos mx * 2 ^ s / Z.pos my)).
  { pose proof (Zdigits2_nonneg (Z.pos mx * 2 ^ s / Z.pos my)).
    destruct (Z.le_gt_cases (d1 + s - d2) 0) as [|Hpos]; [lia|].
    pose proof (Zdigits2_bounds (Z.pos mx) ltac:(lia)) as [Hlow _].
    pose proof (Zdigits2_bounds (Z.pos my) ltac:(lia)) as [_ Hhigh].
    fold d1 in Hlow. fold d2 in Hhigh.
    assert (0 < 2 ^ s) by (apply Z.pow_pos_nonneg; lia).
    assert (0 < 2 ^ (d1 - 1 + s - d2)) by (apply Z.pow_pos_nonneg; lia).
    assert (Hsplit : 2 ^ (d1 - 1) * 2 ^ s = 2 ^ (d1 - 1 + s - d2) * 2 ^ d2).
    { pose proof (Zdigits2_pos (Z.pos mx) ltac:(lia)).
      pose proof (Zdigits2_pos (Z.pos my) ltac:(lia)).
      rewrite <- !Z.pow_add_r by (unfold d1, d2 in *; lia). f_equal. lia. }
    assert (Hqlow : 2 ^ (d1 - 1 + s - d2) <= Z.pos mx * 2 ^ s / Z.pos my).
    { apply Z.div_le_lower_bound; [lia|]. nia. }
    pose proof (Zdigits2_bounds (Z.pos mx * 2 ^ s / Z.pos my) ltac:(lia)) as [_ Hqhigh].
    destruct (Z.le_gt_cases (d1 + s - d2) (Zdigits2 (Z.pos mx * 2 ^ s / Z.pos my)))
      as [|Hgt]; [done|].
    pose proof (Z.pow_le_mono_r 2 (Zdigits2 (Z.pos mx * 2 ^ s / Z.pos my))
                  (d1 - 1 + s - d2)). lia. }
  assert (Hse : s = ex - ey - e') by done.
  etrans; [apply Z.le_min_l|]. apply fexp_le. lia.
Qed.

(** The quotient of a number that is at most [A * 2 ^ EA] by one that is
    at least [T * 2 ^ ET] is at most [M * 2 ^ E], a number of the format,
    when [A * 2 ^ EA <= M * 2 ^ E * T * 2 ^ ET]. *)
Lemma SFdiv_at_most (c : Z) (x y : spec_float) (A EA T ET : Z) (M : positive) (E : Z) :
  c <= 0 -> c <= emin -> c <= emin - (emax - prec) -> c <= E ->
  at_most prec emax c A EA x -> at_least prec emax c T ET y ->
  bounded prec emax M E = true ->
  scaled c A EA * 2 ^ (- c) <= scaled c (Z.pos M) E * scaled c T ET ->
  at_most prec emax c (Z.pos M) E (SFdiv prec emax x y).
Proof.
  intros Hc0 Hcmin Hc HcE Hx Hy HM Hle.
  destruct x as [sx|sx| |[] mx ex]; [|done|done|done|];
    destruct y as [sy|[]| |[] my ey]; try done.
  cbn [at_most at_least] in Hx, Hy.
  destruct Hx as [[Hxcan Hxmax]%bounded_spec Hx], Hy as [[Hycan Hymax]%bounded_spec Hy].
  pose proof (canonical_mantissa_spec _ _ Hxcan) as (Hxmin & _).
  pose proof (canonical_mantissa_spec _ _ Hycan) as (Hymin & _).
  cbn [SFdiv xorb].
  destruct (SFdiv_core_binary_spec mx ex my ey) as (e' & s & -> & Hs & Hse & He'min & He').
  assert (0 < 2 ^ s) by (apply Z.pow_pos_nonneg; lia).
  apply binary_round_aux_at_most; [nia|lia| |done|lia|done|done|].
  { intros Hmod. by apply new_location_exact. }
  rewrite <- Z.mul_assoc, <- Z.pow_add_r by lia.
  replace (s + (e' - c)) with (ex - ey - c) by lia.
  unfold scaled in *.
  assert (Hsplit : 2 ^ (ex - ey - c) * 2 ^ (ey - c) = 2 ^ (ex - c) * 2 ^ (- c)).
  { rewrite <- !Z.pow_add_r by lia. f_equal. lia. }
  assert (0 < 2 ^ (ey - c)) by (apply Z.pow_pos_nonneg; lia).
  assert (0 < 2 ^ (- c)) by (apply Z.pow_pos_nonneg; lia).
  assert (0 <= 2 ^ (E - c)) by (apply Z.pow_nonneg; lia).
  apply (Z.mul_le_mono_pos_r _ _ (2 ^ (ey - c))); [done|].
  replace (Z.pos mx * 2 ^ (ex - ey - c) * 2 ^ (ey - c))
    with (Z.pos mx * 2 ^ (ex - c) * 2 ^ (- c)) by (rewrite <- !Z.mul_assoc; by rewrite Hsplit).
  etrans; [apply Z.mul_le_mono_nonneg_r; [lia|exact Hx]|].
  etrans; [exact Hle|].
  replace (Z.pos my * (Z.pos M * 2 ^ (E - c)) * 2 ^ (ey - c))
    with (Z.pos M * 2 ^ (E - c) * (Z.pos my * 2 ^ (ey - c))) by lia.
  apply Z.mul_le_mono_nonneg_l; [lia|exact Hy].
Qed.

(** *** Comparison *)

Lemma SFltb_false_at_least (c : Z) (m : positive) (e : Z) (M : positive) (E : Z) :
  c <= e ->
  bounded prec emax m e = true ->
  canonical_mantissa prec emax M E = true ->
  SFltb (S754_finite false m e) (S754_finite false M E) = false ->
  at_least prec emax c (Z.pos M) E (S754_finite false m e).
Proof.
  intros Hc Hm HM Hlt. split; [done|].
  apply bounded_spec in Hm as [Hm _].
  unfold SFltb in Hlt. cbn [SFcompare] in Hlt.
  destruct (Z.compare_spec e E) as [->|Hlt'|Hgt]; [|done|].
  - unfold scaled. apply Z.mul_le_mono_nonneg_r; [apply Z.pow_nonneg; lia|].
    fold (Pos.compare m M) in Hlt.
    destruct (Pos.compare_spec m M); [lia|done|lia].
  - destruct (Z.le_gt_cases (scaled c (Z.pos M) E) (scaled c (Z.pos m) e)) as [|Hsm]; [done|].
    pose proof (canonical_le_exponent c m e M E Hm HM) as Hexp.
    pose proof (canonical_mantissa_spec _ _ HM) as (HEmin & _).
    destruct (Z.le_gt_cases c E) as [HcE|HcE].
    + specialize (Hexp HcE ltac:(lia)). lia.
    + unfold scaled in Hsm. rewrite (Z.pow_neg_r 2 (E - c)) in Hsm by lia.
      pose proof (Z.pow_nonneg 2 (e - c) ltac:(lia)). nia.
Qed.

End Rounding.

(** ** The range of [bin_bits_] *)

Section SetCapacityRange.

Import HashMetadata.

#[local] Abbreviation below := (at_most double_prec double_emax double_unit).
#[local] Abbreviation above := (at_least double_prec double_emax double_unit).

Lemma double_prec_pos : 0 < double_prec.
Proof. done. Qed.

(** [expected_records], once it is not 0, converts to at most 2^64. *)
Lemma double_of_integer_uint64 (n : Z) :
  0 < n < 2 ^ 64 -> below (2 ^ 52) 12 (double_of_integer n).
Proof.
  intros Hn. unfold double_of_integer.
  apply (binary_normalize_at_most _ _ double_prec_pos); [lia|done|done|done|done|].
  unfold scaled.
  replace (12 - double_unit) with (12 + (0 - double_unit)) by done.
  rewrite Z.pow_add_r by done.
  assert (0 < 2 ^ (0 - double_unit)) by done.
  nia.
Qed.

(** From 20 on, the entries per bin convert to at least 20. *)
Lemma double_of_integer_at_least_20 (n : Z) :
  20 <= n -> above (5 * 2 ^ 50) (-48) (double_of_integer n).
Proof.
  intros Hn. unfold double_of_integer.
  apply (binary_normalize_at_least _ _ double_prec_pos); [lia|done|done|done|done|].
  unfold scaled.
  replace (0 - double_unit) with (48 + (-48 - double_unit)) by done.
  rewrite Z.pow_add_r by done.
  assert (0 < 2 ^ (-48 - double_unit)) by done.
  nia.
Qed.

Lemma double_tenth_above : above 7205759403792794 (-56) double_tenth.
Proof. split; [by vm_compute|]. apply Z.leb_le. by vm_compute. Qed.

Lemma double_one_above : above 7205759403792794 (-56) double_one.
Proof. split; [by vm_compute|]. apply Z.leb_le. by vm_compute. Qed.

(** Whatever the fill factor, unless it is not a number, the divisor is a
    number of at least a tenth. *)
Lemma clamp_fillfactor_at_least (f : spec_float) :
  valid_binary double_prec double_emax f = true ->
  f <> S754_nan ->
  above 7205759403792794 (-56) (clamp_fillfactor f).
Proof.
  intros Hvalid Hnan.
  destruct f as [s|[]| |[] m e]; [| | |done| |].
  - change (clamp_fillfactor (S754_zero s)) with double_tenth. apply double_tenth_above.
  - change (clamp_fillfactor (S754_infinity true)) with double_tenth.
    apply double_tenth_above.
  - change (clamp_fillfactor (S754_infinity false)) with double_one.
    apply double_one_above.
  - change (clamp_fillfactor (S754_finite true m e)) with double_tenth.
    apply double_tenth_above.
  - unfold clamp_fillfactor.
    destruct (SFleb double_one (S754_finite false m e)).
    { change (if SFltb double_one double_tenth then double_tenth else double_one)
        with double_one. apply double_one_above. }
    destruct (SFltb (S754_finite false m e) double_tenth) eqn:Hlt;
      [apply double_tenth_above|].
    cbn [valid_binary] in Hvalid.
    apply (SFltb_false_at_least _ _ double_prec_pos); [|done|by vm_compute|done].
    apply bounded_spec in Hvalid as [Hcan _].
    apply canonical_mantissa_spec in Hcan as [Hmin _].
    unfold double_unit. revert Hmin. unfold emin, double_prec, double_emax. lia.
Qed.

Lemma uint64_of_double_at_most (x : spec_float) :
  below (2 ^ 52) 11 x ->
  exists t, uint64_of_double x = Some t /\ 0 <= t <= 2 ^ 63.
Proof.
  destruct x as [s| | |[] m e]; try done.
  { intros _. exists 0. done. }
  intros [Hb Hle]. cbn [uint64_of_double].
  apply bounded_spec in Hb as [Hcan _].
  apply canonical_mantissa_spec in Hcan as [Hmin _].
  assert (Hmin' : -1074 <= e) by exact Hmin.
  assert (Ht : 0 <= Z.shiftl (Z.pos m) e <= 2 ^ 63).
  { unfold scaled in Hle.
    destruct (Z.le_gt_cases 0 e) as [He|He].
    - rewrite Z.shiftl_mul_pow2 by done.
      replace (e - double_unit) with (e + (0 - double_unit)) in Hle by lia.
      replace (11 - double_unit) with (11 + (0 - double_unit)) in Hle by done.
      rewrite !Z.pow_add_r in Hle by (done || lia).
      assert (0 < 2 ^ (0 - double_unit)) by done.
      pose proof (Z.pow_pos_nonneg 2 e ltac:(lia) He). nia.
    - rewrite Z.shiftl_div_pow2 by lia.
      replace (11 - double_unit) with (63 + (- e) + (e - double_unit) - 52) in Hle by lia.
      assert (0 < 2 ^ (e - double_unit)).
      { apply Z.pow_pos_nonneg; [done|]. unfold double_unit. lia. }
      assert (0 < 2 ^ (- e)) by (apply Z.pow_pos_nonneg; lia).
      assert (Hsplit : 2 ^ 52 * 2 ^ (63 + - e + (e - double_unit) - 52)
                       = 2 ^ 63 * 2 ^ (- e) * 2 ^ (e - double_unit)).
      { rewrite <- !Z.pow_add_r by (unfold double_unit; lia). f_equal. lia. }
      rewrite Hsplit in Hle.
      split; [apply Z.div_pos; lia|].
      apply Z.div_le_upper_bound; [lia|]. nia. }
  exists (Z.shiftl (Z.pos m) e). split; [|done].
  rewrite (proj2 (Z.ltb_lt _ _)); [done|]. lia.
Qed.

(** [kMaxEntriesPerBin], the constant of [foedus/storage/hash/hash_id.hpp]
    that the sources at hand do not contain. *)
Variable kMaxEntriesPerBin : Z.

(** C7: with 20 or more entries per bin, whatever [expected_records] and
    whatever [double] [preferred_fillfactor] are, a call of [set_capacity]
    that returns leaves [bin_bits_] between 8 and 63.  The call returns for
    every fill factor that is a number or an infinity; for a fill factor
    that is not a number the conversion of the quotient to [uint64_t] has
    no defined result. *)
Theorem set_capacity_bin_bits_range
    (expected_records : Z) (preferred_fillfactor : spec_float) :
  20 <= kMaxEntriesPerBin ->
  0 <= expected_records < 2 ^ 64 ->
  valid_binary double_prec double_emax preferred_fillfactor = true ->
  (forall bits,
     set_capacity kMaxEntriesPerBin expected_records preferred_fillfactor = Some bits ->
     8 <= bits <= 63)
  /\ (preferred_fillfactor <> S754_nan ->
      exists bits,
        set_capacity kMaxEntriesPerBin expected_records preferred_fillfactor = Some bits)
  /\ (preferred_fillfactor = S754_nan ->
      set_capacity kMaxEntriesPerBin expected_records preferred_fillfactor = None).
Proof.
  intros Hk Hrecords Hvalid.
  assert (Hnan : preferred_fillfactor = S754_nan ->
                 set_capacity kMaxEntriesPerBin expected_records preferred_fillfactor
                 = None).
  { intros ->. unfold set_capacity.
    change (if SFltb (if SFleb double_one S754_nan then double_one else S754_nan)
                 double_tenth
            then double_tenth
            else if SFleb double_one S754_nan then double_one else S754_nan)
      with S754_nan.
    unfold double_div.
    destruct (double_of_integer _) as [| | |]; cbn [SFdiv];
      destruct (double_of_integer kMaxEntriesPerBin); done. }
  assert (Hnum : preferred_fillfactor <> S754_nan ->
                 exists bits,
                   set_capacity kMaxEntriesPerBin expected_records preferred_fillfactor
                   = Some bits
                   /\ 8 <= bits <= 63).
  { intros Hnot. unfold set_capacity.
    fold (clamp_fillfactor preferred_fillfactor).
    set (records := if expected_records =? 0 then 1 else expected_records).
    assert (Hr : 0 < records < 2 ^ 64).
    { unfold records. destruct (Z.eqb_spec expected_records 0); lia. }
    pose proof (double_of_integer_uint64 records Hr) as Hx.
    pose proof (double_of_integer_at_least_20 kMaxEntriesPerBin Hk) as Hbin.
    pose proof (clamp_fillfactor_at_least preferred_fillfactor Hvalid Hnot) as Hf.
    assert (Hq1 : below (5 * 2 ^ 50) 15
                    (double_div (double_of_integer records)
                       (clamp_fillfactor preferred_fillfactor))).
    { apply (SFdiv_at_most double_prec double_emax double_prec_pos double_unit _ _
               (2 ^ 52) 12 7205759403792794 (-56) (5 * 2 ^ 50)%positive 15);
        [done|done|done|done|exact Hx|exact Hf|done|].
      apply Z.leb_le. vm_compute. done. }
    assert (Hq2 : below (2 ^ 52) 11
                    (double_div
                       (double_div (double_of_integer records)
                          (clamp_fillfactor preferred_fillfactor))
                       (double_of_integer kMaxEntriesPerBin))).
    { apply (SFdiv_at_most double_prec double_emax double_prec_pos double_unit _ _
               (5 * 2 ^ 50) 15 (5 * 2 ^ 50) (-48) (2 ^ 52)%positive 11);
        [done|done|done|done|exact Hq1|exact Hbin|done|].
      apply Z.leb_le. vm_compute. done. }
    destruct (uint64_of_double_at_most _ Hq2) as (t & -> & Ht).
    exists (bin_bits_of t). split; [done|].
    pose proof (bin_bits_of_range t) as (Hrange & Hsmall & _).
    specialize (Hsmall ltac:(lia)). lia. }
  split; [|split; [|exact Hnan]].
  - intros bits Hbits.
    assert (Hne : preferred_fillfactor <> S754_nan).
    { intros Heq. rewrite (Hnan Heq) in Hbits. done. }
    destruct (Hnum Hne) as (bits' & Hrun & Hrange). congruence.
  - intros Hne. destruct (Hnum Hne) as (bits & Hrun & _). by exists bits.
Qed.

End SetCapacityRange.

(** * The model at work on Phase 3 and on set_capacity *)



#[local] Abbreviation run_delete :=
  (precommit_xct track_never track_read_same apply_delete sort_by_address).


Lemma set_capacity_bin_bits_range_witness :
  (20 <= 23
   /\ 0 <= 1000000 < 2 ^ 64
   /\ valid_binary HashMetadata.double_prec HashMetadata.double_emax
        HashMetadata.double_half = true)
  /\ (forall bits,
        HashMetadata.set_capacity 23 1000000 HashMetadata.double_half = Some bits ->
        8 <= bits <= 63)
  /\ exists bits, HashMetadata.set_capacity 23 1000000 HashMetadata.double_half = Some bits.
Proof.
  assert (Hk : 20 <= 23) by lia.
  assert (Hrecords : 0 <= 1000000 < 2 ^ 64) by lia.
  assert (Hvalid : valid_binary HashMetadata.double_prec HashMetadata.double_emax
                     HashMetadata.double_half = true) by reflexivity.
  split; [by split_and!|].
  destruct (set_capacity_bin_bits_range 23 1000000 HashMetadata.double_half
              Hk Hrecords Hvalid) as (Hrange & Hreturns & _).
  split; [exact Hrange|]. apply Hreturns. discriminate.
Defined.

(** With fewer than 20 entries per bin the upper bound is lost: with 19,
    the largest [expected_records] and the smallest fill factor give
    64; with 20 they give 63. *)
Example set_capacity_few_entries_per_bin :
  HashMetadata.set_capacity 19 (2 ^ 64 - 1) HashMetadata.double_tenth = Some 64
  /\ HashMetadata.set_capacity 20 (2 ^ 64 - 1) HashMetadata.double_tenth = Some 63
  /\ HashMetadata.set_capacity 1 (2 ^ 63 + 2048) HashMetadata.double_one = Some 64.
Proof. by vm_compute. Qed.

Example set_capacity_257 :
  HashMetadata.set_capacity 1 257 HashMetadata.double_one = Some 9
  /\ HashMetadata.set_capacity 23 0 S754_nan = None.
Proof. by vm_compute. Qed.
